(** * gotrie: an R-way trie keyed by UTF-8 byte strings

    A shallow embedding of [trie/tree.go].  Go objects live in an explicit
    heap: [*Node] values are addresses of node objects and [map[rune]*Node]
    values are addresses of map objects, so that two nodes holding the same
    map, and a node reachable through a stale [parent] pointer, behave as
    they do in Go. *)

From Stdlib Require Import ZArith List Bool Lia.
From Stdlib.Strings Require Import Byte String.
From stdpp Require Import base option list gmap sorting.

Local Open Scope Z_scope.

(** ** Outcomes of a run *)

(** [Ok a]: the call returns [a].  [Panic]: the Go run time panics (nil
    pointer dereference, index out of range, write to a nil map).  [Undef]:
    the model gave up, on an address outside the heap or on exhausted fuel;
    the well-formedness lemmas below show that this never happens on a trie
    built by the public operations. *)
Inductive result (A : Type) : Type :=
  | Ok (a : A)
  | Panic
  | Undef.
Arguments Ok {A} a.
Arguments Panic {A}.
Arguments Undef {A}.

(** ** Bytes and runes *)

Definition b2z (b : byte) : Z := Z.of_N (Byte.to_N b).

(** Go's conversion [byte(x)]: keep the low eight bits. *)
Definition z2b (z : Z) : byte :=
  match Byte.of_N (Z.to_N (z mod 256)) with
  | Some b => b
  | None => x00
  end.

Definition bytes_of (s : string) : list byte := list_byte_of_string s.

(** ** unicode/utf8

    The three functions of Go's standard library that the trie calls,
    transcribed from the library (the package is imported by the
    repository, it is not part of it). *)
Module utf8.

Definition RuneError : Z := 0xFFFD.
Definition MaxRune : Z := 0x10FFFF.
Definition surrogateMin : Z := 0xD800.
Definition surrogateMax : Z := 0xDFFF.
Definition rune1Max : Z := 0x7F.
Definition rune2Max : Z := 0x7FF.
Definition rune3Max : Z := 0xFFFF.

Definition tx : Z := 0x80.
Definition t2 : Z := 0xC0.
Definition t3 : Z := 0xE0.
Definition t4 : Z := 0xF0.
Definition maskx : Z := 0x3F.
Definition mask2 : Z := 0x1F.
Definition mask3 : Z := 0x0F.
Definition mask4 : Z := 0x07.
Definition locb : Z := 0x80.
Definition hicb : Z := 0xBF.

(** Entries of the [first] table: the low three bits give the length of
    the encoding, the high four bits index [acceptRanges]. *)
Definition xx : Z := 0xF1.
Definition as_ : Z := 0xF0.
Definition s1 : Z := 0x02.
Definition s2 : Z := 0x13.
Definition s3 : Z := 0x03.
Definition s4 : Z := 0x23.
Definition s5 : Z := 0x34.
Definition s6 : Z := 0x04.
Definition s7 : Z := 0x44.

Definition first (b : Z) : Z :=
  if b <? 0x80 then as_
  else if b <? 0xC2 then xx
  else if b <? 0xE0 then s1
  else if b =? 0xE0 then s2
  else if b <? 0xED then s3
  else if b =? 0xED then s4
  else if b <? 0xF0 then s3
  else if b =? 0xF0 then s5
  else if b <? 0xF4 then s6
  else if b =? 0xF4 then s7
  else xx.

Definition acceptRanges (i : Z) : Z * Z :=
  if i =? 0 then (locb, hicb)
  else if i =? 1 then (0xA0, hicb)
  else if i =? 2 then (locb, 0x9F)
  else if i =? 3 then (0x90, hicb)
  else if i =? 4 then (locb, 0x8F)
  else (0, 0).

(** [DecodeRune p] returns the first rune of [p] and its width in bytes;
    [(RuneError, 0)] on empty input, [(RuneError, 1)] on a bad encoding. *)
Definition DecodeRune (p : list byte) : Z * nat :=
  match p with
  | [] => (RuneError, 0%nat)
  | c0 :: p1 =>
    let p0 := b2z c0 in
    let x := first p0 in
    if as_ <=? x then ((if x =? xx then RuneError else p0), 1%nat)
    else
      let sz := Z.land x 7 in
      let '(lo, hi) := acceptRanges (Z.shiftr x 4) in
      if Z.of_nat (length p) <? sz then (RuneError, 1%nat)
      else
        match p1 with
        | [] => (RuneError, 1%nat)
        | c1 :: p2 =>
          let b1 := b2z c1 in
          if (b1 <? lo) || (hi <? b1) then (RuneError, 1%nat)
          else if sz <=? 2 then
            (Z.lor (Z.shiftl (Z.land p0 mask2) 6) (Z.land b1 maskx), 2%nat)
          else
            match p2 with
            | [] => (RuneError, 1%nat)
            | c2 :: p3 =>
              let b2 := b2z c2 in
              if (b2 <? locb) || (hicb <? b2) then (RuneError, 1%nat)
              else if sz <=? 3 then
                (Z.lor (Z.lor (Z.shiftl (Z.land p0 mask3) 12)
                              (Z.shiftl (Z.land b1 maskx) 6))
                       (Z.land b2 maskx), 3%nat)
              else
                match p3 with
                | [] => (RuneError, 1%nat)
                | c3 :: _ =>
                  let b3 := b2z c3 in
                  if (b3 <? locb) || (hicb <? b3) then (RuneError, 1%nat)
                  else
                    (Z.lor (Z.lor (Z.lor (Z.shiftl (Z.land p0 mask4) 18)
                                         (Z.shiftl (Z.land b1 maskx) 12))
                                  (Z.shiftl (Z.land b2 maskx) 6))
                           (Z.land b3 maskx), 4%nat)
                end
            end
        end
  end.

Definition RuneLen (r : Z) : Z :=
  if r <? 0 then -1
  else if r <=? rune1Max then 1
  else if r <=? rune2Max then 2
  else if (surrogateMin <=? r) && (r <=? surrogateMax) then -1
  else if r <=? rune3Max then 3
  else if r <=? MaxRune then 4
  else -1.

Definition enc3 (r : Z) : list byte :=
  [ z2b (Z.lor t3 (b2z (z2b (Z.shiftr r 12))));
    z2b (Z.lor tx (Z.land (b2z (z2b (Z.shiftr r 6))) maskx));
    z2b (Z.lor tx (Z.land (b2z (z2b r)) maskx)) ].

(** The bytes [EncodeRune] writes for [r]; [uint32 r] is [r mod 2^32]. *)
Definition encoding (r : Z) : list byte :=
  let i := r mod 2 ^ 32 in
  if i <=? rune1Max then [ z2b r ]
  else if i <=? rune2Max then
    [ z2b (Z.lor t2 (b2z (z2b (Z.shiftr r 6))));
      z2b (Z.lor tx (Z.land (b2z (z2b r)) maskx)) ]
  else if (MaxRune <? i) || ((surrogateMin <=? i) && (i <=? surrogateMax))
  then enc3 RuneError
  else if i <=? rune3Max then enc3 r
  else
    [ z2b (Z.lor t4 (b2z (z2b (Z.shiftr r 18))));
      z2b (Z.lor tx (Z.land (b2z (z2b (Z.shiftr r 12))) maskx));
      z2b (Z.lor tx (Z.land (b2z (z2b (Z.shiftr r 6))) maskx));
      z2b (Z.lor tx (Z.land (b2z (z2b r)) maskx)) ].

(** [EncodeRune p r] writes the encoding of [r] at the start of the slice
    [p] and returns the slice as written and the number of bytes; it
    panics ([None]) when [p] is too short. *)
Definition EncodeRune (p : list byte) (r : Z) : option (list byte * nat) :=
  let e := encoding r in
  if (length p <? length e)%nat then None
  else Some (e ++ drop (length e) p, length e).

End utf8.

(** ** Well-formed UTF-8

    The byte sequences of the Unicode standard (table 3-7), in arithmetic
    form: the lead byte fixes the length and the range of the second byte,
    the other bytes are continuation bytes. *)

Definition rune2 (x0 b1 : Z) : Z := (x0 mod 32) * 64 + b1 mod 64.
Definition rune3 (x0 b1 b2 : Z) : Z :=
  (x0 mod 16) * 4096 + (b1 mod 64) * 64 + b2 mod 64.
Definition rune4 (x0 b1 b2 b3 : Z) : Z :=
  (x0 mod 8) * 262144 + (b1 mod 64) * 4096 + (b2 mod 64) * 64 + b3 mod 64.
Definition cont (b : Z) : Prop := 0x80 ≤ b ≤ 0xBF.
Definition second (x0 b1 : Z) : Prop :=
  cont b1 ∧ (x0 = 0xE0 → 0xA0 ≤ b1) ∧ (x0 = 0xED → b1 ≤ 0x9F)
  ∧ (x0 = 0xF0 → 0x90 ≤ b1) ∧ (x0 = 0xF4 → b1 ≤ 0x8F).
Inductive utf8_first : list byte → Z → nat → Prop :=
  | utf8_first1 c0 p :
      b2z c0 < 0x80 → utf8_first (c0 :: p) (b2z c0) 1
  | utf8_first2 c0 c1 p :
      0xC2 ≤ b2z c0 ≤ 0xDF → cont (b2z c1) →
      utf8_first (c0 :: c1 :: p) (rune2 (b2z c0) (b2z c1)) 2
  | utf8_first3 c0 c1 c2 p :
      0xE0 ≤ b2z c0 ≤ 0xEF → second (b2z c0) (b2z c1) → cont (b2z c2) →
      utf8_first (c0 :: c1 :: c2 :: p) (rune3 (b2z c0) (b2z c1) (b2z c2)) 3
  | utf8_first4 c0 c1 c2 c3 p :
      0xF0 ≤ b2z c0 ≤ 0xF4 → second (b2z c0) (b2z c1) → cont (b2z c2) →
      cont (b2z c3) →
      utf8_first (c0 :: c1 :: c2 :: c3 :: p)
                 (rune4 (b2z c0) (b2z c1) (b2z c2) (b2z c3)) 4.


(** A Unicode scalar value, and one that [DecodeRune] can report. *)
Definition scalar (r : Z) : Prop :=
  0 ≤ r ≤ utf8.MaxRune ∧ ¬ (utf8.surrogateMin ≤ r ≤ utf8.surrogateMax).
Definition storable (r : Z) : Prop := scalar r ∧ r ≠ utf8.RuneError.

(** [decodes p rs]: decoding [p] rune by rune succeeds and yields [rs]. *)
Inductive decodes : list byte → list Z → Prop :=
  | decodes_nil : decodes [] []
  | decodes_cons p e n rs :
      p ≠ [] → utf8.DecodeRune p = (e, n) → e ≠ utf8.RuneError →
      decodes (drop n p) rs → decodes p (e :: rs).

(** The UTF-8 text of a sequence of runes. *)
Definition utf8_text (rs : list Z) : list byte := concat (map utf8.encoding rs).

(** ** The heap of node and map objects *)

(** Addresses of node objects and of map objects.  A [*Node] is an
    [option ptr], the nil map is [None]. *)
Abbreviation ptr := nat.
Abbreviation mref := nat.

Record Node (V : Type) : Type := mkNode {
  code : Z;               (* code of node *)
  term : bool;            (* last node flag *)
  depth : Z;
  value : option V;       (* property of node; [None] is the nil interface *)
  parent : option ptr;
  children : option mref;
}.
Arguments mkNode {V} _ _ _ _ _ _.
Arguments code {V} _.
Arguments term {V} _.
Arguments depth {V} _.
Arguments value {V} _.
Arguments parent {V} _.
Arguments children {V} _.

Record Trie : Type := mkTrie {
  root : ptr;
  size : Z;
}.

(** All objects of a run: the node objects, the map objects and the one
    [Trie] object the operations are called on. *)
Record World (V : Type) : Type := mkWorld {
  nodes : list (Node V);
  maps : list (gmap Z ptr);
  trie : Trie;
}.
Arguments mkWorld {V} _ _ _.
Arguments nodes {V} _.
Arguments maps {V} _.
Arguments trie {V} _.

Definition NodeIterator (V S : Type) : Type := list byte → option V → S → bool * S.

Section Model.
Context {V : Type}.

Abbreviation Node := (Node V).
Abbreviation World := (World V).

Definition set_term (b : bool) (n : Node) : Node :=
  mkNode (code n) b (depth n) (value n) (parent n) (children n).
Definition set_value (v : option V) (n : Node) : Node :=
  mkNode (code n) (term n) (depth n) v (parent n) (children n).

(** *** A state monad over the world, with Go's panics *)

Definition M (A : Type) : Type := World → result (A * World).

Definition ret {A} (a : A) : M A := λ w, Ok (a, w).
Definition bind {A B} (m : M A) (k : A → M B) : M B :=
  λ w, match m w with
       | Ok (a, w') => k a w'
       | Panic => Panic
       | Undef => Undef
       end.
Definition panic {A} : M A := λ _, Panic.
Definition undef {A} : M A := λ _, Undef.

Notation "'let*' x ':=' m 'in' k" := (bind m (λ x, k))
  (at level 10, x pattern, m at level 100, k at level 200).
Notation "m ';;' k" := (bind m (λ _, k))
  (at level 100, k at level 200, right associativity).

Definition load (p : ptr) : M Node :=
  λ w, match nodes w !! p with Some n => Ok (n, w) | None => Undef end.
Definition store (p : ptr) (n : Node) : M unit :=
  λ w, match nodes w !! p with
       | Some _ => Ok (tt, mkWorld (<[p := n]> (nodes w)) (maps w) (trie w))
       | None => Undef
       end.
Definition new_node (n : Node) : M ptr :=
  λ w, Ok (length (nodes w), mkWorld (nodes w ++ [n]) (maps w) (trie w)).
Definition make_map : M (option mref) :=
  λ w, Ok (Some (length (maps w)), mkWorld (nodes w) (maps w ++ [∅]) (trie w)).

(** Reading a nil map behaves as reading an empty one. *)
Definition map_of (w : World) (r : option mref) : result (gmap Z ptr) :=
  match r with
  | None => Ok ∅
  | Some a => match maps w !! a with Some m => Ok m | None => Undef end
  end.
Definition map_read (r : option mref) : M (gmap Z ptr) :=
  λ w, match map_of w r with
       | Ok m => Ok (m, w)
       | Panic => Panic
       | Undef => Undef
       end.
(** [m[c] = q]; assignment to an entry of a nil map panics. *)
Definition map_assign (r : option mref) (c : Z) (q : ptr) : M unit :=
  λ w, match r with
       | None => Panic
       | Some a =>
         match maps w !! a with
         | Some m => Ok (tt, mkWorld (nodes w) (<[a := <[c := q]> m]> (maps w)) (trie w))
         | None => Undef
         end
       end.
(** [delete(m, c)]; a no-op on a nil map. *)
Definition map_delete (r : option mref) (c : Z) : M unit :=
  λ w, match r with
       | None => Ok (tt, w)
       | Some a =>
         match maps w !! a with
         | Some m => Ok (tt, mkWorld (nodes w) (<[a := delete c m]> (maps w)) (trie w))
         | None => Undef
         end
       end.
Definition size_incr (d : Z) : M unit :=
  λ w, Ok (tt, mkWorld (nodes w) (maps w) (mkTrie (root (trie w)) (size (trie w) + d))).

(** *** Node methods *)

Definition NewChildNode (n : ptr) (c : Z) (v : option V) (tm : bool) : M ptr :=
  let* pn := load n in
  let* m := make_map in
  let* node := new_node (mkNode c tm (depth pn + 1) v (Some n) m) in
  map_assign (children pn) c node;;
  ret node.

(** [n.children[node.Code()] = node], with [n] possibly nil. *)
Definition ReplaceOrInsertChildNode (n : option ptr) (node : ptr) : M unit :=
  match n with
  | None => panic
  | Some p =>
    let* pn := load p in
    let* nd := load node in
    map_assign (children pn) (code nd) node
  end.

Definition RemoveChild (n : ptr) (r : Z) : M unit :=
  let* pn := load n in
  map_delete (children pn) r.

(** *** The key codec *)

(** The loop of [parseTextToRunes]; [rest] is [str[offset:]].  One unit of
    fuel per iteration: [length str] is enough, since every iteration
    consumes at least one byte. *)
Fixpoint parse_loop (fuel : nat) (rest : list byte) (keyRune : list Z) : list Z :=
  match rest with
  | [] => keyRune
  | _ :: _ =>
    match fuel with
    | O => []
    | S fuel' =>
      let '(e, sz) := utf8.DecodeRune rest in
      if e =? utf8.RuneError then []
      else parse_loop fuel' (drop sz rest) (keyRune ++ [e])
    end
  end.

Definition parseTextToRunes (str : list byte) : list Z :=
  match str with
  | [] => []
  | _ :: _ => parse_loop (length str) str []
  end.

Fixpoint encode_loop (runes : list Z) (key : list byte) (offset : nat)
  : result (list byte) :=
  match runes with
  | [] => Ok key
  | k :: runes' =>
    if (length key <? offset)%nat then Panic
    else
      match utf8.EncodeRune (drop offset key) k with
      | None => Panic
      | Some (written, n) =>
        encode_loop runes' (take offset key ++ written) (offset + n)%nat
      end
  end.

Definition parseRunesToText (runes : list Z) : result (list byte) :=
  let l := fold_left (λ l r, l + utf8.RuneLen r) runes 0 in
  if l <? 0 then Panic
  else encode_loop runes (replicate (Z.to_nat l) x00) 0%nat.

(** *** Lookup *)

Fixpoint findNode (w : World) (node : option ptr) (key : list Z)
  : result (option ptr) :=
  match node with
  | None => Ok None
  | Some p =>
    match key with
    | [] => Ok (Some p)
    | c :: subKey =>
      match nodes w !! p with
      | None => Undef
      | Some n =>
        match map_of w (children n) with
        | Ok m =>
          match m !! c with
          | None => Ok None
          | Some q => findNode w (Some q) subKey
          end
        | Panic => Panic
        | Undef => Undef
        end
      end
    end
  end.

(** [Find] returns a fresh copy of the node (its [children] field is left
    nil) and the found flag. *)
Definition Find (w : World) (key : list byte) : result (option Node * bool) :=
  let keyRune := parseTextToRunes key in
  match findNode w (Some (root (trie w))) keyRune with
  | Ok None => Ok (None, false)
  | Ok (Some p) =>
    match nodes w !! p with
    | None => Undef
    | Some node =>
      if negb (term node) then Ok (None, false)
      else Ok (Some (mkNode (code node) (term node) (depth node) (value node)
                            (parent node) None), true)
    end
  | Panic => Panic
  | Undef => Undef
  end.

Definition HasKeysWithPrefix (w : World) (key : list byte) : result bool :=
  let keyRune := parseTextToRunes key in
  match findNode w (Some (root (trie w))) keyRune with
  | Ok node => Ok (bool_decide (node ≠ None))
  | Panic => Panic
  | Undef => Undef
  end.

(** *** Construction and insertion *)

Definition NewTrie : World :=
  mkWorld [ mkNode 0 false 0 None None (Some 0%nat) ] [ ∅ ] (mkTrie 0%nat 0).

(** The loop of [ReplaceOrInsert]; [rest] is [key[offset:]].  It returns
    [None] when the loop leaves the function through [return nil], and the
    final [node] and [pre] otherwise.  One unit of fuel per iteration:
    [length key] is enough, every iteration consumes a byte or more. *)
Fixpoint insert_loop (fuel : nat) (rest : list byte) (node : ptr) (pre : option ptr)
  : M (option (ptr * option ptr)) :=
  match rest with
  | [] => ret (Some (node, pre))
  | _ :: _ =>
    match fuel with
    | O => undef
    | S fuel' =>
      let '(e, sz) := utf8.DecodeRune rest in
      if e =? utf8.RuneError then ret None
      else
        let* nd := load node in
        let* m := map_read (children nd) in
        match m !! e with
        | Some n => insert_loop fuel' (drop sz rest) n (Some n)
        | None =>
          let* n := NewChildNode node e None false in
          insert_loop fuel' (drop sz rest) n None
        end
    end
  end.

Definition ReplaceOrInsert (key : list byte) (v : option V) : M (option ptr) :=
  match key with
  | [] => ret None
  | _ :: _ =>
    let* t := (λ w, Ok (trie w, w)) in
    let* r := insert_loop (length key) key (root t) None in
    match r with
    | None => ret None
    | Some (node, None) =>
      (* new node *)
      let* nd := load node in
      store node (set_value v nd);;
      let* nd := load node in
      store node (set_term true nd);;
      size_incr 1;;
      ret None
    | Some (_, Some pre) =>
      let* pn := load pre in
      let* node := new_node (mkNode (code pn) (term pn) (depth pn) v
                                    (parent pn) (children pn)) in
      let* nd := load node in
      ReplaceOrInsertChildNode (parent nd) node;;
      ret (Some pre)
    end
  end.

(** *** Deletion *)

(** The pruning loop of [Delete], started at [n := node.Parent()].  One
    unit of fuel per iteration: the parent of a node object is an older
    object, so as many units as there are node objects are enough. *)
Fixpoint prune_loop (fuel : nat) (n : option ptr) : M unit :=
  match n with
  | None => ret tt
  | Some p =>
    match fuel with
    | O => undef
    | S fuel' =>
      let* pn := load p in
      if term pn then ret tt
      else
        let* m := map_read (children pn) in
        if (0 <? Z.of_nat (base.size m)) then ret tt
        else
          match parent pn with
          | Some q => RemoveChild q (code pn)
          | None => ret tt
          end;;
          prune_loop fuel' (parent pn)
    end
  end.

Definition Delete (key : list byte) : M (option ptr) :=
  λ w,
    let keyRune := parseTextToRunes key in
    match findNode w (Some (root (trie w))) keyRune with
    | Ok None => Panic (* [node.term] on a nil [node] *)
    | Ok (Some node) =>
      (let* nd := load node in
       if term nd then
         size_incr (-1);;
         let* m := map_read (children nd) in
         (if 0 <? Z.of_nat (base.size m) then
            (* we just flag the term *)
            store node (set_term false nd)
          else
            match parent nd with
            | Some q =>
              RemoveChild q (code nd);;
              λ w', prune_loop (length (nodes w')) (Some q) w'
            | None => ret tt
            end);;
         ret (Some node)
       else ret None) w
    | Panic => Panic
    | Undef => Undef
    end.

(** *** Ordered traversal *)

Fixpoint for_each {A S : Type} (l : list A) (body : A → S → result S) (s : S)
  : result S :=
  match l with
  | [] => Ok s
  | a :: l' =>
    match body a s with
    | Ok s' => for_each l' body s'
    | Panic => Panic
    | Undef => Undef
    end
  end.

(** [preTraverse]; the iterator's captured variables are the state [S].
    [append(prefix, n.code)] is the list [prefix ++ [code n]]: the slots
    of the backing array below [len(prefix)] are never written again. *)
Fixpoint preTraverse {S : Type} (fuel : nat) (w : World) (node : option ptr)
    (prefix : list Z) (iter : NodeIterator V S) (s : S) : result S :=
  match fuel with
  | O => Undef
  | Datatypes.S fuel' =>
    match node with
    | None => Ok s
    | Some p =>
      match nodes w !! p with
      | None => Undef
      | Some nd =>
        let below (s : S) : result S :=
          match map_of w (children nd) with
          | Ok m =>
            if Z.of_nat (base.size m) =? 0 then Ok s
            else
              (* sort key *)
              let bs := merge_sort Z.le (map_to_list m).*1 in
              for_each bs (λ c s,
                match m !! c with
                | Some n =>
                  match nodes w !! n with
                  | Some nn => preTraverse fuel' w (Some n) (prefix ++ [code nn]) iter s
                  | None => Undef
                  end
                | None => Ok s
                end) s
          | Panic => Panic
          | Undef => Undef
          end in
        if term nd then
          match parseRunesToText prefix with
          | Ok k =>
            let '(continue, s') := iter k (value nd) s in
            if negb continue then Ok s' else below s'
          | Panic => Panic
          | Undef => Undef
          end
        else below s
      end
    end
  end.

(** [preTraverse] uses one unit of fuel per level.  Down a path every node
    has a newer map object than the one before, and there are no more maps
    than node objects, so one more unit than there are node objects is
    enough. *)
Definition PrefixSearch {S : Type} (w : World) (pre : list byte)
    (iter : NodeIterator V S) (s : S) : result S :=
  let preRune := parseTextToRunes pre in
  match findNode w (Some (root (trie w))) preRune with
  | Ok None => Ok s
  | Ok (Some node) => preTraverse (Datatypes.S (length (nodes w))) w (Some node) preRune iter s
  | Panic => Panic
  | Undef => Undef
  end.

(** The closure [iter] of [Keys]; its captured variable [keys] is the state. *)
Definition Keys_iter : NodeIterator V (list (list byte)) :=
  λ key _ keys, (true, keys ++ [key]).

Definition Keys (w : World) : result (list (list byte)) :=
  PrefixSearch w [] Keys_iter [].

End Model.

(** ** Reachable tries and their shape *)

Section Shape.
Context {V : Type}.

Inductive step : World V → World V → Prop :=
  | step_ReplaceOrInsert key v w r w' :
      ReplaceOrInsert key v w = Ok (r, w') → step w w'
  | step_Delete key w r w' :
      Delete key w = Ok (r, w') → step w w'.

(** The tries a caller can build: [NewTrie], then insertions and deletions
    that return. *)
Inductive reachable : World V → Prop :=
  | reachable_NewTrie : reachable NewTrie
  | reachable_step w w' : reachable w → step w w' → reachable w'.

(** Lexicographic order on code-point sequences. *)
Fixpoint rune_lt (a b : list Z) : Prop :=
  match a, b with
  | _, [] => False
  | [], _ :: _ => True
  | x :: a', y :: b' => x < y ∨ (x = y ∧ rune_lt a' b')
  end.

(** [Find] reports [key] as found. *)
Definition stored (w : World V) (key : list byte) : Prop :=
  ∃ n, Find w key = Ok (Some n, true).

(** The node at the end of [path] from the root. *)
Definition node_at (w : World V) (path : list Z) (n : Node V) : Prop :=
  ∃ p, findNode w (Some (root (trie w))) path = Ok (Some p) ∧ nodes w !! p = Some n.

(** The path [suffix] from the node [p] ends at a terminating node. *)
Definition ends_key (w : World V) (p : ptr) (suffix : list Z) : Prop :=
  ∃ q nq, findNode w (Some p) suffix = Ok (Some q)
          ∧ nodes w !! q = Some nq ∧ term nq = true.

(** A node other than the root that ends no key and has no child. *)
Definition dead_leaf (w : World V) (path : list Z) : Prop :=
  path ≠ [] ∧
  ∃ n, node_at w path n ∧ term n = false ∧ map_of w (children n) = Ok ∅.

(** The shape every reachable world has.  Node objects are never freed, so
    the conditions range over all of them, those no longer in the tree
    included.  Map objects are allocated in the order the nodes they belong
    to are created: the map of a node is newer than the map it is an entry
    of, which bounds the length of every path. *)
Record wf (w : World V) : Prop := {
  wf_root :
    root (trie w) = 0%nat ∧ ∃ n, nodes w !! 0%nat = Some n ∧ term n = false;
  wf_count : (length (maps w) ≤ length (nodes w))%nat;
  wf_children : ∀ p n,
    nodes w !! p = Some n →
    ∃ a, children n = Some a ∧ (a < length (maps w))%nat;
  wf_parent : ∀ p n q,
    nodes w !! p = Some n → parent n = Some q →
    (q < p)%nat ∧
    ∃ nq a a', nodes w !! q = Some nq ∧ children nq = Some a ∧
               children n = Some a' ∧ (a < a')%nat;
  wf_entry : ∀ a m c q,
    maps w !! a = Some m → m !! c = Some q →
    storable c ∧
    ∃ nq a', nodes w !! q = Some nq ∧ code nq = c ∧
             children nq = Some a' ∧ (a < a')%nat;
}.

End Shape.

(** ** Scenarios: short runs of calls, with string values as in the tests *)

Module Scenarios.

Definition ins (k : string) : M (V:=string) (option ptr) :=
  ReplaceOrInsert (bytes_of k) (Some k).
Definition del (k : string) : M (V:=string) (option ptr) :=
  Delete (bytes_of k).

(** Run the calls [ms] one after the other, from [w]. *)
Fixpoint run_all (ms : list (M (V:=string) (option ptr))) (w : World string)
  : result (World string) :=
  match ms with
  | [] => Ok w
  | m :: ms' =>
    match m w with
    | Ok (_, w') => run_all ms' w'
    | Panic => Panic
    | Undef => Undef
    end
  end.

(** An iterator that records the keys it is called on and answers [false]
    on the key [stop]. *)
Definition stop_at (stop : list byte) : NodeIterator string (list (list byte)) :=
  λ key _ seen, (negb (bool_decide (b2z <$> key = b2z <$> stop)), seen ++ [key]).

(** The calls a caller can make. *)
Definition is_call (m : M (V:=string) (option ptr)) : Prop :=
  (∃ key v, m = ReplaceOrInsert key v) ∨ (∃ key, m = Delete key).

End Scenarios.

(** ** Accessors *)

Section Accessors.
Context {V : Type}.

Definition Size (w : World V) : Z := size (trie w).

Definition Parent (n : Node V) : option ptr := parent n.
Definition Children (n : Node V) : option mref := children n.
Definition Terminating (n : Node V) : bool := term n.
Definition Depth (n : Node V) : Z := depth n.
Definition Code (n : Node V) : Z := code n.
Definition Value (n : Node V) : option V := value n.

End Accessors.

(** ** How the objects of a reachable world hang together *)

Section Links.
Context {V : Type}.

(** [p] is the only node object that holds its children map. *)
Definition sole_owner (w : World V) (p : ptr) : Prop :=
  ∀ n x nx, nodes w !! p = Some n → nodes w !! x = Some nx →
            children nx = children n → x = p.

(** The node objects that hold the same children map are the successive
    copies [ReplaceOrInsert] made of one node; only the latest is an entry of
    a map.  They agree on [code], [parent] and [depth]; the entry is
    terminating only if its older copies are; the [parent] of an entry holds
    the map the entry is in. *)
Record linked (w : World V) : Prop := {
  link_root :
    ∃ n0, nodes w !! 0%nat = Some n0 ∧ parent n0 = None
          ∧ children n0 = Some 0%nat ∧ depth n0 = 0;
  link_parent : ∀ a m c q nq,
    maps w !! a = Some m → m !! c = Some q → nodes w !! q = Some nq →
    ∃ pp npp, parent nq = Some pp ∧ nodes w !! pp = Some npp
              ∧ children npp = Some a ∧ depth nq = depth npp + 1;
  link_unique : ∀ a1 m1 c1 q1 n1 a2 m2 c2 q2 n2,
    maps w !! a1 = Some m1 → m1 !! c1 = Some q1 → nodes w !! q1 = Some n1 →
    maps w !! a2 = Some m2 → m2 !! c2 = Some q2 → nodes w !! q2 = Some n2 →
    children n1 = children n2 → a1 = a2 ∧ c1 = c2;
  link_version : ∀ x nx y ny,
    nodes w !! x = Some nx → nodes w !! y = Some ny →
    children nx = children ny →
    code nx = code ny ∧ parent nx = parent ny ∧ depth nx = depth ny;
  link_term : ∀ a m c q nq x nx,
    maps w !! a = Some m → m !! c = Some q → nodes w !! q = Some nq →
    nodes w !! x = Some nx → children nx = children nq →
    term nq = true → term nx = true;
}.

(** What [Find] returns for a stored key: a copy of the node. *)
Definition snapshot (n : Node V) : Node V :=
  mkNode (code n) (term n) (depth n) (value n) (parent n) None.

End Links.

Section Paths.
Context {V : Type}.

(** The node, if any, that the code points [path] lead to from the root. *)
Definition walk (w : World V) (path : list Z) : result (option ptr) :=
  findNode w (Some (root (trie w))) path.

(** What [Find] reports for a key with the code points [path]: the copy of
    the node at the end of [path], when that node ends a key. *)
Definition found_at (w : World V) (path : list Z) : option (Node V) :=
  match walk w path with
  | Ok (Some q) =>
    match nodes w !! q with
    | Some n => if term n then Some (snapshot n) else None
    | None => None
    end
  | _ => None
  end.

(** [w'] keeps the node objects of [w], up to their [value] and [term], and
    its map objects, but for the map at [a]. *)
Definition keeps_nodes (w w' : World V) : Prop :=
  ∀ p (n : Node V), nodes w !! p = Some n →
    ∃ n', nodes w' !! p = Some n' ∧ children n' = children n.
Definition keeps_maps_but (w w' : World V) (a : option nat) : Prop :=
  ∀ b mb, maps w !! b = Some mb → Some b ≠ a → maps w' !! b = Some mb.

(** From [w] to [w'] the paths lead where they led, or a path that led
    nowhere now leads to a new node that ends no key. *)
Definition adds_walks (w w' : World V) : Prop :=
  ∀ s, walk w' s = walk w s
       ∨ (walk w s = Ok None
          ∧ ∃ q nq, walk w' s = Ok (Some q) ∧ nodes w' !! q = Some nq
                    ∧ term nq = false ∧ (length (nodes w) ≤ q)%nat).

(** From [w] to [w'] the paths lead where they led, or a path that led to a
    node that ends no key now leads nowhere. *)
Definition drops_walks (w w' : World V) : Prop :=
  ∀ s, walk w' s = walk w s
       ∨ (walk w' s = Ok None
          ∧ ∃ q nq, walk w s = Ok (Some q) ∧ nodes w !! q = Some nq
                    ∧ term nq = false).

(** [size] is the number of paths that end a key. *)
Definition counted (w : World V) : Prop :=
  ∀ paths, NoDup paths → (∀ s, s ∈ paths ↔ is_Some (found_at w s)) →
           size (trie w) = Z.of_nat (length paths).

End Paths.

(** ** Calls of an iterator *)

Section Calls.
Context {V S : Type}.

(** The value [Find] reports for a key; nil when it reports none. *)
Definition found_value (w : World V) (key : list byte) : option V :=
  match Find w key with
  | Ok (Some n, _) => Value n
  | _ => None
  end.

(** The state after [iter] is called on [key] with the value of [key]. *)
Definition call_on (iter : NodeIterator V S) (w : World V) (s : S)
    (key : list byte) : S :=
  (iter key (found_value w key) s).2.

End Calls.

(** ** ByRune

    [type ByRune []rune] with the three methods of [sort.Interface].  The
    slice is the list of its elements; [Swap] writes through the slice, so
    it returns the list after the call. *)

Module ByRune.

(** [a[i]]: an index out of range panics. *)
Definition index (a : list Z) (i : Z) : result Z :=
  if i <? 0 then Panic
  else match a !! Z.to_nat i with
       | Some x => Ok x
       | None => Panic
       end.

Definition Len (a : list Z) : Z := Z.of_nat (length a).

(** [a[i], a[j] = a[j], a[i]]: both elements are read, then [a[i]] and
    [a[j]] are written, in this order. *)
Definition Swap (a : list Z) (i j : Z) : result (list Z) :=
  match index a i, index a j with
  | Ok x, Ok y => Ok (<[Z.to_nat j := x]> (<[Z.to_nat i := y]> a))
  | _, _ => Panic
  end.

Definition Less (a : list Z) (i j : Z) : result bool :=
  match index a i, index a j with
  | Ok x, Ok y => Ok (x <? y)
  | _, _ => Panic
  end.

End ByRune.

(** * Properties *)

Import Scenarios.

(** ** Bytes *)

Lemma b2z_range b : 0 ≤ b2z b < 256.
Proof.
  unfold b2z. pose proof (Byte.to_N_bounded b). lia.
Qed.

Lemma z2b_b2z b : z2b (b2z b) = b.
Proof.
  unfold z2b. pose proof (b2z_range b) as Hb.
  rewrite Z.mod_small by lia. unfold b2z. rewrite N2Z.id.
  by rewrite Byte.of_to_N.
Qed.

Lemma b2z_z2b z : b2z (z2b z) = z mod 256.
Proof.
  unfold z2b, b2z.
  assert (0 ≤ z mod 256 < 256) as Hm by (apply Z.mod_pos_bound; lia).
  destruct (Byte.of_N (Z.to_N (z mod 256))) as [b |] eqn:Hof.
  - apply Byte.to_of_N in Hof. rewrite Hof. lia.
  - apply Byte.of_N_None_iff in Hof. lia.
Qed.

Lemma b2z_inj a b : b2z a = b2z b → a = b.
Proof. intros H. rewrite <- (z2b_b2z a), <- (z2b_b2z b). by rewrite H. Qed.

(** ** Bit operations as arithmetic *)

Lemma lor_disjoint a b k :
  0 ≤ k → a mod 2 ^ k = 0 → 0 ≤ b < 2 ^ k → Z.lor a b = a + b.
Proof.
  intros Hk Ha Hb.
  assert (Z.land a b = 0) as Hland.
  { apply Z.bits_inj'. intros n Hn. rewrite Z.land_spec, Z.bits_0.
    destruct (Z.lt_ge_cases n k) as [Hlt | Hge].
    - rewrite <- (Z.mod_pow2_bits_low a k n) by lia. rewrite Ha, Z.bits_0. done.
    - rewrite <- (Z.mod_small b (2 ^ k)) by lia.
      rewrite Z.mod_pow2_bits_high by lia. apply andb_false_r. }
  rewrite <- Z.lxor_lor by done. symmetry. by apply Z.add_nocarry_lxor.
Qed.
(** ** [DecodeRune] and [EncodeRune] against the table *)

Ltac divmod := Z.div_mod_to_equations; lia.

Section Codec.
Import utf8.

Lemma first_cases x :
  0 ≤ x < 256 →
  (x < 0x80 ∧ first x = as_)
  ∨ ((0x80 ≤ x < 0xC2 ∨ 0xF5 ≤ x) ∧ first x = xx)
  ∨ (0xC2 ≤ x < 0xE0 ∧ first x = s1)
  ∨ (x = 0xE0 ∧ first x = s2)
  ∨ ((0xE1 ≤ x < 0xED ∨ 0xEE ≤ x < 0xF0) ∧ first x = s3)
  ∨ (x = 0xED ∧ first x = s4)
  ∨ (x = 0xF0 ∧ first x = s5)
  ∨ (0xF1 ≤ x < 0xF4 ∧ first x = s6)
  ∨ (x = 0xF4 ∧ first x = s7).
Proof.
  intros Hx. unfold first.
  repeat match goal with
  | |- context [?a <? ?b] => destruct (Z.ltb_spec a b)
  | |- context [?a =? ?b] => destruct (Z.eqb_spec a b)
  end; lia.
Qed.



Lemma land_low a k : 0 ≤ k → Z.land a (2 ^ k - 1) = a mod 2 ^ k.
Proof.
  intros Hk. rewrite <- Z.land_ones by done. f_equal.
  rewrite Z.ones_equiv. lia.
Qed.

Lemma land_maskx b : Z.land b maskx = b mod 64.
Proof. exact (land_low b 6 ltac:(lia)). Qed.
Lemma land_mask2 b : Z.land b mask2 = b mod 32.
Proof. exact (land_low b 5 ltac:(lia)). Qed.
Lemma land_mask3 b : Z.land b mask3 = b mod 16.
Proof. exact (land_low b 4 ltac:(lia)). Qed.
Lemma land_mask4 b : Z.land b mask4 = b mod 8.
Proof. exact (land_low b 3 ltac:(lia)). Qed.

Lemma lor_shiftl a b k :
  0 ≤ k → 0 ≤ b < 2 ^ k → Z.lor (a ≪ k) b = a * 2 ^ k + b.
Proof.
  intros Hk Hb. rewrite Z.shiftl_mul_pow2 by done.
  apply (lor_disjoint _ _ k); [done | | done].
  apply Z.mod_mul. lia.
Qed.

Lemma decode2_arith x0 b1 :
  Z.lor (Z.land x0 mask2 ≪ 6) (Z.land b1 maskx) = rune2 x0 b1.
Proof.
  unfold rune2. rewrite land_mask2, land_maskx.
  rewrite (lor_shiftl _ _ 6) by (pose proof (Z.mod_pos_bound b1 64); lia).
  lia.
Qed.

Lemma decode3_arith x0 b1 b2 :
  Z.lor (Z.lor (Z.land x0 mask3 ≪ 12) (Z.land b1 maskx ≪ 6)) (Z.land b2 maskx)
  = rune3 x0 b1 b2.
Proof.
  unfold rune3. rewrite land_mask3, !land_maskx.
  pose proof (Z.mod_pos_bound b1 64). pose proof (Z.mod_pos_bound b2 64).
  rewrite (Z.shiftl_mul_pow2 (b1 mod 64)) by lia.
  rewrite (lor_shiftl _ _ 12) by lia.
  replace (x0 mod 16 * 2 ^ 12 + b1 mod 64 * 2 ^ 6)
    with ((x0 mod 16 * 2 ^ 6 + b1 mod 64) * 2 ^ 6) by lia.
  rewrite <- Z.shiftl_mul_pow2 by lia.
  rewrite (lor_shiftl _ _ 6) by lia. lia.
Qed.

Lemma decode4_arith x0 b1 b2 b3 :
  Z.lor (Z.lor (Z.lor (Z.land x0 mask4 ≪ 18) (Z.land b1 maskx ≪ 12))
               (Z.land b2 maskx ≪ 6)) (Z.land b3 maskx)
  = rune4 x0 b1 b2 b3.
Proof.
  unfold rune4. rewrite land_mask4, !land_maskx.
  pose proof (Z.mod_pos_bound b1 64). pose proof (Z.mod_pos_bound b2 64).
  pose proof (Z.mod_pos_bound b3 64).
  rewrite (Z.shiftl_mul_pow2 (b1 mod 64)), (Z.shiftl_mul_pow2 (b2 mod 64)) by lia.
  rewrite (lor_shiftl _ _ 18) by lia.
  replace (x0 mod 8 * 2 ^ 18 + b1 mod 64 * 2 ^ 12)
    with ((x0 mod 8 * 2 ^ 6 + b1 mod 64) * 2 ^ 12) by lia.
  rewrite <- Z.shiftl_mul_pow2 by lia.
  rewrite (lor_shiftl _ _ 12) by lia.
  replace ((x0 mod 8 * 2 ^ 6 + b1 mod 64) * 2 ^ 12 + b2 mod 64 * 2 ^ 6)
    with (((x0 mod 8 * 2 ^ 6 + b1 mod 64) * 2 ^ 6 + b2 mod 64) * 2 ^ 6) by lia.
  rewrite <- Z.shiftl_mul_pow2 by lia.
  rewrite (lor_shiftl _ _ 6) by lia. lia.
Qed.

Ltac closed_step :=
  match goal with
  | |- context [as_ <=? ?s] =>
      let v := eval vm_compute in (as_ <=? s) in change (as_ <=? s) with v
  | |- context [?s =? xx] =>
      let v := eval vm_compute in (s =? xx) in change (s =? xx) with v
  | |- context [acceptRanges (?s ≫ 4)] =>
      let v := eval vm_compute in (acceptRanges (s ≫ 4)) in
      change (acceptRanges (s ≫ 4)) with v
  | |- context [Z.land ?s 7] =>
      let v := eval vm_compute in (Z.land s 7) in change (Z.land s 7) with v
  | |- context [2 <=? 2] => change (2 <=? 2) with true
  | |- context [3 <=? 2] => change (3 <=? 2) with false
  | |- context [3 <=? 3] => change (3 <=? 3) with true
  | |- context [4 <=? 2] => change (4 <=? 2) with false
  | |- context [4 <=? 3] => change (4 <=? 3) with false
  end.

Ltac split_tests :=
  repeat match goal with
  | |- context [?a <? ?b] => destruct (Z.ltb_spec a b)
  | |- context [match ?p with [] => _ | _ :: _ => _ end] => destruct p
  end; cbn [orb length].

Lemma DecodeRune_shape p r n :
  DecodeRune p = (r, n) →
  (r = RuneError ∧ n = Nat.min 1 (length p)) ∨ utf8_first p r n.
Proof.
  destruct p as [| c0 p1]; [intros [= <- <-]; left; split; reflexivity |].
  pose proof (b2z_range c0) as R0.
  unfold DecodeRune. cbv zeta.
  destruct (first_cases (b2z c0) R0)
    as [[H F] | [[H F] | [[H F] | [[H F] | [[H F] | [[H F] | [[H F] | [[H F] | [H F]]]]]]]]];
    rewrite F; repeat closed_step; cbv iota beta; unfold locb, hicb;
    split_tests; intros [= <- <-];
    rewrite ?decode2_arith, ?decode3_arith, ?decode4_arith;
    first [ left; split; reflexivity
          | right; constructor; unfold second, cont; lia ].
Qed.

Lemma utf8_first_DecodeRune p r n :
  utf8_first p r n → DecodeRune p = (r, n).
Proof.
  intros Hs.
  inversion Hs as [c0 p1 H0 | c0 c1 p1 H0 H1 | c0 c1 c2 p1 H0 H1 H2
                  | c0 c1 c2 c3 p1 H0 H1 H2 H3]; subst;
    pose proof (b2z_range c0) as R0;
    unfold second, cont in *;
    unfold DecodeRune; cbv zeta;
    (destruct (first_cases (b2z c0) R0)
      as [[H F] | [[H F] | [[H F] | [[H F] | [[H F] | [[H F] | [[H F] | [[H F] | [H F]]]]]]]]];
     try lia);
    rewrite F; repeat closed_step; cbv iota beta; unfold locb, hicb;
    split_tests; cbn [length] in *;
    rewrite ?decode2_arith, ?decode3_arith, ?decode4_arith;
    first [reflexivity | lia].
Qed.


Lemma enc_lead t v k :
  0 ≤ k ≤ 8 → t mod 2 ^ k = 0 → 0 ≤ v < 2 ^ k →
  Z.lor t (b2z (z2b v)) = t + v.
Proof.
  intros Hk Ht Hv. rewrite b2z_z2b.
  assert (2 ^ k ≤ 2 ^ 8) by (apply Z.pow_le_mono_r; lia).
  rewrite Z.mod_small by lia. apply (lor_disjoint _ _ k); [lia | done | done].
Qed.

Lemma enc_cont v : Z.lor tx (Z.land (b2z (z2b v)) maskx) = 0x80 + v mod 64.
Proof.
  rewrite b2z_z2b, land_maskx.
  pose proof (Z.mod_pos_bound v 64).
  rewrite (lor_disjoint tx _ 6); [unfold tx; divmod | lia | reflexivity |].
  change (2 ^ 6) with 64. divmod.
Qed.

Lemma encoding_arith r :
  scalar r →
  encoding r =
    if r <=? 0x7F then [z2b r]
    else if r <=? 0x7FF then [z2b (0xC0 + r / 64); z2b (0x80 + r mod 64)]
    else if r <=? 0xFFFF then
      [z2b (0xE0 + r / 4096); z2b (0x80 + (r / 64) mod 64); z2b (0x80 + r mod 64)]
    else
      [z2b (0xF0 + r / 262144); z2b (0x80 + (r / 4096) mod 64);
       z2b (0x80 + (r / 64) mod 64); z2b (0x80 + r mod 64)].
Proof.
  intros [Hr Hs]. unfold MaxRune, surrogateMin, surrogateMax in *.
  unfold encoding, enc3. cbv zeta.
  rewrite (Z.mod_small r (2 ^ 32)) by lia.
  unfold rune1Max, rune2Max, rune3Max, MaxRune, surrogateMin, surrogateMax.
  rewrite !enc_cont, !Z.shiftr_div_pow2 by lia.
  repeat match goal with
  | |- context [?a <=? ?b] => destruct (Z.leb_spec a b)
  | |- context [?a <? ?b] => destruct (Z.ltb_spec a b)
  end; cbn [orb andb]; try lia; try reflexivity.
  all: first [ rewrite (enc_lead t2 _ 5) | rewrite (enc_lead t3 _ 4)
             | rewrite (enc_lead t4 _ 3) ];
    [reflexivity | lia | reflexivity | divmod].
Qed.

Lemma utf8_first_encoding p r n :
  utf8_first p r n →
  scalar r ∧ encoding r = take n p ∧ RuneLen r = Z.of_nat n.
Proof.
  intros Hs.
  assert (scalar r ∧
          (if r <=? 0x7F then [z2b r]
           else if r <=? 0x7FF then [z2b (0xC0 + r / 64); z2b (0x80 + r mod 64)]
           else if r <=? 0xFFFF then
             [z2b (0xE0 + r / 4096); z2b (0x80 + (r / 64) mod 64);
              z2b (0x80 + r mod 64)]
           else
             [z2b (0xF0 + r / 262144); z2b (0x80 + (r / 4096) mod 64);
              z2b (0x80 + (r / 64) mod 64); z2b (0x80 + r mod 64)]) = take n p
          ∧ RuneLen r = Z.of_nat n) as (Hsc & Henc & Hlen);
    [| by rewrite encoding_arith].
  unfold scalar, RuneLen, MaxRune, surrogateMin, surrogateMax, rune1Max,
    rune2Max, rune3Max.
  inversion Hs as [c0 p1 H0 | c0 c1 p1 H0 H1 | c0 c1 c2 p1 H0 H1 H2
                  | c0 c1 c2 c3 p1 H0 H1 H2 H3]; subst;
    unfold second, cont, rune2, rune3, rune4 in *; cbn [take];
    repeat match goal with
    | c : byte |- _ =>
        lazymatch goal with
        | _ : 0 ≤ b2z c < 256 |- _ => fail
        | _ => pose proof (b2z_range c)
        end
    end;
    repeat match goal with
    | |- context [?a <=? ?b] => destruct (Z.leb_spec a b)
    | |- context [?a <? ?b] => destruct (Z.ltb_spec a b)
    end; cbn [andb]; try (exfalso; divmod);
    (split; [divmod |]); (split; [| lia]);
    repeat (f_equal; try (etrans; [| apply z2b_b2z]; f_equal; divmod)).
Qed.

Lemma utf8_first_eq p r r' n : utf8_first p r' n → r = r' → utf8_first p r n.
Proof. by intros H ->. Qed.

Lemma encoding_utf8_first r rest :
  scalar r → utf8_first (encoding r ++ rest) r (length (encoding r)).
Proof.
  intros Hsc. rewrite (encoding_arith r Hsc).
  destruct Hsc as [Hr Hs]. unfold MaxRune, surrogateMin, surrogateMax in *.
  repeat match goal with
  | |- context [?a <=? ?b] => destruct (Z.leb_spec a b)
  end; cbn [app length].
  - eapply utf8_first_eq; [constructor |]; rewrite !b2z_z2b; divmod.
  - eapply utf8_first_eq; [constructor |]; unfold cont, rune2;
      rewrite !b2z_z2b; divmod.
  - eapply utf8_first_eq; [constructor |]; unfold second, cont, rune3;
      rewrite !b2z_z2b; divmod.
  - eapply utf8_first_eq; [constructor |]; unfold second, cont, rune4;
      rewrite !b2z_z2b; divmod.
Qed.

End Codec.

(** ** Decoding a whole key *)

Lemma utf8_first_width p r n : utf8_first p r n → (1 ≤ n ≤ length p)%nat.
Proof. destruct 1; cbn [length]; lia. Qed.

Lemma DecodeRune_width p r n :
  p ≠ [] → utf8.DecodeRune p = (r, n) → (1 ≤ n ≤ length p)%nat.
Proof.
  intros Hp Hd. destruct (DecodeRune_shape p r n Hd) as [[_ ->] | Hs].
  - destruct p; [done | cbn [length]; lia].
  - by apply (utf8_first_width p r).
Qed.

Lemma DecodeRune_storable p r n :
  utf8.DecodeRune p = (r, n) → r ≠ utf8.RuneError →
  storable r ∧ utf8.encoding r = take n p ∧ utf8.RuneLen r = Z.of_nat n
  ∧ (1 ≤ n ≤ length p)%nat.
Proof.
  intros Hd Hr. destruct (DecodeRune_shape p r n Hd) as [[-> _] | Hs]; [done |].
  destruct (utf8_first_encoding p r n Hs) as (Hsc & Henc & Hlen).
  split; [by split |]. split; [done |]. split; [done |].
  by apply (utf8_first_width p r n).
Qed.

Lemma DecodeRune_encoding r rest :
  scalar r →
  utf8.DecodeRune (utf8.encoding r ++ rest) = (r, length (utf8.encoding r))
  ∧ (1 ≤ length (utf8.encoding r))%nat
  ∧ utf8.RuneLen r = Z.of_nat (length (utf8.encoding r)).
Proof.
  intros Hsc. pose proof (encoding_utf8_first r rest Hsc) as Hs.
  split; [by apply utf8_first_DecodeRune |].
  split; [by apply (utf8_first_width _ _ _ Hs) |].
  by apply (utf8_first_encoding _ _ _ Hs).
Qed.

Lemma decodes_inj p rs1 rs2 : decodes p rs1 → decodes p rs2 → rs1 = rs2.
Proof.
  intros H1. revert rs2.
  induction H1 as [| p e n rs Hp Hd He _ IH]; intros rs2 H2.
  - by inversion H2.
  - inversion H2 as [| p' e' n' rs' Hp' Hd' He' Hrest]; subst; [done |].
    rewrite Hd in Hd'. injection Hd' as <- <-. f_equal. by apply IH.
Qed.

Lemma decodes_text p rs :
  decodes p rs → utf8_text rs = p ∧ Forall storable rs.
Proof.
  induction 1 as [| p e n rs Hp Hd He _ [IHt IHs]]; [done |].
  destruct (DecodeRune_storable p e n Hd He) as (Hst & Henc & _ & Hn).
  split; [| by constructor].
  unfold utf8_text in *. cbn [map concat]. rewrite Henc, IHt.
  apply take_drop.
Qed.

Lemma text_decodes rs :
  Forall storable rs → decodes (utf8_text rs) rs.
Proof.
  induction 1 as [| r rs [Hsc Hne] _ IH]; [constructor |].
  destruct (DecodeRune_encoding r (utf8_text rs) Hsc) as (Hd & Hlen & _).
  unfold utf8_text in *. cbn [map concat].
  apply (decodes_cons _ r (length (utf8.encoding r))); [| done | done |].
  - destruct (utf8.encoding r); [cbn in Hlen; lia | done].
  - by rewrite drop_app_length.
Qed.

Lemma decodes_dec p : (∃ rs, decodes p rs) ∨ (∀ rs, ¬ decodes p rs).
Proof.
  remember (length p) as k eqn:Hk.
  revert p Hk. induction (lt_wf k) as [k _ IH]. intros p ->.
  destruct p as [| c p']; [left; eexists; constructor |].
  destruct (utf8.DecodeRune (c :: p')) as [e n] eqn:Hd.
  destruct (decide (e = utf8.RuneError)) as [-> | He].
  { right. intros rs Hrs. inversion Hrs; subst. congruence. }
  assert (1 ≤ n ≤ length (c :: p'))%nat as Hn
    by (by apply (DecodeRune_width (c :: p') e n)).
  destruct (IH (length (drop n (c :: p'))) ltac:(rewrite length_drop; lia)
              (drop n (c :: p')) eq_refl) as [[rs Hrs] | Hno].
  - left. exists (e :: rs). by apply (decodes_cons _ e n).
  - right. intros rs Hrs. inversion Hrs as [| ? e' n' rs' _ Hd' _ Hrest]; subst.
    rewrite Hd in Hd'. injection Hd' as <- <-. by apply (Hno rs').
Qed.

Lemma parse_loop_decodes rest rs :
  decodes rest rs →
  ∀ fuel acc, (length rest ≤ fuel)%nat →
  parse_loop fuel rest acc = acc ++ rs.
Proof.
  induction 1 as [| p e n rs Hp Hd He _ IH]; intros fuel acc Hfuel.
  - destruct fuel; cbn; by rewrite app_nil_r.
  - pose proof (DecodeRune_width p e n Hp Hd) as Hn.
    destruct p as [| c p']; [done |].
    destruct fuel as [| fuel]; [cbn in Hfuel; lia |].
    cbn [parse_loop]. rewrite Hd.
    destruct (Z.eqb_spec e utf8.RuneError) as [| _]; [done |].
    rewrite IH by (rewrite length_drop; cbn [length] in *; lia).
    by rewrite <- app_assoc.
Qed.

Lemma parse_loop_reject fuel :
  ∀ rest acc, (∀ rs, ¬ decodes rest rs) → (length rest ≤ fuel)%nat →
  parse_loop fuel rest acc = [].
Proof.
  induction fuel as [| fuel IH]; intros rest acc Hno Hfuel.
  - destruct rest; [| done]. exfalso. apply (Hno []). constructor.
  - destruct rest as [| c p']; [exfalso; apply (Hno []); constructor |].
    cbn [parse_loop]. destruct (utf8.DecodeRune (c :: p')) as [e n] eqn:Hd.
    destruct (Z.eqb_spec e utf8.RuneError) as [| He]; [done |].
    assert (1 ≤ n ≤ length (c :: p'))%nat as Hn
    by (by apply (DecodeRune_width (c :: p') e n)).
    apply IH; [| rewrite length_drop; cbn [length] in *; lia].
    intros rs Hrs. apply (Hno (e :: rs)). by apply (decodes_cons _ e n).
Qed.

Lemma parseTextToRunes_decodes key rs :
  decodes key rs → parseTextToRunes key = rs.
Proof.
  intros Hd. destruct key as [| c key']; [by inversion Hd |].
  unfold parseTextToRunes. by rewrite (parse_loop_decodes _ rs Hd).
Qed.

Lemma parseTextToRunes_reject key :
  (∀ rs, ¬ decodes key rs) → parseTextToRunes key = [].
Proof.
  intros Hno. destruct key as [| c key']; [done |].
  unfold parseTextToRunes. by apply parse_loop_reject.
Qed.

(** ** Encoding a path *)

Lemma length_utf8_text_cons r rs :
  length (utf8_text (r :: rs)) = (length (utf8.encoding r) + length (utf8_text rs))%nat.
Proof. unfold utf8_text. cbn [map concat]. by rewrite length_app. Qed.

Lemma encode_loop_text rs :
  Forall scalar rs →
  ∀ key offset,
    (offset + length (utf8_text rs) ≤ length key)%nat →
    encode_loop rs key offset
    = Ok (take offset key ++ utf8_text rs
          ++ drop (offset + length (utf8_text rs)) key).
Proof.
  induction 1 as [| r rs Hsc _ IH]; intros key offset Hlen.
  - cbn. rewrite Nat.add_0_r. by rewrite take_drop.
  - rewrite length_utf8_text_cons in Hlen.
    cbn [encode_loop].
    destruct (Nat.ltb_spec (length key) offset) as [| _]; [lia |].
    unfold utf8.EncodeRune. rewrite length_drop.
    destruct (Nat.ltb_spec (length key - offset) (length (utf8.encoding r)))
      as [| _]; [lia |].
    rewrite drop_drop.
    set (e := utf8.encoding r) in *. set (t := utf8_text rs) in *.
    rewrite IH.
    2:{ rewrite !length_app, length_take, length_drop. lia. }
    f_equal. rewrite length_utf8_text_cons. fold e t.
    assert (length (take offset key) = offset) as Hto
      by (rewrite length_take; lia).
    rewrite (take_app_ge (take offset key)) by lia.
    rewrite Hto.
    replace (offset + length e - offset)%nat with (length e) by lia.
    rewrite (take_app_length' e) by done.
    rewrite (drop_app_ge (take offset key)) by lia. rewrite Hto.
    replace (offset + length e + length t - offset)%nat
      with (length e + length t)%nat by lia.
    rewrite (drop_app_ge e) by lia.
    rewrite drop_drop.
    replace (offset + length e + (length e + length t - length e))%nat
      with (offset + (length e + length t))%nat by lia.
    change (utf8_text (r :: rs)) with (e ++ t).
    by rewrite <- !app_assoc.
Qed.

Lemma RuneLen_sum rs :
  Forall scalar rs →
  ∀ l0, fold_left (λ l r, l + utf8.RuneLen r) rs l0
        = l0 + Z.of_nat (length (utf8_text rs)).
Proof.
  induction 1 as [| r rs Hsc _ IH]; intros l0; [cbn; lia |].
  cbn [fold_left]. rewrite IH, length_utf8_text_cons.
  destruct (DecodeRune_encoding r [] Hsc) as (_ & _ & ->). lia.
Qed.

Lemma parseRunesToText_scalar rs :
  Forall scalar rs → parseRunesToText rs = Ok (utf8_text rs).
Proof.
  intros Hrs. unfold parseRunesToText. rewrite (RuneLen_sum rs Hrs).
  destruct (Z.ltb_spec (0 + Z.of_nat (length (utf8_text rs))) 0) as [| _]; [lia |].
  rewrite (encode_loop_text rs Hrs).
  2:{ rewrite length_replicate. lia. }
  cbn [take app]. rewrite drop_ge; [by rewrite app_nil_r |].
  rewrite length_replicate. lia.
Qed.


(** Closed goals are settled by running the model. *)
Ltac by_running := vm_compute; reflexivity.

(** ** Worlds built by the operations are well formed *)

Section Shape_preserved.
Context {V : Type}.
Implicit Types (w : World V).

Lemma lookup_snoc_Some {A} (l : list A) (x y : A) (i : nat) :
  (l ++ [x]) !! i = Some y →
  l !! i = Some y ∨ (i = length l ∧ y = x).
Proof.
  rewrite lookup_app_Some. intros [? | [Hi Hx]]; [by left | right].
  destruct (i - length l)%nat as [| k] eqn:Hk; cbn in Hx; [| done].
  split; [lia | congruence].
Qed.

Lemma lookup_snoc_old {A} (l : list A) (x y : A) (i : nat) :
  l !! i = Some y → (l ++ [x]) !! i = Some y.
Proof. intros H. by apply lookup_app_l_Some. Qed.

Lemma lookup_snoc_new {A} (l : list A) (x : A) :
  (l ++ [x]) !! length l = Some x.
Proof. by rewrite lookup_app_r, Nat.sub_diag. Qed.

Lemma wf_NewTrie : wf (V:=V) NewTrie.
Proof.
  constructor; cbn.
  - split; [done |]. eexists. by split.
  - lia.
  - intros [| p] n Hn; [| done]. injection Hn as <-. exists 0%nat. cbn. split; [done | lia].
  - intros [| p] n q Hn; [| done]. injection Hn as <-. done.
  - intros [| a] m c q Hm; [| done]. injection Hm as <-. by rewrite lookup_empty.
Qed.

Lemma wf_size w d :
  wf w → wf (mkWorld (nodes w) (maps w) (mkTrie (root (trie w)) (size (trie w) + d))).
Proof. intros [H1 H2 H3 H4 H5]. by constructor. Qed.

Lemma wf_store w p (n n' : Node V) :
  wf w → nodes w !! p = Some n →
  code n' = code n → children n' = children n → parent n' = parent n →
  (p = 0%nat → term n' = false) →
  wf (mkWorld (<[p := n']> (nodes w)) (maps w) (trie w)).
Proof.
  intros [[Hr (n0 & Hn0 & Ht0)] Hcnt Hch Hpar Hent] Hp Hcode Hchild Hparent Hroot.
  pose proof (lookup_lt_Some _ _ _ Hp) as Hlt.
  assert (∀ i x, (<[p := n']> (nodes w)) !! i = Some x →
                 ∃ x0, nodes w !! i = Some x0 ∧ code x = code x0
                       ∧ children x = children x0 ∧ parent x = parent x0) as Hold.
  { intros i x. rewrite list_lookup_insert_Some.
    intros [(<- & <- & _) | [_ Hi]]; [by exists n | by exists x]. }
  assert (∀ i x0, nodes w !! i = Some x0 →
                  ∃ x, (<[p := n']> (nodes w)) !! i = Some x ∧ code x = code x0
                       ∧ children x = children x0 ∧ parent x = parent x0) as Hnew.
  { intros i x0 Hi. destruct (decide (i = p)) as [-> | Hne].
    - exists n'. rewrite list_lookup_insert_eq by done.
      rewrite Hp in Hi. injection Hi as <-. done.
    - exists x0. by rewrite list_lookup_insert_ne. }
  constructor; cbn [nodes maps trie].
  - split; [done |]. destruct (decide (p = 0%nat)) as [-> | Hne].
    + exists n'. rewrite list_lookup_insert_eq by done. split; [done | by apply Hroot].
    + exists n0. by rewrite list_lookup_insert_ne.
  - by rewrite length_insert.
  - intros i x Hi. destruct (Hold i x Hi) as (x0 & Hx0 & _ & Hc & _).
    rewrite Hc. by apply (Hch i).
  - intros i x q Hi Hq. destruct (Hold i x Hi) as (x0 & Hx0 & _ & Hc & Hpa).
    rewrite Hpa in Hq. destruct (Hpar i x0 q Hx0 Hq) as (Hlt' & nq & a & a' & Hnq & Ha & Ha' & Haa).
    split; [done |]. destruct (Hnew q nq Hnq) as (nq' & Hnq' & _ & Hcq & _).
    exists nq', a, a'. rewrite Hcq, Hc. done.
  - intros a m c q Hm Hq. destruct (Hent a m c q Hm Hq) as (Hst & nq & a' & Hnq & Hcd & Ha' & Haa).
    split; [done |]. destruct (Hnew q nq Hnq) as (nq' & Hnq' & Hcq & Hchq & _).
    exists nq', a'. rewrite Hcq, Hchq. done.
Qed.

Lemma wf_delete w a m c :
  wf w → maps w !! a = Some m →
  wf (mkWorld (nodes w) (<[a := delete c m]> (maps w)) (trie w)).
Proof.
  intros [Hr Hcnt Hch Hpar Hent] Ha.
  constructor; cbn [nodes maps trie]; try done.
  - by rewrite length_insert.
  - intros p n Hn. rewrite length_insert. by apply (Hch p).
  - intros a0 m0 c0 q. rewrite list_lookup_insert_Some.
    intros [(<- & <- & _) | [_ Hm0]] Hq.
    + apply lookup_delete_Some in Hq as [_ Hq]. by apply (Hent a m).
    + by apply (Hent a0 m0).
Qed.

Lemma wf_new_child w (n : ptr) (pn : Node V) a m c v tm :
  wf w → nodes w !! n = Some pn → children pn = Some a →
  maps w !! a = Some m → storable c →
  wf (mkWorld
        (nodes w ++ [mkNode c tm (depth pn + 1) v (Some n) (Some (length (maps w)))])
        (<[a := <[c := length (nodes w)]> m]> (maps w ++ [∅]))
        (trie w)).
Proof.
  intros [[Hr (n0 & Hn0 & Ht0)] Hcnt Hch Hpar Hent] Hn Ha Hm Hc.
  pose proof (lookup_lt_Some _ _ _ Hn) as Hnlt.
  pose proof (lookup_lt_Some _ _ _ Hm) as Halt.
  constructor; cbn [nodes maps trie].
  - split; [done |]. exists n0. split; [by apply lookup_snoc_old | done].
  - rewrite length_insert, !length_app. cbn. lia.
  - intros p x Hp. rewrite length_insert, length_app. cbn [length].
    apply lookup_snoc_Some in Hp as [Hp | [-> ->]].
    + destruct (Hch p x Hp) as (a0 & Ha0 & Hlt). exists a0. split; [done | lia].
    + eexists. split; [reflexivity | lia].
  - intros p x q Hp Hq.
    apply lookup_snoc_Some in Hp as [Hp | [-> ->]].
    + destruct (Hpar p x q Hp Hq) as (Hlt & nq & a0 & a' & Hnq & Ha0 & Ha' & Haa).
      split; [done |]. exists nq, a0, a'. split; [by apply lookup_snoc_old | done].
    + cbn in Hq. injection Hq as <-. split; [done |].
      exists pn, a, (length (maps w)). split; [by apply lookup_snoc_old | done].
  - intros a0 m0 c0 q. rewrite list_lookup_insert_Some.
    intros [(<- & <- & _) | [Hne Hm0]] Hq.
    + apply lookup_insert_Some in Hq as [[<- <-] | [Hcc Hq]].
      * split; [done |]. eexists _, _. split; [apply lookup_snoc_new |].
        cbn. split; [done |]. split; [done | lia].
      * destruct (Hent a m c0 q Hm Hq) as (Hst & nq & a' & Hnq & Hcd & Ha' & Haa).
        split; [done |]. exists nq, a'. split; [by apply lookup_snoc_old | done].
    + apply lookup_snoc_Some in Hm0 as [Hm0 | [-> ->]]; [| by rewrite lookup_empty in Hq].
      destruct (Hent a0 m0 c0 q Hm0 Hq) as (Hst & nq & a' & Hnq & Hcd & Ha' & Haa).
      split; [done |]. exists nq, a'. split; [by apply lookup_snoc_old | done].
Qed.

Lemma wf_replace w pre (npre : Node V) v pp (npp : Node V) app mpp :
  wf w → nodes w !! pre = Some npre → parent npre = Some pp →
  nodes w !! pp = Some npp → children npp = Some app →
  maps w !! app = Some mpp → storable (code npre) →
  wf (mkWorld
        (nodes w ++ [mkNode (code npre) (term npre) (depth npre) v
                            (parent npre) (children npre)])
        (<[app := <[code npre := length (nodes w)]> mpp]> (maps w))
        (trie w)).
Proof.
  intros [[Hr (n0 & Hn0 & Ht0)] Hcnt Hch Hpar Hent] Hpre Hpp Hnpp Happ Hmpp Hst.
  pose proof (lookup_lt_Some _ _ _ Hpre) as Hprelt.
  constructor; cbn [nodes maps trie].
  - split; [done |]. exists n0. split; [by apply lookup_snoc_old | done].
  - rewrite length_insert, length_app. cbn. lia.
  - intros p x Hp. rewrite length_insert.
    apply lookup_snoc_Some in Hp as [Hp | [-> ->]]; [by apply (Hch p) |].
    cbn. by apply (Hch pre).
  - intros p x q Hp Hq.
    apply lookup_snoc_Some in Hp as [Hp | [-> ->]].
    + destruct (Hpar p x q Hp Hq) as (Hlt & nq & a0 & a' & Hnq & Ha0 & Ha' & Haa).
      split; [done |]. exists nq, a0, a'. split; [by apply lookup_snoc_old | done].
    + cbn in Hq.
      destruct (Hpar pre npre q Hpre Hq) as (Hlt & nq & a0 & a' & Hnq & Ha0 & Ha' & Haa).
      split; [lia |]. exists nq, a0, a'. split; [by apply lookup_snoc_old | done].
  - intros a0 m0 c0 q. rewrite list_lookup_insert_Some.
    intros [(<- & <- & _) | [Hne Hm0]] Hq.
    + apply lookup_insert_Some in Hq as [[<- <-] | [Hcc Hq]].
      * split; [done |].
        destruct (Hpar pre npre pp Hpre Hpp) as (_ & nq & a0 & a' & Hnq & Ha0 & Ha' & Haa).
        rewrite Hnpp in Hnq. injection Hnq as <-.
        rewrite Happ in Ha0. injection Ha0 as <-.
        eexists _, a'. split; [apply lookup_snoc_new |]. cbn. done.
      * destruct (Hent app mpp c0 q Hmpp Hq) as (Hst' & nq & a' & Hnq & Hcd & Ha' & Haa).
        split; [done |]. exists nq, a'. split; [by apply lookup_snoc_old | done].
    + destruct (Hent a0 m0 c0 q Hm0 Hq) as (Hst' & nq & a' & Hnq & Hcd & Ha' & Haa).
      split; [done |]. exists nq, a'. split; [by apply lookup_snoc_old | done].
Qed.

Lemma wf_map_of w p (n : Node V) :
  wf w → nodes w !! p = Some n →
  ∃ a m, children n = Some a ∧ maps w !! a = Some m
         ∧ map_of w (children n) = Ok m.
Proof.
  intros Hwf Hp. destruct (wf_children w Hwf p n Hp) as (a & Ha & Hlt).
  destruct (lookup_lt_is_Some_2 (maps w) a Hlt) as [m Hm].
  exists a, m. split; [done |]. split; [done |].
  unfold map_of. rewrite Ha. cbv beta iota. by rewrite Hm.
Qed.

Lemma wf_child w p (n : Node V) m c q :
  wf w → nodes w !! p = Some n → map_of w (children n) = Ok m →
  m !! c = Some q →
  storable c ∧ ∃ nq, nodes w !! q = Some nq ∧ code nq = c.
Proof.
  intros Hwf Hp Hm Hq.
  destruct (wf_map_of w p n Hwf Hp) as (a & m' & Ha & Hm' & Hof).
  rewrite Hm in Hof. injection Hof as <-.
  destruct (wf_entry w Hwf a m c q Hm' Hq) as (Hst & nq & a' & Hnq & Hc & _).
  split; [done |]. by exists nq.
Qed.

Lemma findNode_wf w key :
  wf w → ∀ p, is_Some (nodes w !! p) →
  ∃ r, findNode w (Some p) key = Ok r
       ∧ ∀ q, r = Some q → is_Some (nodes w !! q).
Proof.
  intros Hwf. induction key as [| c key IH]; intros p [n Hn].
  - exists (Some p). split; [done |]. intros q [= <-]. by exists n.
  - cbn [findNode]. rewrite Hn.
    destruct (wf_map_of w p n Hwf Hn) as (a & m & _ & _ & Hof). rewrite Hof.
    destruct (m !! c) as [q |] eqn:Hq; [| by exists None].
    destruct (wf_child w p n m c q Hwf Hn Hof Hq) as (_ & nq & Hnq & _).
    apply IH. by exists nq.
Qed.

(** *** Running the monad *)

Lemma bind_run {A B} (m : M (V:=V) A) (k : A → M B) w a w' :
  m w = Ok (a, w') → bind m k w = k a w'.
Proof. intros H. unfold bind. by rewrite H. Qed.

Lemma load_run w p (n : Node V) : nodes w !! p = Some n → load p w = Ok (n, w).
Proof. intros H. unfold load. by rewrite H. Qed.

Lemma map_read_run w r m : map_of w r = Ok m → map_read r w = Ok (m, w).
Proof. intros H. unfold map_read. by rewrite H. Qed.

Lemma store_run w p (n n' : Node V) :
  nodes w !! p = Some n →
  store p n' w = Ok (tt, mkWorld (<[p := n']> (nodes w)) (maps w) (trie w)).
Proof. intros H. unfold store. by rewrite H. Qed.

Lemma NewChildNode_run w (n : ptr) (pn : Node V) a m c v tm :
  nodes w !! n = Some pn → children pn = Some a → maps w !! a = Some m →
  NewChildNode n c v tm w
  = Ok (length (nodes w),
        mkWorld
          (nodes w ++ [mkNode c tm (depth pn + 1) v (Some n) (Some (length (maps w)))])
          (<[a := <[c := length (nodes w)]> m]> (maps w ++ [∅]))
          (trie w)).
Proof.
  intros Hn Ha Hm. unfold NewChildNode.
  erewrite bind_run by (by apply load_run). cbv beta.
  unfold bind, make_map, new_node, map_assign, ret. cbn [nodes maps trie].
  rewrite Ha. by rewrite (lookup_app_l_Some _ _ _ _ Hm).
Qed.

Lemma ReplaceOrInsertChildNode_run w pp (npp : Node V) app mpp node (nd : Node V) :
  nodes w !! pp = Some npp → nodes w !! node = Some nd →
  children npp = Some app → maps w !! app = Some mpp →
  ReplaceOrInsertChildNode (Some pp) node w
  = Ok (tt, mkWorld (nodes w) (<[app := <[code nd := node]> mpp]> (maps w)) (trie w)).
Proof.
  intros Hpp Hnode Happ Hmpp. unfold ReplaceOrInsertChildNode.
  erewrite bind_run by (by apply load_run). cbv beta.
  erewrite bind_run by (by apply load_run). cbv beta.
  unfold map_assign. by rewrite Happ, Hmpp.
Qed.

Lemma RemoveChild_run w q (nq : Node V) a m c :
  nodes w !! q = Some nq → children nq = Some a → maps w !! a = Some m →
  RemoveChild q c w
  = Ok (tt, mkWorld (nodes w) (<[a := delete c m]> (maps w)) (trie w)).
Proof.
  intros Hq Ha Hm. unfold RemoveChild.
  erewrite bind_run by (by apply load_run). cbv beta.
  unfold map_delete. by rewrite Ha, Hm.
Qed.

Lemma decodes_step p e n :
  p ≠ [] → utf8.DecodeRune p = (e, n) → e ≠ utf8.RuneError →
  (∀ rs, ¬ decodes p rs) ↔ (∀ rs, ¬ decodes (drop n p) rs).
Proof.
  intros Hp Hd He. split; intros Hno rs Hrs.
  - apply (Hno (e :: rs)). by apply (decodes_cons p e n).
  - inversion Hrs as [| ? e' n' rs' _ Hd' _ Hrest]; subst; [done |].
    rewrite Hd in Hd'. injection Hd' as <- <-. by apply (Hno rs').
Qed.

Lemma insert_loop_wf fuel :
  ∀ rest node pre w,
    wf w → is_Some (nodes w !! node) → (length rest ≤ fuel)%nat →
    (∀ q, pre = Some q →
          q = node ∧ ∃ nq, nodes w !! q = Some nq ∧ storable (code nq)) →
    ∃ r w',
      insert_loop fuel rest node pre w = Ok (r, w')
      ∧ wf w' ∧ trie w' = trie w
      ∧ (r = None ↔ ∀ rs, ¬ decodes rest rs)
      ∧ ∀ node' pre', r = Some (node', pre') →
          is_Some (nodes w' !! node')
          ∧ (pre' = None →
             node' ≠ 0%nat ∨ (rest = [] ∧ pre = None ∧ node' = node))
          ∧ (∀ q, pre' = Some q →
                  q = node' ∧ ∃ nq, nodes w' !! q = Some nq ∧ storable (code nq)).
Proof.
  induction fuel as [| fuel IH]; intros rest node pre w Hwf Hnode Hfuel Hpre.
  all: destruct rest as [| c rest'];
    [ exists (Some (node, pre)), w; cbn;
      split; [done |]; split; [done |]; split; [done |];
      split; [ split; [done | intros Hno; exfalso; apply (Hno []); constructor] |];
      intros node' pre' [= <- <-]; split; [done |]; split; [| done];
      intros ->; by right
    | ].
  { cbn in Hfuel. lia. }
  cbn [insert_loop].
  destruct (utf8.DecodeRune (c :: rest')) as [e sz] eqn:Hd.
  destruct (Z.eqb_spec e utf8.RuneError) as [-> | He].
  { exists None, w. split; [done |]. split; [done |]. split; [done |].
    split; [| done]. split; [| done]. intros _ rs Hrs.
    inversion Hrs as [| ? e' n' rs' _ Hd' He' _]; subst. congruence. }
  destruct (DecodeRune_storable _ _ _ Hd He) as (Hst & _ & _ & Hsz).
  assert (length (drop sz (c :: rest')) ≤ fuel)%nat as Hfuel'
    by (rewrite length_drop; cbn [length] in *; lia).
  pose proof (decodes_step (c :: rest') e sz ltac:(done) Hd He) as Hstep.
  destruct Hnode as [nd Hnd].
  destruct (wf_map_of w node nd Hwf Hnd) as (a & m & Ha & Hm & Hof).
  erewrite bind_run by (by apply load_run). cbv beta.
  erewrite bind_run by (by apply map_read_run). cbv beta.
  destruct (m !! e) as [q |] eqn:Hq.
  - destruct (wf_child w node nd m e q Hwf Hnd Hof Hq) as (_ & nq & Hnq & Hcq).
    destruct (IH (drop sz (c :: rest')) q (Some q) w Hwf ltac:(by exists nq) Hfuel')
      as (r & w' & Hrun & Hwf' & Htrie & Hnone & Hsome).
    { intros ? [= <-]. split; [done |]. exists nq. by rewrite Hcq. }
    exists r, w'. split; [done |]. split; [done |]. split; [done |].
    split; [by rewrite Hnone, Hstep |].
    intros node' pre' Hr. destruct (Hsome node' pre' Hr) as (H1 & H2 & H3).
    split; [done |]. split; [| done].
    intros Hp'. destruct (H2 Hp') as [? | (_ & ? & _)]; [by left | done].
  - erewrite bind_run by (by apply (NewChildNode_run w node nd a m)). cbv beta.
    pose proof (wf_new_child w node nd a m e None false Hwf Hnd Ha Hm Hst) as Hwf1.
    match goal with
    | |- ∃ r w', insert_loop _ _ _ _ ?w1 = _ ∧ _ =>
        destruct (IH (drop sz (c :: rest')) (length (nodes w)) None w1 Hwf1)
          as (r & w' & Hrun & Hwf' & Htrie & Hnone & Hsome);
          [ cbn [nodes]; rewrite lookup_snoc_new; by eexists | done | done |]
    end.
    exists r, w'. split; [done |]. split; [done |]. split; [done |].
    split; [by rewrite Hnone, Hstep |].
    intros node' pre' Hr. destruct (Hsome node' pre' Hr) as (H1 & H2 & H3).
    split; [done |]. split; [| done].
    intros Hp'. left. destruct (H2 Hp') as [? | (_ & _ & ->)]; [done |].
    apply lookup_lt_Some in Hnd. lia.
Qed.

Lemma ReplaceOrInsert_wf w key v :
  wf w →
  ReplaceOrInsert key v w = Panic
  ∨ ∃ r w',
      ReplaceOrInsert key v w = Ok (r, w')
      ∧ wf w'
      ∧ ((∀ rs, ¬ decodes key rs) → r = None ∧ trie w' = trie w).
Proof.
  intros Hwf. destruct key as [| c key'].
  { right. exists None, w. split; [done |]. split; [done |]. intros _. by split. }
  unfold ReplaceOrInsert.
  erewrite bind_run by reflexivity. cbv beta.
  destruct (wf_root w Hwf) as (Hroot & n0 & Hn0 & Ht0).
  destruct (insert_loop_wf (length (c :: key')) (c :: key') (root (trie w)) None w Hwf)
    as (r0 & w1 & Hrun & Hwf1 & Htrie & Hnone & Hsome);
    [rewrite Hroot; by exists n0 | done | done |].
  erewrite bind_run by exact Hrun. cbv beta.
  destruct r0 as [[node [pre |]] |].
  - (* the key's node was there already *)
    destruct (Hsome node (Some pre) eq_refl) as (_ & _ & Hpre).
    destruct (Hpre pre eq_refl) as (-> & npre & Hnpre & Hst).
    erewrite bind_run by (by apply load_run). cbv beta.
    erewrite bind_run by reflexivity. cbv beta.
    erewrite bind_run by (apply load_run; apply lookup_snoc_new). cbv beta.
    cbn [parent code].
    destruct (parent npre) as [pp |] eqn:Hpp; [| by left].
    right.
    destruct (wf_parent w1 Hwf1 node npre pp Hnpre Hpp)
      as (_ & npp & app & _ & Hnpp & Happ & _ & _).
    destruct (wf_map_of w1 pp npp Hwf1 Hnpp) as (app' & mpp & Happ' & Hmpp & _).
    rewrite Happ in Happ'. injection Happ' as <-.
    erewrite bind_run
      by (eapply (ReplaceOrInsertChildNode_run _ pp npp app mpp);
          cbn [nodes maps];
          [by apply lookup_snoc_old | apply lookup_snoc_new | done | done]).
    cbv beta. cbn [nodes maps trie code].
    eexists _, _. split; [reflexivity |].
    split; [rewrite <- Hpp; by apply (wf_replace w1 node npre v pp npp app mpp) |].
    intros Hno. apply Hnone in Hno. done.
  - (* new node *)
    right.
    destruct (Hsome node None eq_refl) as ([nd Hnd] & Hne & _).
    destruct (Hne eq_refl) as [Hne0 | (? & _)]; [| done].
    erewrite bind_run by (by apply load_run). cbv beta.
    erewrite bind_run by (by apply (store_run w1 node nd)). cbv beta.
    pose proof (lookup_lt_Some _ _ _ Hnd) as Hlt.
    erewrite bind_run
      by (apply load_run; cbn [nodes]; by apply list_lookup_insert_eq).
    cbv beta.
    erewrite bind_run
      by (eapply store_run; cbn [nodes]; by apply list_lookup_insert_eq).
    cbv beta. cbn [nodes maps trie].
    unfold bind, size_incr, ret. cbn [nodes maps trie].
    eexists _, _. split; [reflexivity |].
    split.
    + rewrite list_insert_insert_eq.
      apply (wf_size (mkWorld _ _ _)).
      by apply (wf_store w1 node nd).
    + intros Hno. apply Hnone in Hno. done.
  - right. exists None, w1. split; [done |]. split; [done |]. intros _. by split.
Qed.

Lemma prune_loop_wf fuel :
  ∀ n w,
    wf w →
    (∀ p, n = Some p → (p < fuel)%nat ∧ is_Some (nodes w !! p)) →
    ∃ w', prune_loop fuel n w = Ok (tt, w')
          ∧ wf w' ∧ trie w' = trie w ∧ nodes w' = nodes w.
Proof.
  induction fuel as [| fuel IH]; intros [p |] w Hwf Hn.
  - destruct (Hn p eq_refl) as [? _]. lia.
  - by exists w.
  - destruct (Hn p eq_refl) as [Hlt [pn Hpn]].
    cbn [prune_loop].
    erewrite bind_run by (by apply load_run). cbv beta.
    destruct (term pn); [by exists w |].
    destruct (wf_map_of w p pn Hwf Hpn) as (a & m & Ha & Hm & Hof).
    erewrite bind_run by (by apply map_read_run). cbv beta.
    destruct (0 <? Z.of_nat (base.size m)); [by exists w |].
    destruct (parent pn) as [q |] eqn:Hq.
    + destruct (wf_parent w Hwf p pn q Hpn Hq)
        as (Hqp & nq & aq & _ & Hnq & Haq & _).
      destruct (wf_map_of w q nq Hwf Hnq) as (aq' & mq & Haq' & Hmq & _).
      rewrite Haq in Haq'. injection Haq' as <-.
      erewrite bind_run by (by apply (RemoveChild_run w q nq aq mq)). cbv beta.
      pose proof (wf_delete w aq mq (code pn) Hwf Hmq) as Hwf1.
      match goal with
      | |- ∃ w', prune_loop _ _ ?w1 = _ ∧ _ =>
          destruct (IH (Some q) w1 Hwf1) as (w' & Hrun & Hwf' & Htrie & Hnodes)
      end.
      { intros ? [= <-]. split; [lia |]. by exists nq. }
      exists w'. by rewrite Hrun.
    + erewrite bind_run by reflexivity. cbv beta.
      exists w. by destruct fuel.
  - by exists w.
Qed.

Lemma Delete_wf w key :
  wf w →
  Delete key w = Panic
  ∨ ∃ r w', Delete key w = Ok (r, w') ∧ wf w'.
Proof.
  intros Hwf. unfold Delete.
  destruct (wf_root w Hwf) as (Hroot & n0 & Hn0 & Ht0).
  destruct (findNode_wf w (parseTextToRunes key) Hwf (root (trie w)))
    as (r & -> & Hr); [rewrite Hroot; by exists n0 |].
  destruct r as [node |]; [right | by left].
  destruct (Hr node eq_refl) as [nd Hnd].
  erewrite bind_run by (by apply load_run). cbv beta.
  destruct (term nd); [| by exists None, w].
  erewrite bind_run by reflexivity. cbv beta.
  pose proof (wf_size w (-1) Hwf) as Hwf1.
  destruct (wf_map_of _ node nd Hwf1 Hnd) as (a & m & Ha & Hm & Hof).
  erewrite bind_run by (by apply map_read_run). cbv beta.
  destruct (0 <? Z.of_nat (base.size m)).
  - erewrite bind_run by (by apply (store_run _ node nd)). cbv beta.
    eexists _, _. split; [reflexivity |].
    by apply (wf_store _ node nd).
  - destruct (parent nd) as [q |] eqn:Hq.
    + destruct (wf_parent _ Hwf1 node nd q Hnd Hq)
        as (Hqp & nq & aq & _ & Hnq & Haq & _).
      destruct (wf_map_of _ q nq Hwf1 Hnq) as (aq' & mq & Haq' & Hmq & _).
      rewrite Haq in Haq'. injection Haq' as <-.
      pose proof (wf_delete _ aq mq (code nd) Hwf1 Hmq) as Hwf2.
      match type of Hwf2 with
      | wf ?w2 =>
          destruct (prune_loop_wf (length (nodes w2)) (Some q) w2 Hwf2)
            as (w' & Hrun & Hwf' & _)
      end.
      { intros ? [= <-]. cbn [nodes]. apply lookup_lt_Some in Hnq as Hlt.
        split; [done | by exists nq]. }
      erewrite bind_run.
      2:{ erewrite bind_run by (by apply (RemoveChild_run _ q nq aq mq)).
          cbv beta. exact Hrun. }
      cbv beta. eexists _, _. split; [reflexivity | done].
    + erewrite bind_run by reflexivity. cbv beta.
      eexists _, _. split; [reflexivity | done].
Qed.

Lemma reachable_wf w : reachable w → wf w.
Proof.
  induction 1 as [| w w' _ IH Hstep]; [apply wf_NewTrie |].
  destruct Hstep as [key v w r w' Hrun | key w r w' Hrun].
  - destruct (ReplaceOrInsert_wf w key v IH) as [Hp | (r' & w'' & Hrun' & Hwf' & _)];
      congruence.
  - destruct (Delete_wf w key IH) as [Hp | (r' & w'' & Hrun' & Hwf')]; congruence.
Qed.

End Shape_preserved.

(** ** The order on code-point sequences *)

Lemma rune_lt_app p a b : rune_lt (p ++ a) (p ++ b) ↔ rune_lt a b.
Proof.
  induction p as [| x p IH]; [done |]. cbn [app rune_lt]. rewrite IH.
  split; [intros [? | [_ ?]]; [lia | done] | intros ?; by right].
Qed.

Lemma rune_lt_extend p c s : rune_lt p (p ++ c :: s).
Proof.
  rewrite <- (app_nil_r p) at 1. by apply rune_lt_app.
Qed.

Lemma rune_lt_branch p c s c' s' :
  c < c' → rune_lt (p ++ c :: s) (p ++ c' :: s').
Proof. intros Hc. apply rune_lt_app. by left. Qed.

Lemma rune_lt_irrefl a : ¬ rune_lt a a.
Proof.
  induction a as [| x a IH]; cbn; [by intros [] |].
  intros [? | [_ ?]]; [lia | done].
Qed.

Lemma rune_lt_trans a b c : rune_lt a b → rune_lt b c → rune_lt a c.
Proof.
  revert b c. induction a as [| x a IH]; intros [| y b] [| z c]; cbn; try done.
  intros [Hxy | [-> Hab]] [Hyz | [-> Hbc]]; [left; lia .. |].
  right. split; [done |]. by apply (IH b).
Qed.

Lemma rune_lt_sorted_NoDup l : StronglySorted rune_lt l → NoDup l.
Proof.
  induction 1 as [| x l _ IH Hx]; constructor; [| done].
  intros Hin. rewrite Forall_forall in Hx. by apply (rune_lt_irrefl x), Hx.
Qed.

Lemma rune_lt_sorted_unique l1 l2 :
  StronglySorted rune_lt l1 → StronglySorted rune_lt l2 →
  (∀ x, x ∈ l1 ↔ x ∈ l2) → l1 = l2.
Proof.
  intros H1 H2 Hel. apply (StronglySorted_unique_strong rune_lt); [| done | done |].
  - intros x1 x2 _ _ H12 H21. destruct (rune_lt_irrefl x1).
    by apply (rune_lt_trans x1 x2).
  - apply NoDup_Permutation; [by apply rune_lt_sorted_NoDup .. | done].
Qed.

(** ** The sorted keys of a children map *)

Lemma le_sorted_NoDup_lt (l : list Z) :
  StronglySorted Z.le l → NoDup l → StronglySorted Z.lt l.
Proof.
  induction 1 as [| x l _ IH Hx]; intros Hnd; [constructor |].
  apply NoDup_cons in Hnd as [Hx' Hnd].
  constructor; [by apply IH |].
  rewrite Forall_forall in *. intros y Hy.
  assert (x ≠ y) by (by intros ->). specialize (Hx y Hy). lia.
Qed.

Lemma sorted_keys_spec (m : gmap Z nat) :
  StronglySorted Z.lt (merge_sort Z.le (map_to_list m).*1)
  ∧ ∀ c, c ∈ merge_sort Z.le (map_to_list m).*1 ↔ is_Some (m !! c).
Proof.
  pose proof (merge_sort_Permutation Z.le (map_to_list m).*1) as Hperm.
  split.
  - apply le_sorted_NoDup_lt; [apply (StronglySorted_merge_sort Z.le) |].
    rewrite Hperm. apply NoDup_fst_map_to_list.
  - intros c. rewrite Hperm, list_elem_of_fmap. split.
    + intros ([c' q] & -> & Hin). apply elem_of_map_to_list in Hin. by exists q.
    + intros [q Hq]. exists (c, q). split; [done |]. by apply elem_of_map_to_list.
Qed.

(** ** The ordered traversal *)

Section Traversal.
Context {V : Type}.
Implicit Types (w : World V).

Lemma ends_key_nil w p (n : Node V) :
  nodes w !! p = Some n → ends_key w p [] ↔ term n = true.
Proof.
  intros Hn. unfold ends_key. cbn. split.
  - intros (q & nq & [= <-] & Hq & Ht). congruence.
  - intros Ht. by exists p, n.
Qed.

Lemma ends_key_cons w p (n : Node V) m c s :
  nodes w !! p = Some n → map_of w (children n) = Ok m →
  ends_key w p (c :: s) ↔ ∃ q, m !! c = Some q ∧ ends_key w q s.
Proof.
  intros Hn Hm. unfold ends_key. cbn [findNode]. rewrite Hn, Hm.
  destruct (m !! c) as [q |]; split.
  - intros H. by exists q.
  - by intros (? & [= <-] & H).
  - by intros (? & ? & ? & _).
  - by intros (? & ? & _).
Qed.

Lemma for_each_children w (m : gmap Z nat) prefix
    (visit : nat → list Z → list (list byte) → result (list (list byte))) :
  (∀ c q, m !! c = Some q →
     ∃ nq, nodes w !! q = Some nq ∧ code nq = c ∧
       ∀ acc, ∃ paths,
         visit q (prefix ++ [c]) acc = Ok (acc ++ (utf8_text <$> paths))
         ∧ StronglySorted rune_lt paths
         ∧ ∀ path, path ∈ paths ↔
             ∃ suffix, path = (prefix ++ [c]) ++ suffix ∧ ends_key w q suffix) →
  ∀ bs, StronglySorted Z.lt bs →
  ∀ acc, ∃ paths,
    for_each bs
      (λ c s,
         match m !! c with
         | Some q =>
           match nodes w !! q with
           | Some nn => visit q (prefix ++ [code nn]) s
           | None => Undef
           end
         | None => Ok s
         end) acc
    = Ok (acc ++ (utf8_text <$> paths))
    ∧ StronglySorted rune_lt paths
    ∧ ∀ path, path ∈ paths ↔
        ∃ c q suffix, c ∈ bs ∧ m !! c = Some q
                      ∧ path = prefix ++ c :: suffix ∧ ends_key w q suffix.
Proof.
  intros Hvisit. induction 1 as [| c bs _ IH Hc]; intros acc.
  { exists []. cbn. rewrite app_nil_r. split; [done |]. split; [constructor |].
    intros path. split; [by intros ?%elem_of_nil |].
    by intros (? & ? & ? & ?%elem_of_nil & _). }
  cbn [for_each]. destruct (m !! c) as [q |] eqn:Hq.
  - destruct (Hvisit c q Hq) as (nq & Hnq & Hcode & Hrun).
    rewrite Hnq, Hcode.
    destruct (Hrun acc) as (P1 & -> & Hs1 & Hin1).
    destruct (IH (acc ++ (utf8_text <$> P1))) as (P2 & -> & Hs2 & Hin2).
    exists (P1 ++ P2). split; [by rewrite fmap_app, app_assoc |]. split.
    + apply StronglySorted_app_2; [| done | done].
      intros x1 x2 (s1 & -> & _)%Hin1 (c2 & q2 & s2 & Hc2 & _ & -> & _)%Hin2.
      rewrite <- app_assoc. cbn [app]. apply rune_lt_branch.
      rewrite Forall_forall in Hc. by apply Hc.
    + intros path. rewrite elem_of_app, Hin1, Hin2. split.
      * intros [(s1 & -> & He) | (c2 & q2 & s2 & Hc2 & Hq2 & -> & He)].
        -- exists c, q, s1. rewrite <- app_assoc. split; [by left | done].
        -- exists c2, q2, s2. split; [by right | done].
      * intros (c2 & q2 & s2 & Hc2 & Hq2 & -> & He).
        apply elem_of_cons in Hc2 as [-> | Hc2].
        -- left. exists s2. rewrite <- app_assoc. rewrite Hq in Hq2.
           injection Hq2 as <-. done.
        -- right. by exists c2, q2, s2.
  - destruct (IH acc) as (P2 & -> & Hs2 & Hin2).
    exists P2. split; [done |]. split; [done |].
    intros path. rewrite Hin2. split.
    + intros (c2 & q2 & s2 & Hc2 & Hrest). exists c2, q2, s2. split; [by right | done].
    + intros (c2 & q2 & s2 & Hc2 & Hq2 & Hrest).
      apply elem_of_cons in Hc2 as [-> | Hc2]; [congruence |].
      by exists c2, q2, s2.
Qed.

Lemma preTraverse_Keys_iter fuel :
  ∀ w p (n : Node V) a prefix acc,
    wf w → nodes w !! p = Some n → children n = Some a →
    (length (maps w) - a < fuel)%nat → Forall storable prefix →
    ∃ paths,
      preTraverse fuel w (Some p) prefix Keys_iter acc
      = Ok (acc ++ (utf8_text <$> paths))
      ∧ StronglySorted rune_lt paths
      ∧ ∀ path, path ∈ paths ↔
          ∃ suffix, path = prefix ++ suffix ∧ ends_key w p suffix.
Proof.
  induction fuel as [| fuel IH]; intros w p n a prefix acc Hwf Hn Ha Hfuel Hpre;
    [lia |].
  destruct (wf_map_of w p n Hwf Hn) as (a' & m & Ha' & Hm & Hof).
  rewrite Ha in Ha'. injection Ha' as <-.
  (* the part below the node *)
  assert (∀ acc, ∃ paths,
            match map_of w (children n) with
            | Ok m =>
              if Z.of_nat (base.size m) =? 0 then Ok acc
              else
                for_each (merge_sort Z.le (map_to_list m).*1)
                  (λ c s,
                     match m !! c with
                     | Some q =>
                       match nodes w !! q with
                       | Some nn =>
                         preTraverse fuel w (Some q) (prefix ++ [code nn]) Keys_iter s
                       | None => Undef
                       end
                     | None => Ok s
                     end) acc
            | Panic => Panic
            | Undef => Undef
            end = Ok (acc ++ (utf8_text <$> paths))
            ∧ StronglySorted rune_lt paths
            ∧ ∀ path, path ∈ paths ↔
                ∃ c suffix, path = prefix ++ c :: suffix
                            ∧ ends_key w p (c :: suffix)) as Hbelow.
  { intros acc'. rewrite Hof.
    destruct (Z.eqb_spec (Z.of_nat (base.size m)) 0) as [Hsz | _].
    - exists []. cbn. rewrite app_nil_r. split; [done |]. split; [constructor |].
      intros path. split; [by intros ?%elem_of_nil |].
      intros (c & s & _ & (q & Hq & _)%(ends_key_cons w p n m)); [| done | done].
      assert (m = ∅) as -> by (apply map_size_empty_iff; lia).
      by rewrite lookup_empty in Hq.
    - destruct (sorted_keys_spec m) as [Hsorted Hkeys].
      destruct (for_each_children w m prefix
                  (λ q pre s, preTraverse fuel w (Some q) pre Keys_iter s))
        with (bs := merge_sort Z.le (map_to_list m).*1) (acc := acc')
        as (paths & Hrun & Hs & Hin); [| done |].
      { intros c q Hq.
        destruct (wf_entry w Hwf a m c q Hm Hq) as (Hst & nq & aq & Hnq & Hcode & Haq & Hlt).
        destruct (wf_children w Hwf q nq Hnq) as (aq' & Haq' & Hltq).
        rewrite Haq in Haq'. injection Haq' as <-.
        exists nq. split; [done |]. split; [done |]. intros acc''.
        apply (IH w q nq aq); [done | done | done | lia |].
        apply Forall_app. split; [done | by constructor]. }
      exists paths. split; [exact Hrun |]. split; [done |].
      intros path. rewrite Hin. split.
      + intros (c & q & s & _ & Hq & -> & He). exists c, s. split; [done |].
        apply (ends_key_cons w p n m); [done | done |]. by exists q.
      + intros (c & s & -> & (q & Hq & He)%(ends_key_cons w p n m)); [| done | done].
        exists c, q, s. split; [| done]. apply Hkeys. by exists q. }
  cbn [preTraverse]. rewrite Hn. cbv zeta.
  destruct (term n) eqn:Hterm.
  - rewrite parseRunesToText_scalar
      by (eapply Forall_impl; [exact Hpre | by intros ? [? _]]).
    cbn [Keys_iter negb].
    destruct (Hbelow (acc ++ [utf8_text prefix])) as (paths & -> & Hs & Hin).
    exists (prefix :: paths). split; [by rewrite <- app_assoc |]. split.
    + constructor; [done |]. apply Forall_forall.
      intros path (c & s & -> & _)%Hin. apply rune_lt_extend.
    + intros path. rewrite elem_of_cons, Hin. split.
      * intros [-> | (c & s & -> & He)].
        -- exists []. rewrite app_nil_r. split; [done |].
           by apply (ends_key_nil w p n).
        -- by exists (c :: s).
      * intros ([| c s] & -> & He).
        -- left. by rewrite app_nil_r.
        -- right. by exists c, s.
  - destruct (Hbelow acc) as (paths & -> & Hs & Hin).
    exists paths. split; [done |]. split; [done |].
    intros path. rewrite Hin. split.
    + intros (c & s & -> & He). by exists (c :: s).
    + intros ([| c s] & -> & He).
      * apply (ends_key_nil w p n) in He; congruence.
      * by exists c, s.
Qed.

Lemma findNode_storable w s :
  wf w → ∀ p q, is_Some (nodes w !! p) →
  findNode w (Some p) s = Ok (Some q) → Forall storable s.
Proof.
  intros Hwf. induction s as [| c s IH]; intros p q [n Hn] Hf; [constructor |].
  cbn [findNode] in Hf. rewrite Hn in Hf.
  destruct (wf_map_of w p n Hwf Hn) as (a & m & _ & _ & Hof). rewrite Hof in Hf.
  destruct (m !! c) as [qc |] eqn:Hqc; [| done].
  destruct (wf_child w p n m c qc Hwf Hn Hof Hqc) as (Hst & nq & Hnq & _).
  constructor; [done |]. apply (IH qc q); [by exists nq | done].
Qed.

Lemma findNode_app w s1 s2 p :
  findNode w (Some p) (s1 ++ s2)
  = match findNode w (Some p) s1 with
    | Ok (Some q) => findNode w (Some q) s2
    | other => other
    end.
Proof.
  revert p. induction s1 as [| c s1 IH]; intros p; [done |].
  cbn [app findNode].
  destruct (nodes w !! p) as [n |]; [| by destruct s2].
  destruct (map_of w (children n)) as [m | |]; [| done | done].
  destruct (m !! c) as [q |]; [apply IH | done].
Qed.

Lemma stored_ends_key w key :
  stored w key ↔ ends_key w (root (trie w)) (parseTextToRunes key).
Proof.
  unfold stored, ends_key, Find.
  destruct (findNode w (Some (root (trie w))) (parseTextToRunes key))
    as [[p |] | |]; split; try by intros (? & ?).
  - intros [n Hn]. destruct (nodes w !! p) as [nd |] eqn:Hnd; [| done].
    destruct (term nd) eqn:Ht; [| done]. by exists p, nd.
  - intros (q & nq & [= <-] & Hq & Ht). rewrite Hq, Ht. by eexists.
  - by intros (? & ? & ? & _).
  - by intros (? & ? & ? & _).
  - by intros (? & ? & ? & _).
Qed.

Lemma parseTextToRunes_storable key : Forall storable (parseTextToRunes key).
Proof.
  destruct (decodes_dec key) as [[rs Hrs] | Hno].
  - rewrite (parseTextToRunes_decodes key rs Hrs). by apply (decodes_text key).
  - by rewrite (parseTextToRunes_reject key Hno).
Qed.

Lemma parse_utf8_text path :
  Forall storable path → parseTextToRunes (utf8_text path) = path.
Proof. intros H. by apply parseTextToRunes_decodes, text_decodes. Qed.

Lemma PrefixSearch_Keys_iter w pre :
  wf w →
  ∃ paths,
    PrefixSearch w pre Keys_iter [] = Ok (utf8_text <$> paths)
    ∧ StronglySorted rune_lt paths
    ∧ Forall (Forall storable) paths
    ∧ ∀ path, path ∈ paths ↔
        parseTextToRunes pre `prefix_of` path
        ∧ ends_key w (root (trie w)) path.
Proof.
  intros Hwf. unfold PrefixSearch.
  destruct (wf_root w Hwf) as (Hroot & n0 & Hn0 & _).
  set (rs0 := parseTextToRunes pre).
  pose proof (parseTextToRunes_storable pre) as Hst0. fold rs0 in Hst0.
  assert (is_Some (nodes w !! root (trie w))) as Hr by (rewrite Hroot; by exists n0).
  destruct (findNode_wf w rs0 Hwf (root (trie w)) Hr) as (r & Hfind & Hsome).
  rewrite Hfind. destruct r as [p |].
  - destruct (Hsome p eq_refl) as [n Hn].
    destruct (wf_children w Hwf p n Hn) as (a & Ha & Hlt).
    destruct (preTraverse_Keys_iter (S (length (nodes w))) w p n a rs0 [] Hwf Hn Ha)
      as (paths & Hrun & Hs & Hin); [pose proof (wf_count w Hwf); lia | done |].
    exists paths. split; [exact Hrun |]. split; [done |].
    assert (∀ path, path ∈ paths ↔
              rs0 `prefix_of` path ∧ ends_key w (root (trie w)) path) as Hin'.
    { intros path. rewrite Hin. split.
      - intros (s & -> & (q & nq & Hq & Hnq & Ht)). split; [by exists s |].
        exists q, nq. by rewrite findNode_app, Hfind.
      - intros ([s ->] & (q & nq & Hq & Hnq & Ht)). exists s. split; [done |].
        exists q, nq. rewrite findNode_app, Hfind in Hq. done. }
    split; [| done]. apply Forall_forall. intros path [_ (q & nq & Hq & _)]%Hin'.
    by apply (findNode_storable w path Hwf (root (trie w)) q).
  - exists []. split; [done |]. split; [constructor |]. split; [constructor |].
    intros path. split; [by intros ?%elem_of_nil |].
    intros ([s ->] & (q & nq & Hq & _)). by rewrite findNode_app, Hfind in Hq.
Qed.

Lemma key_in_paths w (paths : list (list Z)) (P : list Z → Prop) :
  wf w →
  Forall (Forall storable) paths →
  (∀ path, path ∈ paths ↔ P path ∧ ends_key w (root (trie w)) path) →
  ∀ key, key ∈ (utf8_text <$> paths) ↔
         stored w key ∧ P (parseTextToRunes key).
Proof.
  intros Hwf Hst Hin key. rewrite list_elem_of_fmap, stored_ends_key. split.
  - intros (path & -> & Hpath). rewrite Forall_forall in Hst.
    rewrite (parse_utf8_text path) by (by apply Hst).
    apply Hin in Hpath as [? ?]. done.
  - intros [He HP]. exists (parseTextToRunes key). split; [| by apply Hin].
    destruct (decodes_dec key) as [[rs Hrs] | Hno].
    + rewrite (parseTextToRunes_decodes key rs Hrs). symmetry.
      by apply (decodes_text key).
    + rewrite (parseTextToRunes_reject key Hno) in He.
      destruct (wf_root w Hwf) as (Hroot & n0 & Hn0 & Ht0).
      rewrite Hroot in He. apply (ends_key_nil w 0 n0 Hn0) in He. congruence.
Qed.

End Traversal.

(** ** Reads return on well-formed worlds *)

Section Reads_return.
Context {V : Type}.
Implicit Types (w : World V).

Lemma for_each_returns {A S} (l : list A) (body : A → S → result S) :
  (∀ a s, ∃ s', body a s = Ok s') → ∀ s, ∃ s', for_each l body s = Ok s'.
Proof.
  intros Hbody. induction l as [| a l IH]; intros s; [by exists s |].
  cbn [for_each]. destruct (Hbody a s) as [s1 ->]. apply IH.
Qed.

Lemma preTraverse_returns fuel :
  ∀ w p (n : Node V) a prefix S (iter : NodeIterator V S) s,
    wf w → nodes w !! p = Some n → children n = Some a →
    (length (maps w) - a < fuel)%nat → Forall storable prefix →
    ∃ s', preTraverse fuel w (Some p) prefix iter s = Ok s'.
Proof.
  induction fuel as [| fuel IH]; intros w p n a prefix S iter s Hwf Hn Ha Hfuel Hpre;
    [lia |].
  destruct (wf_map_of w p n Hwf Hn) as (a' & m & Ha' & Hm & Hof).
  rewrite Ha in Ha'. injection Ha' as <-.
  cbn [preTraverse]. rewrite Hn, Hof. cbv zeta.
  assert (∀ s0, ∃ s',
            (if Z.of_nat (base.size m) =? 0 then Ok s0
             else
               for_each (merge_sort Z.le (map_to_list m).*1)
                 (λ c s1,
                    match m !! c with
                    | Some q =>
                      match nodes w !! q with
                      | Some nn =>
                        preTraverse fuel w (Some q) (prefix ++ [code nn]) iter s1
                      | None => Undef
                      end
                    | None => Ok s1
                    end) s0) = Ok s') as Hbelow.
  { intros s0. destruct (Z.of_nat (base.size m) =? 0); [by exists s0 |].
    apply for_each_returns. intros c s1.
    destruct (m !! c) as [q |] eqn:Hq; [| by exists s1].
    destruct (wf_entry w Hwf a m c q Hm Hq)
      as (Hst & nq & aq & Hnq & Hcode & Haq & Hlt).
    destruct (wf_children w Hwf q nq Hnq) as (aq' & Haq' & Hltq).
    rewrite Haq in Haq'. injection Haq' as <-.
    rewrite Hnq, Hcode. apply (IH w q nq aq); [done | done | done | lia |].
    apply Forall_app. split; [done | by constructor]. }
  destruct (term n); [| apply Hbelow].
  rewrite parseRunesToText_scalar
    by (eapply Forall_impl; [exact Hpre | by intros ? [? _]]).
  destruct (iter (utf8_text prefix) (value n) s) as [[|] s1]; cbn [negb];
    [apply Hbelow | by exists s1].
Qed.

Lemma PrefixSearch_returns w pre S (iter : NodeIterator V S) s :
  wf w → ∃ s', PrefixSearch w pre iter s = Ok s'.
Proof.
  intros Hwf. unfold PrefixSearch.
  destruct (wf_root w Hwf) as (Hroot & n0 & Hn0 & _).
  assert (is_Some (nodes w !! root (trie w))) as Hr by (rewrite Hroot; by exists n0).
  destruct (findNode_wf w (parseTextToRunes pre) Hwf (root (trie w)) Hr)
    as (r & -> & Hsome).
  destruct r as [p |]; [| by exists s].
  destruct (Hsome p eq_refl) as [n Hn].
  destruct (wf_children w Hwf p n Hn) as (a & Ha & Hlt).
  apply (preTraverse_returns _ w p n a); [done | done | done | |].
  - pose proof (wf_count w Hwf). lia.
  - apply parseTextToRunes_storable.
Qed.

Lemma Find_returns w key : wf w → ∃ r, Find w key = Ok r.
Proof.
  intros Hwf. unfold Find.
  destruct (wf_root w Hwf) as (Hroot & n0 & Hn0 & _).
  assert (is_Some (nodes w !! root (trie w))) as Hr by (rewrite Hroot; by exists n0).
  destruct (findNode_wf w (parseTextToRunes key) Hwf (root (trie w)) Hr)
    as (r & -> & Hsome).
  destruct r as [p |]; [| by eexists].
  destruct (Hsome p eq_refl) as [n ->]. destruct (term n); by eexists.
Qed.

Lemma HasKeysWithPrefix_returns w key : wf w → ∃ b, HasKeysWithPrefix w key = Ok b.
Proof.
  intros Hwf. unfold HasKeysWithPrefix.
  destruct (wf_root w Hwf) as (Hroot & n0 & Hn0 & _).
  assert (is_Some (nodes w !! root (trie w))) as Hr by (rewrite Hroot; by exists n0).
  destruct (findNode_wf w (parseTextToRunes key) Hwf (root (trie w)) Hr)
    as (r & -> & _).
  by eexists.
Qed.

End Reads_return.

(** ** Keys that hold U+FFFD *)

Section Rejected.
Context {V : Type}.
Implicit Types (w : World V).

Lemma ReplaceOrInsert_reject w key v :
  wf w → (∀ rs, ¬ decodes key rs) →
  ∃ w', ReplaceOrInsert key v w = Ok (None, w') ∧ wf w' ∧ trie w' = trie w.
Proof.
  intros Hwf Hno. destruct key as [| c key'].
  { destruct (Hno []). constructor. }
  unfold ReplaceOrInsert.
  erewrite bind_run by reflexivity. cbv beta.
  destruct (wf_root w Hwf) as (Hroot & n0 & Hn0 & Ht0).
  destruct (insert_loop_wf (length (c :: key')) (c :: key') (root (trie w)) None w Hwf)
    as (r0 & w1 & Hrun & Hwf1 & Htrie & Hnone & _);
    [rewrite Hroot; by exists n0 | done | done |].
  erewrite bind_run by exact Hrun. cbv beta.
  apply Hnone in Hno as ->. by exists w1.
Qed.

Lemma Find_reject w key :
  wf w → (∀ rs, ¬ decodes key rs) → Find w key = Ok (None, false).
Proof.
  intros Hwf Hno. unfold Find. rewrite (parseTextToRunes_reject key Hno).
  cbn [findNode]. destruct (wf_root w Hwf) as (-> & n0 & -> & ->). done.
Qed.

End Rejected.

Lemma text_with_RuneError_rejected rs :
  Forall scalar rs → utf8.RuneError ∈ rs → ∀ rs', ¬ decodes (utf8_text rs) rs'.
Proof.
  induction 1 as [| r rs Hsc _ IH]; intros Hin rs' Hd; [by apply elem_of_nil in Hin |].
  destruct (DecodeRune_encoding r (utf8_text rs) Hsc) as (Hdec & Hlen & _).
  change (utf8_text (r :: rs)) with (utf8.encoding r ++ utf8_text rs) in Hd.
  inversion Hd as [Hnil | p e n rs'' _ Hd' He Hrest]; subst.
  { destruct (utf8.encoding r); [cbn in Hlen; lia | done]. }
  rewrite Hdec in Hd'. injection Hd' as <- <-.
  rewrite drop_app_length in Hrest.
  apply elem_of_cons in Hin as [<- | Hin]; [done |].
  by apply (IH Hin rs'').
Qed.

(** ** Runs of calls stay among the reachable worlds *)

Lemma run_all_reachable ms :
  Forall is_call ms →
  ∀ w w', reachable w → run_all ms w = Ok w' → reachable w'.
Proof.
  induction 1 as [| m ms Hm _ IH]; intros w w' Hw Hrun; simpl in Hrun.
  - injection Hrun as <-. exact Hw.
  - destruct (m w) as [[r w1] | |] eqn:Hmw; try discriminate.
    apply (IH w1); [| done].
    apply (reachable_step w); [done |].
    destruct Hm as [(key & v & ->) | (key & ->)].
    + by apply (step_ReplaceOrInsert key v w r).
    + by apply (step_Delete key w r).
Qed.

Lemma ins_is_call k : is_call (ins k).
Proof. left. by eexists _, _. Qed.

Lemma del_is_call k : is_call (del k).
Proof. right. by eexists. Qed.

(** ** Claims settled by running the code *)

(** C1.  [Delete] reads [node.term] without the nil check that [Find] and
    [PrefixSearch] make: on a key whose path leaves the trie, [findNode]
    returns nil and [Delete] panics instead of returning absent. *)
Theorem Delete_missing_path_panics {V} (w : World V) (key : list byte) :
  findNode w (Some (root (trie w))) (parseTextToRunes key) = Ok None →
  Delete key w = Panic.
Proof.
  intros Hfind. unfold Delete. rewrite Hfind. reflexivity.
Qed.

Lemma Delete_missing_path_panics_witness :
  findNode (V:=string) NewTrie (Some (root (trie (V:=string) NewTrie)))
           (parseTextToRunes (bytes_of "x")) = Ok None
  ∧ Delete (V:=string) (bytes_of "x") NewTrie = Panic.
Proof.
  split; [by_running |].
  apply (Delete_missing_path_panics (V:=string) NewTrie (bytes_of "x")).
  by_running.
Defined.

(** C2.  After ["ab"] is inserted the node of ["a"] exists and ends no key.
    Inserting ["a"] then takes the replacement branch: it returns that node
    (not absent), leaves [size] as it was, and the copy it installs is
    again non-terminating. *)
Theorem ReplaceOrInsert_on_prefix_node :
  ∃ w w' pre npre n',
    run_all [ins "ab"] NewTrie = Ok w
    ∧ node_at w [97] npre ∧ term npre = false
    ∧ ReplaceOrInsert (bytes_of "a") (Some "a"%string) w = Ok (Some pre, w')
    ∧ size (trie w') = size (trie w)
    ∧ node_at w' [97] n' ∧ term n' = false.
Proof.
  do 5 eexists.
  split; [by_running |].
  split; [eexists; split; [by_running |]; by_running |].
  split; [by_running |].
  split; [by_running |].
  split; [by_running |].
  split; [eexists; split; [by_running |]; by_running |].
  by_running.
Qed.

(** C3.  The bytes 61 FF are ["a"] followed by an invalid byte.  The loop of
    [ReplaceOrInsert] creates the node of ["a"] before it meets the invalid
    byte and returns: the call returns absent and [size] stays 0, but the
    trie has a new node, which [HasKeysWithPrefix] sees. *)
Theorem ReplaceOrInsert_invalid_tail_leaves_nodes :
  ∃ w',
    ReplaceOrInsert [x61; xff] (Some "v"%string) NewTrie = Ok (None, w')
    ∧ size (trie w') = 0
    ∧ length (nodes w') = 2%nat
    ∧ HasKeysWithPrefix (V:=string) NewTrie (bytes_of "a") = Ok false
    ∧ HasKeysWithPrefix w' (bytes_of "a") = Ok true
    ∧ dead_leaf w' [97].
Proof.
  eexists.
  split; [by_running |].
  repeat (split; [by_running |]).
  split; [discriminate |].
  eexists. split; [eexists; split; [by_running |]; by_running |].
  split; [by_running |]. by_running.
Qed.

(** C4.  [preTraverse] returns nothing, so a [false] from the iterator only
    leaves the current call: on the keys a, ab, b an iterator that answers
    [false] on ["a"] is still called on ["b"]. *)
Theorem PrefixSearch_false_does_not_halt :
  ∃ w,
    run_all [ins "a"; ins "ab"; ins "b"] NewTrie = Ok w
    ∧ PrefixSearch w [] (stop_at (bytes_of "a")) []
      = Ok [bytes_of "a"; bytes_of "b"].
Proof.
  eexists. split; [by_running |]. by_running.
Qed.

(** C7.  Same defect as C2: from the trie holding ["ab"], inserting ["a"]
    and then looking it up reports not-found. *)
Theorem insert_then_Find_not_found :
  ∃ w r w',
    run_all [ins "ab"] NewTrie = Ok w
    ∧ ReplaceOrInsert (bytes_of "a") (Some "a"%string) w = Ok (r, w')
    ∧ Find w' (bytes_of "a") = Ok (None, false).
Proof.
  do 3 eexists.
  split; [by_running |].
  split; [by_running |]. by_running.
Qed.

(** C9.  Re-inserting ["a"] installs a copy of its node, while the child of
    ["ab"] keeps pointing to the old object as its parent.  After
    [Delete "a"] demotes the copy, [Delete "ab"] prunes along the old
    object, whose flag is still set, and stops: the copy stays in the tree,
    non-terminating and childless. *)
Theorem pruning_leaves_dead_leaf :
  ∃ w,
    run_all [ins "a"; ins "ab"; ins "a"; del "a"; del "ab"] NewTrie = Ok w
    ∧ reachable w
    ∧ dead_leaf w [97].
Proof.
  eexists.
  split; [by_running |].
  split.
  - apply (run_all_reachable [ins "a"; ins "ab"; ins "a"; del "a"; del "ab"])
      with (w := NewTrie).
    + repeat match goal with |- Forall _ _ => constructor end;
        first [apply ins_is_call | apply del_is_call].
    + apply reachable_NewTrie.
    + by_running.
  - split; [discriminate |].
    eexists. split; [eexists; split; [by_running |]; by_running |].
    split; [by_running |]. by_running.
Qed.

(** ** Claims about keys that do not decode, and about the node [Delete] returns *)

(** C5.  [parseTextToRunes] answers nil both for the empty key and for a key
    that does not decode, and no caller tells the two apart: on a key that
    does not decode, [HasKeysWithPrefix] answers true and [PrefixSearch]
    walks the whole trie, exactly as on the empty key. *)
Theorem invalid_key_reads_as_empty_key {V} (w : World V) (key : list byte) :
  (∀ rs, ¬ decodes key rs) →
  HasKeysWithPrefix w key = Ok true
  ∧ (∀ S (iter : NodeIterator V S) s,
       PrefixSearch w key iter s = PrefixSearch w [] iter s)
  ∧ Find w key = Find w [].
Proof.
  intros Hno. unfold HasKeysWithPrefix, PrefixSearch, Find.
  rewrite (parseTextToRunes_reject key Hno). cbn [parseTextToRunes findNode].
  split; [| by split]. by rewrite bool_decide_eq_true_2.
Qed.

Lemma invalid_key_reads_as_empty_key_witness :
  (∀ rs, ¬ decodes [xff] rs)
  ∧ HasKeysWithPrefix (V:=string) NewTrie [xff] = Ok true
  ∧ (∀ S (iter : NodeIterator string S) s,
       PrefixSearch NewTrie [xff] iter s = PrefixSearch NewTrie [] iter s)
  ∧ Find (V:=string) NewTrie [xff] = Find NewTrie [].
Proof.
  assert (∀ rs, ¬ decodes [xff] rs) as Hno.
  { intros rs Hrs. inversion Hrs as [| p e n rs' _ Hd He _]; subst.
    vm_compute in Hd. injection Hd as <- <-. by apply He. }
  split; [exact Hno |].
  exact (invalid_key_reads_as_empty_key (V:=string) NewTrie [xff] Hno).
Defined.

(** The same at a trie with keys: the invalid prefix FF enumerates them all. *)
Lemma invalid_prefix_enumerates_everything :
  ∃ w,
    run_all [ins "a"; ins "b"] NewTrie = Ok w
    ∧ HasKeysWithPrefix w [xff] = Ok true
    ∧ PrefixSearch w [xff] Keys_iter [] = Ok [bytes_of "a"; bytes_of "b"].
Proof.
  eexists. split; [by_running |]. split; [by_running |]. by_running.
Qed.

(** C6, as stated, fails: after a, ab are inserted, [Delete "a"] returns
    the address of the node of ["a"], and that node, demoted in place,
    reads [term = false]. *)
Lemma Delete_returns_demoted_node :
  ∃ w w' p n m,
    run_all [ins "a"; ins "ab"] NewTrie = Ok w
    ∧ stored w (bytes_of "a")
    ∧ node_at w [97] n ∧ map_of w (children n) = Ok m ∧ m ≠ ∅
    ∧ Delete (bytes_of "a") w = Ok (Some p, w')
    ∧ term <$> (nodes w' !! p) = Some false.
Proof.
  do 5 eexists.
  split; [by_running |].
  split; [eexists; by_running |].
  split; [eexists; split; [by_running |]; by_running |].
  split; [by_running |].
  split; [| split; [by_running |]; by_running].
  intros Hm. apply (f_equal (λ m : gmap Z ptr, m !! 98)) in Hm.
  vm_compute in Hm. discriminate.
Qed.

(** C6, amended.  When the node of a stored key still has children,
    [Delete] returns that very node, not a copy: after the call the
    returned address holds the node with [term] cleared and every other
    field as before, and nothing else in the world changes but [size]. *)
Theorem Delete_inner_key_returns_live_node {V} (w : World V) (key : list byte)
    (p : ptr) (n : Node V) (m : gmap Z ptr) :
  findNode w (Some (root (trie w))) (parseTextToRunes key) = Ok (Some p) →
  nodes w !! p = Some n → term n = true →
  map_of w (children n) = Ok m → m ≠ ∅ →
  ∃ w',
    Delete key w = Ok (Some p, w')
    ∧ nodes w' !! p
      = Some (mkNode (code n) false (depth n) (value n) (parent n) (children n))
    ∧ (∀ q, q ≠ p → nodes w' !! q = nodes w !! q)
    ∧ maps w' = maps w
    ∧ trie w' = mkTrie (root (trie w)) (size (trie w) - 1).
Proof.
  intros Hfind Hp Hterm Hmap Hne.
  assert ((0 <? Z.of_nat (base.size m)) = true) as Hsize.
  { apply Z.ltb_lt.
    destruct (decide (base.size m = 0%nat)) as [H0 | H0]; [| lia].
    by apply map_size_empty_iff in H0. }
  eexists. split.
  - unfold Delete. rewrite Hfind.
    unfold bind, load, size_incr, map_read, store, ret. cbn -[map_of].
    rewrite Hp, Hterm. cbn -[map_of].
    change (map_of _ (children n)) with (map_of w (children n)).
    rewrite Hmap, Hsize. cbn.
    rewrite Hp. reflexivity.
  - cbn [nodes maps trie]. split; [| split; [| done]].
    + rewrite list_lookup_insert_eq; [done |]. by apply lookup_lt_Some in Hp.
    + intros q Hq. by rewrite list_lookup_insert_ne.
Qed.

Lemma Delete_inner_key_returns_live_node_witness :
  ∃ (w : World string) (n : Node string),
    run_all [ins "a"; ins "ab"] NewTrie = Ok w
    ∧ nodes w !! 1%nat = Some n ∧ term n = true
    ∧ ∃ w', Delete (bytes_of "a") w = Ok (Some 1%nat, w')
            ∧ nodes w' !! 1%nat
              = Some (mkNode (code n) false (depth n) (value n) (parent n)
                             (children n)).
Proof.
  eexists _, _.
  split; [by_running |].
  split; [by_running |].
  split; [by_running |].
  assert ({[ 98 := 2%nat ]} ≠ (∅ : gmap Z ptr)) as Hne.
  { intros Hm. apply (f_equal (λ m : gmap Z ptr, m !! 98)) in Hm.
    vm_compute in Hm. discriminate. }
  match goal with
  | |- ∃ w', Delete ?k ?w = _ ∧ _ =>
    destruct (Delete_inner_key_returns_live_node w k 1%nat _ {[ 98 := 2%nat ]}
                ltac:(by_running) ltac:(by_running) ltac:(by_running)
                ltac:(by_running) Hne) as (w' & Hdel & Hnode & _)
  end.
  exists w'. split; [exact Hdel | exact Hnode].
Defined.

(** ** Claims about every reachable trie *)

(** The bytes of U+FFFD. *)
Lemma encoding_RuneError : utf8.encoding utf8.RuneError = [xef; xbf; xbd].
Proof. by_running. Qed.

(** C10.  A key that is the UTF-8 text of scalar values one of which is
    U+FFFD is rejected: [ReplaceOrInsert] returns absent and leaves [size]
    as it was, and [Find] reports not-found for it, before and after. *)
Theorem replacement_character_key_rejected {V} (w : World V) (rs : list Z)
    (v : option V) :
  reachable w → Forall scalar rs → utf8.RuneError ∈ rs →
  ∃ w',
    ReplaceOrInsert (utf8_text rs) v w = Ok (None, w')
    ∧ size (trie w') = size (trie w)
    ∧ Find w' (utf8_text rs) = Ok (None, false)
    ∧ Find w (utf8_text rs) = Ok (None, false).
Proof.
  intros Hw Hrs Hin. apply reachable_wf in Hw.
  pose proof (text_with_RuneError_rejected rs Hrs Hin) as Hno.
  destruct (ReplaceOrInsert_reject w (utf8_text rs) v Hw Hno) as (w' & Hrun & Hwf' & Htrie).
  exists w'. split; [done |]. split; [by rewrite Htrie |].
  split; by apply Find_reject.
Qed.

Lemma replacement_character_key_rejected_witness :
  reachable (V:=string) NewTrie
  ∧ Forall scalar [0x61; 0xFFFD; 0x62]
  ∧ utf8.RuneError ∈ [0x61; 0xFFFD; 0x62]
  ∧ utf8_text [0x61; 0xFFFD; 0x62] = [x61; xef; xbf; xbd; x62]
  ∧ ∃ w',
      ReplaceOrInsert [x61; xef; xbf; xbd; x62] (Some "v"%string) NewTrie
      = Ok (None, w')
      ∧ size (trie w') = size (trie (V:=string) NewTrie)
      ∧ Find w' [x61; xef; xbf; xbd; x62] = Ok (None, false)
      ∧ Find (V:=string) NewTrie [x61; xef; xbf; xbd; x62] = Ok (None, false).
Proof.
  assert (Forall scalar [0x61; 0xFFFD; 0x62]) as Hsc.
  { repeat constructor; unfold utf8.MaxRune, utf8.surrogateMin, utf8.surrogateMax; lia. }
  assert (utf8.RuneError ∈ [0x61; 0xFFFD; 0x62]) as Hin.
  { apply elem_of_cons. right. apply elem_of_cons. by left. }
  split; [apply reachable_NewTrie |]. split; [exact Hsc |]. split; [exact Hin |].
  split; [by_running |].
  exact (replacement_character_key_rejected (V:=string) NewTrie
           [0x61; 0xFFFD; 0x62] (Some "v"%string) reachable_NewTrie Hsc Hin).
Defined.

(** C8.  On every reachable trie, [PrefixSearch] with the collecting
    iterator of [Keys] returns: the keys it yields are the texts of a list
    of code-point sequences in strictly ascending lexicographic order, each
    of which is what its text decodes to, and they are exactly the stored
    keys that extend the prefix.  [Keys] is the case of the empty prefix:
    exactly the stored keys, in that order.  Two reachable tries that store
    the same keys therefore yield the same list, however they were built. *)
Theorem Keys_ascending_and_exact {V} (w : World V) :
  reachable w →
  (∀ pre, ∃ paths,
     PrefixSearch w pre Keys_iter [] = Ok (utf8_text <$> paths)
     ∧ StronglySorted rune_lt paths
     ∧ Forall (λ path, parseTextToRunes (utf8_text path) = path) paths
     ∧ ∀ key, key ∈ (utf8_text <$> paths) ↔
         stored w key
         ∧ parseTextToRunes pre `prefix_of` parseTextToRunes key)
  ∧ (∃ paths,
       Keys w = Ok (utf8_text <$> paths)
       ∧ StronglySorted rune_lt paths
       ∧ Forall (λ path, parseTextToRunes (utf8_text path) = path) paths
       ∧ ∀ key, key ∈ (utf8_text <$> paths) ↔ stored w key)
  ∧ (∀ w2 : World V, reachable w2 →
       (∀ key, stored w key ↔ stored w2 key) → Keys w2 = Keys w).
Proof.
  assert (∀ w0 : World V, reachable w0 → ∀ pre, ∃ paths,
     PrefixSearch w0 pre Keys_iter [] = Ok (utf8_text <$> paths)
     ∧ StronglySorted rune_lt paths
     ∧ Forall (λ path, parseTextToRunes (utf8_text path) = path) paths
     ∧ ∀ key, key ∈ (utf8_text <$> paths) ↔
         stored w0 key
         ∧ parseTextToRunes pre `prefix_of` parseTextToRunes key) as Hsearch.
  { intros w0 Hw0%reachable_wf pre.
    destruct (PrefixSearch_Keys_iter w0 pre Hw0) as (paths & Hrun & Hs & Hst & Hin).
    exists paths. split; [done |]. split; [done |]. split.
    - eapply Forall_impl; [exact Hst |]. intros path ?. by apply parse_utf8_text.
    - apply (key_in_paths w0 paths (λ path, parseTextToRunes pre `prefix_of` path));
        [done | done |]. intros path. rewrite Hin. tauto. }
  assert (∀ w0 : World V, reachable w0 → ∃ paths,
       Keys w0 = Ok (utf8_text <$> paths)
       ∧ StronglySorted rune_lt paths
       ∧ Forall (λ path, parseTextToRunes (utf8_text path) = path) paths
       ∧ ∀ key, key ∈ (utf8_text <$> paths) ↔ stored w0 key) as Hkeys.
  { intros w0 Hw0. destruct (Hsearch w0 Hw0 []) as (paths & Hrun & Hs & Hrt & Hin).
    exists paths. split; [done |]. split; [done |]. split; [done |].
    intros key. rewrite Hin. split; [by intros [? _] |].
    intros ?. split; [done |]. apply prefix_nil. }
  intros Hw. split; [by apply Hsearch |]. split; [by apply Hkeys |].
  intros w2 Hw2 Hsame.
  destruct (Hkeys w Hw) as (paths1 & -> & Hs1 & Hrt1 & Hin1).
  destruct (Hkeys w2 Hw2) as (paths2 & -> & Hs2 & Hrt2 & Hin2).
  f_equal. f_equal. apply rune_lt_sorted_unique; [done | done |].
  rewrite Forall_forall in Hrt1, Hrt2.
  assert (∀ (pa pb : list (list Z)) (x : list Z),
            (∀ p, p ∈ pa → parseTextToRunes (utf8_text p) = p) →
            (∀ p, p ∈ pb → parseTextToRunes (utf8_text p) = p) →
            (∀ key, key ∈ (utf8_text <$> pa) → key ∈ (utf8_text <$> pb)) →
            x ∈ pa → x ∈ pb) as Hmove.
  { intros pa pb x Ha Hb Hsub Hx.
    assert (utf8_text x ∈ (utf8_text <$> pb)) as (y & Hxy & Hy)%list_elem_of_fmap
      by (apply Hsub, list_elem_of_fmap; by exists x).
    rewrite <- (Ha x Hx), Hxy, (Hb y Hy). done. }
  intros x. split; apply Hmove; try done.
  - intros key. rewrite Hin1, Hin2. apply Hsame.
  - intros key. rewrite Hin1, Hin2. apply Hsame.
Qed.

Lemma Keys_ascending_and_exact_witness :
  ∃ w,
    run_all [ins "b"; ins "a"; ins "ab"; del "b"; ins "c"] NewTrie = Ok w
    ∧ reachable w
    ∧ Keys w = Ok [bytes_of "a"; bytes_of "ab"; bytes_of "c"]
    ∧ ∃ paths,
        Keys w = Ok (utf8_text <$> paths)
        ∧ StronglySorted rune_lt paths
        ∧ ∀ key, key ∈ (utf8_text <$> paths) ↔ stored w key.
Proof.
  eexists. split; [by_running |].
  match goal with
  | |- reachable ?w ∧ _ =>
      assert (reachable w) as Hw
  end.
  { apply (run_all_reachable [ins "b"; ins "a"; ins "ab"; del "b"; ins "c"])
      with (w := NewTrie).
    - repeat match goal with |- Forall _ _ => constructor end;
        first [apply ins_is_call | apply del_is_call].
    - apply reachable_NewTrie.
    - by_running. }
  split; [exact Hw |]. split; [by_running |].
  destruct (Keys_ascending_and_exact _ Hw) as (_ & (paths & Hk & Hs & _ & Hin) & _).
  exists paths. split; [exact Hk |]. split; [exact Hs | exact Hin].
Defined.

(** * Further properties

    How the objects of a reachable world hang together, where the paths
    lead after each operation, and what the operations do to the keys. *)

Section Links_preserved.
Context {V : Type}.
Implicit Types (w : World V).

Lemma linked_NewTrie : linked (V:=V) NewTrie.
Proof.
  constructor; cbn.
  - eexists. by repeat split.
  - intros [| a] m c q nq Hm; [| done]. injection Hm as <-. by rewrite lookup_empty.
  - intros [| a] m c q nq ? ? ? ? ? Hm; [| done]. injection Hm as <-.
    by rewrite lookup_empty.
  - intros [| x] nx [| y] ny Hx Hy; try done. by injection Hx as <-; injection Hy as <-.
  - intros [| a] m c q nq x nx Hm; [| done]. injection Hm as <-. by rewrite lookup_empty.
Qed.

Lemma linked_size w t : linked w → linked (mkWorld (nodes w) (maps w) t).
Proof. intros [H1 H2 H3 H4 H5]. by constructor. Qed.

(** Overwriting a node object with one that differs in [value] and [term]
    only. *)
Lemma linked_store w p (n n' : Node V) :
  linked w → nodes w !! p = Some n →
  code n' = code n → children n' = children n → parent n' = parent n →
  depth n' = depth n →
  (* entries keep implying their copies *)
  (∀ a m c q nq x nx,
     maps w !! a = Some m → m !! c = Some q →
     (<[p := n']> (nodes w)) !! q = Some nq →
     (<[p := n']> (nodes w)) !! x = Some nx →
     children nx = children nq → term nq = true → term nx = true) →
  linked (mkWorld (<[p := n']> (nodes w)) (maps w) (trie w)).
Proof.
  intros [(n0 & Hn0 & Hp0 & Hc0 & Hd0) Hpar Huni Hver Hterm] Hp Hcode Hchild Hparent Hdepth Hnew.
  pose proof (lookup_lt_Some _ _ _ Hp) as Hlt.
  assert (∀ i x, (<[p := n']> (nodes w)) !! i = Some x →
                 ∃ x0, nodes w !! i = Some x0 ∧ code x = code x0
                       ∧ children x = children x0 ∧ parent x = parent x0
                       ∧ depth x = depth x0) as Hold.
  { intros i x. rewrite list_lookup_insert_Some.
    intros [(<- & <- & _) | [_ Hi]]; [by exists n | by exists x]. }
  assert (∀ i x0, nodes w !! i = Some x0 →
                  ∃ x, (<[p := n']> (nodes w)) !! i = Some x ∧ code x = code x0
                       ∧ children x = children x0 ∧ parent x = parent x0
                       ∧ depth x = depth x0) as Hfwd.
  { intros i x0 Hi. destruct (decide (i = p)) as [-> | Hne].
    - exists n'. rewrite list_lookup_insert_eq by done.
      rewrite Hp in Hi. injection Hi as <-. done.
    - exists x0. by rewrite list_lookup_insert_ne. }
  constructor; cbn [nodes maps trie].
  - destruct (Hfwd 0%nat n0 Hn0) as (x & Hx & _ & Hc & Hpa & Hd).
    exists x. rewrite Hc, Hpa, Hd. done.
  - intros a m c q nq Hm Hq Hnq.
    destruct (Hold q nq Hnq) as (nq0 & Hnq0 & _ & _ & Hpa & Hd).
    destruct (Hpar a m c q nq0 Hm Hq Hnq0) as (pp & npp & Hpp & Hnpp & Hcpp & Hdpp).
    destruct (Hfwd pp npp Hnpp) as (npp' & Hnpp' & _ & Hc' & _ & Hd').
    exists pp, npp'. rewrite Hpa, Hc', Hd, Hd'. done.
  - intros a1 m1 c1 q1 n1 a2 m2 c2 q2 n2 Hm1 Hq1 Hn1 Hm2 Hq2 Hn2 Hch.
    destruct (Hold q1 n1 Hn1) as (n10 & Hn10 & _ & Hc1 & _).
    destruct (Hold q2 n2 Hn2) as (n20 & Hn20 & _ & Hc2 & _).
    apply (Huni a1 m1 c1 q1 n10 a2 m2 c2 q2 n20); try done. congruence.
  - intros x nx y ny Hx Hy Hch.
    destruct (Hold x nx Hx) as (nx0 & Hnx0 & Hcx & Hchx & Hpx & Hdx).
    destruct (Hold y ny Hy) as (ny0 & Hny0 & Hcy & Hchy & Hpy & Hdy).
    rewrite Hcx, Hcy, Hpx, Hpy, Hdx, Hdy.
    apply (Hver x nx0 y ny0); try done. congruence.
  - exact Hnew.
Qed.

Lemma linked_delete w a m c :
  linked w → maps w !! a = Some m →
  linked (mkWorld (nodes w) (<[a := delete c m]> (maps w)) (trie w)).
Proof.
  intros [Hroot Hpar Huni Hver Hterm] Ha.
  assert (∀ a0 m0 c0 q,
            (<[a := delete c m]> (maps w)) !! a0 = Some m0 → m0 !! c0 = Some q →
            ∃ m1, maps w !! a0 = Some m1 ∧ m1 !! c0 = Some q) as Hold.
  { intros a0 m0 c0 q. rewrite list_lookup_insert_Some.
    intros [(<- & <- & _) | [_ Hm0]] Hq.
    - apply lookup_delete_Some in Hq as [_ Hq]. by exists m.
    - by exists m0. }
  constructor; cbn [nodes maps trie]; try done.
  - intros a0 m0 c0 q nq Hm0 Hq Hnq.
    destruct (Hold a0 m0 c0 q Hm0 Hq) as (m1 & Hm1 & Hq1).
    by apply (Hpar a0 m1 c0 q).
  - intros a1 m1 c1 q1 n1 a2 m2 c2 q2 n2 Hm1 Hq1 Hn1 Hm2 Hq2 Hn2 Hch.
    destruct (Hold a1 m1 c1 q1 Hm1 Hq1) as (m1' & Hm1' & Hq1').
    destruct (Hold a2 m2 c2 q2 Hm2 Hq2) as (m2' & Hm2' & Hq2').
    by apply (Huni a1 m1' c1 q1 n1 a2 m2' c2 q2 n2).
  - intros a0 m0 c0 q nq x nx Hm0 Hq Hnq Hx Hch Ht.
    destruct (Hold a0 m0 c0 q Hm0 Hq) as (m1 & Hm1 & Hq1).
    by apply (Hterm a0 m1 c0 q nq x nx).
Qed.

(** The entries of a list of maps after [m[c] = x] on the map at [a]. *)
Lemma entry_after_assign (ms : list (gmap Z nat)) a m c x a0 m0 c0 q :
  ms !! a = Some m →
  (<[a := <[c := x]> m]> ms) !! a0 = Some m0 → m0 !! c0 = Some q →
  (a0 = a ∧ c0 = c ∧ q = x)
  ∨ ((a0 ≠ a ∨ c0 ≠ c) ∧ ∃ m1, ms !! a0 = Some m1 ∧ m1 !! c0 = Some q).
Proof.
  intros Ha. rewrite list_lookup_insert_Some.
  intros [(<- & <- & _) | [Hne Hm0]] Hq.
  - apply lookup_insert_Some in Hq as [[<- <-] | [Hcc Hq]]; [by left |].
    right. split; [by right |]. by exists m.
  - right. split; [by left |]. by exists m0.
Qed.

Lemma linked_new_child w (n : nat) (pn : Node V) a m c v tm :
  linked w → wf w → nodes w !! n = Some pn → children pn = Some a →
  maps w !! a = Some m →
  linked (mkWorld
            (nodes w ++ [mkNode c tm (depth pn + 1) v (Some n) (Some (length (maps w)))])
            (<[a := <[c := length (nodes w)]> m]> (maps w ++ [∅]))
            (trie w)).
Proof.
  intros [(n0 & Hn0 & Hp0 & Hc0 & Hd0) Hpar Huni Hver Hterm] Hwf Hn Ha Hm.
  set (L := mkNode c tm (depth pn + 1) v (Some n) (Some (length (maps w)))).
  assert ((maps w ++ [∅]) !! a = Some m) as Hm' by (by apply lookup_snoc_old).
  (* an old entry, seen in the new world *)
  assert (∀ a0 m0 c0 q, (maps w ++ [∅]) !! a0 = Some m0 → m0 !! c0 = Some q →
            maps w !! a0 = Some m0) as Hmap.
  { intros a0 m0 c0 q Hm0 Hq.
    apply lookup_snoc_Some in Hm0 as [? | [_ ->]]; [done | by rewrite lookup_empty in Hq]. }
  assert (∀ a0 m0 c0 q nq, maps w !! a0 = Some m0 → m0 !! c0 = Some q →
            (nodes w ++ [L]) !! q = Some nq → nodes w !! q = Some nq) as Hnode.
  { intros a0 m0 c0 q nq Hm0 Hq Hnq.
    destruct (wf_entry w Hwf a0 m0 c0 q Hm0 Hq) as (_ & nq0 & _ & Hnq0 & _).
    by rewrite (lookup_snoc_old _ L _ _ Hnq0) in Hnq; injection Hnq as <-. }
  assert (∀ x nx, nodes w !! x = Some nx → children nx ≠ children L) as Hfresh.
  { intros x nx Hx Hch. destruct (wf_children w Hwf x nx Hx) as (ax & Hax & Hlt).
    rewrite Hax in Hch. cbn in Hch. injection Hch as ->. lia. }
  constructor; cbn [nodes maps trie].
  - exists n0. split; [by apply lookup_snoc_old | done].
  - intros a0 m0 c0 q nq Hm0 Hq Hnq.
    destruct (entry_after_assign _ a m c _ a0 m0 c0 q Hm' Hm0 Hq)
      as [(-> & -> & ->) | (_ & m1 & Hm1 & Hq1)].
    + rewrite lookup_snoc_new in Hnq. injection Hnq as <-.
      exists n, pn. split; [done |]. split; [by apply lookup_snoc_old | done].
    + pose proof (Hmap _ _ _ _ Hm1 Hq1) as Hm1'.
      pose proof (Hnode _ _ _ _ _ Hm1' Hq1 Hnq) as Hnq'.
      destruct (Hpar a0 m1 c0 q nq Hm1' Hq1 Hnq') as (pp & npp & ? & ? & ? & ?).
      exists pp, npp. split; [done |]. split; [by apply lookup_snoc_old | done].
  - intros a1 m1 c1 q1 n1 a2 m2 c2 q2 n2 Hm1 Hq1 Hn1 Hm2 Hq2 Hn2 Hch.
    destruct (entry_after_assign _ a m c _ a1 m1 c1 q1 Hm' Hm1 Hq1)
      as [(-> & -> & ->) | (_ & m1' & Hm1' & Hq1')];
    destruct (entry_after_assign _ a m c _ a2 m2 c2 q2 Hm' Hm2 Hq2)
      as [(-> & -> & ->) | (_ & m2' & Hm2' & Hq2')]; [done | | |].
    + rewrite lookup_snoc_new in Hn1. injection Hn1 as <-.
      pose proof (Hmap _ _ _ _ Hm2' Hq2') as Hm2w.
      pose proof (Hnode _ _ _ _ _ Hm2w Hq2' Hn2) as Hn2'.
      by destruct (Hfresh q2 n2 Hn2').
    + rewrite lookup_snoc_new in Hn2. injection Hn2 as <-.
      pose proof (Hmap _ _ _ _ Hm1' Hq1') as Hm1w.
      pose proof (Hnode _ _ _ _ _ Hm1w Hq1' Hn1) as Hn1'.
      by destruct (Hfresh q1 n1 Hn1').
    + pose proof (Hmap _ _ _ _ Hm1' Hq1') as Hm1w.
      pose proof (Hmap _ _ _ _ Hm2' Hq2') as Hm2w.
      apply (Huni a1 m1' c1 q1 n1 a2 m2' c2 q2 n2); try done.
      * by apply (Hnode a1 m1' c1).
      * by apply (Hnode a2 m2' c2).
  - intros x nx y ny Hx Hy Hch.
    apply lookup_snoc_Some in Hx as [Hx | [-> ->]];
      apply lookup_snoc_Some in Hy as [Hy | [-> ->]]; [| | | done].
    + by apply (Hver x nx y ny).
    + by destruct (Hfresh x nx Hx).
    + by destruct (Hfresh y ny Hy).
  - intros a0 m0 c0 q nq x nx Hm0 Hq Hnq Hx Hch Ht.
    destruct (entry_after_assign _ a m c _ a0 m0 c0 q Hm' Hm0 Hq)
      as [(-> & -> & ->) | (_ & m1 & Hm1 & Hq1)].
    + rewrite lookup_snoc_new in Hnq. injection Hnq as <-.
      apply lookup_snoc_Some in Hx as [Hx | [-> ->]]; [| done].
      by destruct (Hfresh x nx Hx).
    + pose proof (Hmap _ _ _ _ Hm1 Hq1) as Hm1w.
      pose proof (Hnode _ _ _ _ _ Hm1w Hq1 Hnq) as Hnq'.
      apply lookup_snoc_Some in Hx as [Hx | [-> ->]].
      * by apply (Hterm a0 m1 c0 q nq x nx).
      * by destruct (Hfresh q nq Hnq').
Qed.

Lemma linked_replace w pre (npre : Node V) v pp (npp : Node V) app mpp :
  linked w → wf w → nodes w !! pre = Some npre → parent npre = Some pp →
  nodes w !! pp = Some npp → children npp = Some app →
  maps w !! app = Some mpp → mpp !! code npre = Some pre →
  linked (mkWorld
            (nodes w ++ [mkNode (code npre) (term npre) (depth npre) v
                                (parent npre) (children npre)])
            (<[app := <[code npre := length (nodes w)]> mpp]> (maps w))
            (trie w)).
Proof.
  intros [(n0 & Hn0 & Hp0 & Hc0 & Hd0) Hpar Huni Hver Hterm]
         Hwf Hpre Hpp Hnpp Happ Hmpp Hentry.
  set (L := mkNode (code npre) (term npre) (depth npre) v (parent npre) (children npre)).
  assert (∀ a0 m0 c0 q nq, maps w !! a0 = Some m0 → m0 !! c0 = Some q →
            (nodes w ++ [L]) !! q = Some nq → nodes w !! q = Some nq) as Hnode.
  { intros a0 m0 c0 q nq Hm0 Hq Hnq.
    destruct (wf_entry w Hwf a0 m0 c0 q Hm0 Hq) as (_ & nq0 & _ & Hnq0 & _).
    by rewrite (lookup_snoc_old _ L _ _ Hnq0) in Hnq; injection Hnq as <-. }
  constructor; cbn [nodes maps trie].
  - exists n0. split; [by apply lookup_snoc_old | done].
  - intros a0 m0 c0 q nq Hm0 Hq Hnq.
    destruct (entry_after_assign _ app mpp (code npre) _ a0 m0 c0 q Hmpp Hm0 Hq)
      as [(-> & -> & ->) | (_ & m1 & Hm1 & Hq1)].
    + rewrite lookup_snoc_new in Hnq. injection Hnq as <-.
      destruct (Hpar app mpp (code npre) pre npre Hmpp Hentry Hpre)
        as (pp' & npp' & Hpp' & Hnpp' & Hc' & Hd').
      exists pp', npp'. split; [done |]. split; [by apply lookup_snoc_old | done].
    + pose proof (Hnode _ _ _ _ _ Hm1 Hq1 Hnq) as Hnq'.
      destruct (Hpar a0 m1 c0 q nq Hm1 Hq1 Hnq') as (pp' & npp' & ? & ? & ? & ?).
      exists pp', npp'. split; [done |]. split; [by apply lookup_snoc_old | done].
  - intros a1 m1 c1 q1 n1 a2 m2 c2 q2 n2 Hm1 Hq1 Hn1 Hm2 Hq2 Hn2 Hch.
    destruct (entry_after_assign _ app mpp (code npre) _ a1 m1 c1 q1 Hmpp Hm1 Hq1)
      as [(-> & -> & ->) | (_ & m1' & Hm1' & Hq1')];
    destruct (entry_after_assign _ app mpp (code npre) _ a2 m2 c2 q2 Hmpp Hm2 Hq2)
      as [(-> & -> & ->) | (_ & m2' & Hm2' & Hq2')]; [done | | |].
    + rewrite lookup_snoc_new in Hn1. injection Hn1 as <-.
      pose proof (Hnode _ _ _ _ _ Hm2' Hq2' Hn2) as Hn2'.
      by apply (Huni app mpp (code npre) pre npre a2 m2' c2 q2 n2).
    + rewrite lookup_snoc_new in Hn2. injection Hn2 as <-.
      pose proof (Hnode _ _ _ _ _ Hm1' Hq1' Hn1) as Hn1'.
      by apply (Huni a1 m1' c1 q1 n1 app mpp (code npre) pre npre).
    + apply (Huni a1 m1' c1 q1 n1 a2 m2' c2 q2 n2); try done.
      * by apply (Hnode a1 m1' c1).
      * by apply (Hnode a2 m2' c2).
  - intros x nx y ny Hx Hy Hch.
    apply lookup_snoc_Some in Hx as [Hx | [-> ->]];
      apply lookup_snoc_Some in Hy as [Hy | [-> ->]]; [| | | done].
    + by apply (Hver x nx y ny).
    + by apply (Hver x nx pre npre).
    + by apply (Hver pre npre y ny).
  - intros a0 m0 c0 q nq x nx Hm0 Hq Hnq Hx Hch Ht.
    destruct (entry_after_assign _ app mpp (code npre) _ a0 m0 c0 q Hmpp Hm0 Hq)
      as [(-> & -> & ->) | (Hne & m1 & Hm1 & Hq1)].
    + rewrite lookup_snoc_new in Hnq. injection Hnq as <-.
      apply lookup_snoc_Some in Hx as [Hx | [-> ->]]; [| done].
      by apply (Hterm app mpp (code npre) pre npre x nx).
    + pose proof (Hnode _ _ _ _ _ Hm1 Hq1 Hnq) as Hnq'.
      apply lookup_snoc_Some in Hx as [Hx | [-> ->]].
      * by apply (Hterm a0 m1 c0 q nq x nx).
      * destruct (Huni app mpp (code npre) pre npre a0 m1 c0 q nq) as [E1 E2];
          try done. destruct Hne as [Hne | Hne]; by destruct Hne.
Qed.

End Links_preserved.

Section Walks.
Context {V : Type}.
Implicit Types (w : World V).

Lemma walk_nil w : walk w [] = Ok (Some (root (trie w))).
Proof. done. Qed.

Lemma findNode_step w x (nx : Node V) a m c :
  nodes w !! x = Some nx → children nx = Some a → maps w !! a = Some m →
  ∀ s, findNode w (Some x) (c :: s)
       = match m !! c with
         | Some q => findNode w (Some q) s
         | None => Ok None
         end.
Proof.
  intros Hx Ha Hm s. cbn [findNode]. rewrite Hx. unfold map_of.
  rewrite Ha. cbv beta iota. by rewrite Hm.
Qed.

Lemma walk_snoc w t c :
  walk w (t ++ [c])
  = match walk w t with
    | Ok (Some x) => findNode w (Some x) [c]
    | other => other
    end.
Proof. unfold walk. by rewrite findNode_app. Qed.

Lemma walk_app w t s :
  walk w (t ++ s)
  = match walk w t with
    | Ok (Some x) => findNode w (Some x) s
    | other => other
    end.
Proof. unfold walk. by rewrite findNode_app. Qed.

Lemma walk_wf w s :
  wf w → ∃ r, walk w s = Ok r ∧ ∀ q, r = Some q → is_Some (nodes w !! q).
Proof.
  intros Hwf. apply findNode_wf; [done |].
  destruct (wf_root w Hwf) as (-> & n0 & -> & _). by eexists.
Qed.

(** The last step of a walk that arrives. *)
Lemma walk_snoc_Some w t c q :
  wf w → walk w (t ++ [c]) = Ok (Some q) →
  ∃ x nx a m, walk w t = Ok (Some x) ∧ nodes w !! x = Some nx
              ∧ children nx = Some a ∧ maps w !! a = Some m ∧ m !! c = Some q.
Proof.
  intros Hwf. rewrite walk_snoc.
  destruct (walk_wf w t Hwf) as (r & -> & Hr).
  destruct r as [x |]; [| done]. destruct (Hr x eq_refl) as [nx Hx].
  destruct (wf_map_of w x nx Hwf Hx) as (a & m & Ha & Hm & _).
  rewrite (findNode_step w x nx a m c Hx Ha Hm). intros Hq.
  destruct (m !! c) as [q' |] eqn:Hc; [| done]. injection Hq as ->.
  by exists x, nx, a, m.
Qed.

(** Two walks that arrive at copies of one node follow the same path. *)
Lemma walk_inj w :
  wf w → linked w →
  ∀ s1 s2 q1 q2 (n1 n2 : Node V),
    walk w s1 = Ok (Some q1) → walk w s2 = Ok (Some q2) →
    nodes w !! q1 = Some n1 → nodes w !! q2 = Some n2 →
    children n1 = children n2 → s1 = s2.
Proof.
  intros Hwf Hl.
  destruct (wf_root w Hwf) as (Hroot & _).
  destruct (link_root w Hl) as (n0 & Hn0 & _ & Hc0 & _).
  assert (∀ t c q (nq : Node V) q0 (nq0 : Node V),
            walk w (t ++ [c]) = Ok (Some q) → nodes w !! q = Some nq →
            walk w [] = Ok (Some q0) → nodes w !! q0 = Some nq0 →
            children nq = children nq0 → False) as Hroot_not_entry.
  { intros t c q nq q0 nq0 Hq Hnq H0 Hnq0 Hch.
    rewrite walk_nil, Hroot in H0. injection H0 as <-.
    rewrite Hn0 in Hnq0. injection Hnq0 as <-.
    destruct (walk_snoc_Some w t c q Hwf Hq) as (x & nx & a & m & _ & _ & _ & Hm & Hc).
    destruct (wf_entry w Hwf a m c q Hm Hc) as (_ & nq' & a' & Hnq' & _ & Ha' & Hlt).
    rewrite Hnq in Hnq'. injection Hnq' as <-. rewrite Hch, Hc0 in Ha'.
    injection Ha' as <-. lia. }
  induction s1 as [| c1 t1 IH] using rev_ind;
    intros s2 q1 q2 n1 n2 H1 H2 Hn1 Hn2 Hch;
    destruct s2 as [| c2 t2 _] using rev_ind; [done | | |].
  - destruct (Hroot_not_entry t2 c2 q2 n2 q1 n1); done.
  - destruct (Hroot_not_entry t1 c1 q1 n1 q2 n2); done.
  - destruct (walk_snoc_Some w t1 c1 q1 Hwf H1)
      as (x1 & nx1 & a1 & m1 & Ht1 & Hx1 & Ha1 & Hm1 & Hc1).
    destruct (walk_snoc_Some w t2 c2 q2 Hwf H2)
      as (x2 & nx2 & a2 & m2 & Ht2 & Hx2 & Ha2 & Hm2 & Hc2).
    destruct (link_unique w Hl a1 m1 c1 q1 n1 a2 m2 c2 q2 n2) as [-> ->]; try done.
    f_equal. apply (IH t2 x1 x2 nx1 nx2); try done. congruence.
Qed.

(** Two different paths arrive at different node objects. *)
Lemma walk_inj_node w s1 s2 q :
  wf w → linked w →
  walk w s1 = Ok (Some q) → walk w s2 = Ok (Some q) → s1 = s2.
Proof.
  intros Hwf Hl H1 H2.
  destruct (walk_wf w s1 Hwf) as (r & Hr & Hsome). rewrite H1 in Hr.
  injection Hr as <-. destruct (Hsome q eq_refl) as [n Hn].
  by apply (walk_inj w Hwf Hl s1 s2 q q n n).
Qed.

(** *** Walks after a change of the world *)

Lemma findNode_below w w' a :
  wf w → keeps_nodes w w' → keeps_maps_but w w' (Some a) →
  ∀ s x x' (nx nx' : Node V) ax,
    nodes w !! x = Some nx → nodes w' !! x' = Some nx' →
    children nx = Some ax → children nx' = Some ax → (a < ax)%nat →
    s ≠ [] →
    findNode w' (Some x') s = findNode w (Some x) s.
Proof.
  intros Hwf Hn Hm.
  induction s as [| c s IH]; intros x x' nx nx' ax Hx Hx' Hax Hax' Hlt Hs; [done |].
  destruct (wf_map_of w x nx Hwf Hx) as (ax0 & m & Hax0 & Hmx & _).
  rewrite Hax in Hax0. injection Hax0 as <-.
  rewrite (findNode_step w x nx ax m c Hx Hax Hmx).
  rewrite (findNode_step w' x' nx' ax m c Hx' Hax').
  2:{ apply Hm; [done |]. intros [= ->]. lia. }
  destruct (m !! c) as [q |] eqn:Hq; [| done].
  destruct (wf_entry w Hwf ax m c q Hmx Hq) as (_ & nq & aq & Hnq & _ & Haq & Hltq).
  destruct (Hn q nq Hnq) as (nq' & Hnq' & Hch').
  destruct s as [| c' s']; [done |].
  apply (IH q q nq nq' aq); try done; [congruence | lia].
Qed.

Lemma walk_keep w w' a (m m' : gmap Z nat) π o (no : Node V) :
  wf w → linked w → keeps_nodes w w' → keeps_maps_but w w' (Some a) →
  root (trie w') = root (trie w) →
  maps w !! a = Some m → maps w' !! a = Some m' →
  walk w π = Ok (Some o) → nodes w !! o = Some no → children no = Some a →
  ∀ s, (∀ c rest, s = π ++ c :: rest → m' !! c = m !! c) →
       walk w' s = walk w s.
Proof.
  intros Hwf Hl Hn Hm Hroot Ha Ha' Hπ Ho Hoa.
  induction s as [| c t IH] using rev_ind; intros Hs.
  { unfold walk. by rewrite Hroot. }
  rewrite !walk_snoc. rewrite IH.
  2:{ intros c0 rest ->. apply (Hs c0 (rest ++ [c])). by rewrite <- app_assoc. }
  destruct (walk_wf w t Hwf) as (r & Hr & Hsome). rewrite Hr.
  destruct r as [x |]; [| done]. destruct (Hsome x eq_refl) as [nx Hx].
  destruct (wf_map_of w x nx Hwf Hx) as (ax & mx & Hax & Hmx & _).
  destruct (Hn x nx Hx) as (nx' & Hx' & Hch'). rewrite Hax in Hch'.
  rewrite (findNode_step w x nx ax mx c Hx Hax Hmx).
  destruct (decide (ax = a)) as [-> | Hne].
  - assert (t = π) as ->.
    { apply (walk_inj w Hwf Hl t π x o nx no); try done. congruence. }
    rewrite Ha in Hmx. injection Hmx as <-.
    rewrite (findNode_step w' x nx' a m' c Hx' Hch' Ha').
    by rewrite (Hs c []).
  - rewrite (findNode_step w' x nx' ax mx c Hx' Hch'); [done |].
    apply Hm; [done | congruence].
Qed.

(** The same when no map changes. *)
Lemma walk_keep_all w w' :
  wf w → keeps_nodes w w' → keeps_maps_but w w' None →
  root (trie w') = root (trie w) →
  ∀ s, walk w' s = walk w s.
Proof.
  intros Hwf Hn Hm Hroot.
  induction s as [| c t IH] using rev_ind.
  { unfold walk. by rewrite Hroot. }
  rewrite !walk_snoc, IH.
  destruct (walk_wf w t Hwf) as (r & Hr & Hsome). rewrite Hr.
  destruct r as [x |]; [| done]. destruct (Hsome x eq_refl) as [nx Hx].
  destruct (wf_map_of w x nx Hwf Hx) as (ax & mx & Hax & Hmx & _).
  destruct (Hn x nx Hx) as (nx' & Hx' & Hch'). rewrite Hax in Hch'.
  rewrite (findNode_step w x nx ax mx c Hx Hax Hmx).
  rewrite (findNode_step w' x nx' ax mx c Hx' Hch'); [done |].
  by apply Hm.
Qed.

End Walks.

Section Walks_grow.
Context {V : Type}.
Implicit Types (w : World V).

Lemma linked_store_fresh w p (n n' : Node V) :
  linked w → nodes w !! p = Some n → sole_owner w p →
  code n' = code n → children n' = children n → parent n' = parent n →
  depth n' = depth n →
  linked (mkWorld (<[p := n']> (nodes w)) (maps w) (trie w)).
Proof.
  intros Hl Hp Hsole Hc Hch Hpa Hd.
  apply (linked_store w p n n'); try done.
  intros a m c q nq x nx Hm Hq Hnq Hnx Hsame Ht.
  apply list_lookup_insert_Some in Hnq as [(<- & <- & _) | [Hqp Hnq]];
    apply list_lookup_insert_Some in Hnx as [(Hxp & <- & _) | [Hxp Hnx]]; try done.
  - exfalso. apply Hxp. symmetry. apply (Hsole n x nx); congruence.
  - exfalso. apply Hqp. symmetry. apply (Hsole n q nq); congruence.
  - by apply (link_term w Hl a m c q nq x nx).
Qed.

Lemma linked_store_entry w p (n n' : Node V) a m c :
  linked w → nodes w !! p = Some n →
  maps w !! a = Some m → m !! c = Some p →
  code n' = code n → children n' = children n → parent n' = parent n →
  depth n' = depth n → term n' = false →
  linked (mkWorld (<[p := n']> (nodes w)) (maps w) (trie w)).
Proof.
  intros Hl Hp Hm Hc Hcode Hch Hpa Hd Hterm.
  apply (linked_store w p n n'); try done.
  intros a0 m0 c0 q nq x nx Hm0 Hq Hnq Hnx Hsame Ht.
  apply list_lookup_insert_Some in Hnq as [(<- & <- & _) | [Hqp Hnq]];
    [congruence |].
  apply list_lookup_insert_Some in Hnx as [(Hxp & <- & _) | [Hxp Hnx]].
  - exfalso.
    destruct (link_unique w Hl a m c p n a0 m0 c0 q nq) as [-> ->]; try done;
      congruence.
  - by apply (link_term w Hl a0 m0 c0 q nq x nx).
Qed.

Lemma adds_walks_refl w : adds_walks w w.
Proof. intros s. by left. Qed.

Lemma adds_walks_trans w1 w2 w3 :
  nodes w1 `prefix_of` nodes w2 → nodes w2 `prefix_of` nodes w3 →
  adds_walks w1 w2 → adds_walks w2 w3 → adds_walks w1 w3.
Proof.
  intros H12 H23 A12 A23 s.
  destruct (A23 s) as [E23 | (N2 & q & nq & Hq & Hnq & Ht & Hge)];
    destruct (A12 s) as [E12 | (N1 & q' & nq' & Hq' & Hnq' & Ht' & Hge')].
  - left. congruence.
  - right. split; [done |]. exists q', nq'. split; [congruence |].
    split; [by apply (prefix_lookup_Some _ _ _ _ Hnq' H23) | done].
  - right. split; [congruence |]. exists q, nq. split; [done |].
    split; [done |]. split; [done |]. apply prefix_length in H12. lia.
  - congruence.
Qed.

(** The walks of the world [NewChildNode] leaves. *)
Lemma new_child_walk w π node (nd : Node V) a m e v tm :
  wf w → linked w → walk w π = Ok (Some node) →
  nodes w !! node = Some nd → children nd = Some a → maps w !! a = Some m →
  m !! e = None →
  let w1 := mkWorld
              (nodes w ++ [mkNode e tm (depth nd + 1) v (Some node)
                                  (Some (length (maps w)))])
              (<[a := <[e := length (nodes w)]> m]> (maps w ++ [∅]))
              (trie w) in
  walk w1 (π ++ [e]) = Ok (Some (length (nodes w)))
  ∧ (∀ c rest, walk w1 ((π ++ [e]) ++ c :: rest) = Ok None)
  ∧ (∀ rest, walk w ((π ++ [e]) ++ rest) = Ok None)
  ∧ (∀ s, ¬ (π ++ [e]) `prefix_of` s → walk w1 s = walk w s)
  ∧ sole_owner w1 (length (nodes w)).
Proof.
  intros Hwf Hl Hπ Hnd Ha Hm He w1.
  pose proof (lookup_lt_Some _ _ _ Hm) as Halt.
  assert (keeps_nodes w w1) as Hkn.
  { intros p n Hp. exists n. split; [by apply lookup_snoc_old | done]. }
  assert (keeps_maps_but w w1 (Some a)) as Hkm.
  { intros b mb Hb Hne. cbn [maps w1].
    rewrite list_lookup_insert_ne by congruence. by apply lookup_snoc_old. }
  assert (maps w1 !! a = Some (<[e := length (nodes w)]> m)) as Ha1.
  { cbn [maps w1]. apply list_lookup_insert_eq. rewrite length_app. cbn. lia. }
  assert (maps w1 !! length (maps w) = Some ∅) as Hnew.
  { cbn [maps w1]. rewrite list_lookup_insert_ne by lia. apply lookup_snoc_new. }
  assert (∀ s, ¬ (π ++ [e]) `prefix_of` s → walk w1 s = walk w s) as Hkeep.
  { intros s Hs. apply (walk_keep w w1 a m (<[e := length (nodes w)]> m) π node nd); try done.
    intros c rest ->. apply lookup_insert_ne. intros <-. apply Hs.
    exists rest. by rewrite <- app_assoc. }
  assert (walk w1 π = Ok (Some node)) as Hπ1.
  { rewrite Hkeep; [done |]. intros [k Hk]. apply (f_equal length) in Hk.
    rewrite !length_app in Hk. cbn in Hk. lia. }
  assert (walk w1 (π ++ [e]) = Ok (Some (length (nodes w)))) as Hstep.
  { rewrite walk_snoc, Hπ1.
    rewrite (findNode_step w1 node nd a (<[e := length (nodes w)]> m) e);
      [| by apply lookup_snoc_old | done | done].
    by rewrite lookup_insert_eq. }
  split; [done |]. split; [| split; [| split; [done |]]].
  - intros c rest. rewrite walk_app, Hstep.
    by rewrite (findNode_step w1 _ _ (length (maps w)) ∅ c
                  (lookup_snoc_new _ _) eq_refl Hnew).
  - intros rest. rewrite walk_app, walk_snoc, Hπ.
    rewrite (findNode_step w node nd a m e Hnd Ha Hm). by rewrite He.
  - intros n x nx Hn Hx Hch. cbn [nodes w1] in Hn, Hx.
    rewrite lookup_snoc_new in Hn. injection Hn as <-. cbn [children] in Hch.
    apply lookup_snoc_Some in Hx as [Hx | [-> _]]; [| done].
    destruct (wf_children w Hwf x nx Hx) as (ax & Hax & Hlt).
    rewrite Hax in Hch. injection Hch as ->. lia.
Qed.

Lemma insert_loop_walk fuel :
  ∀ rest node pre w π,
    wf w → linked w → walk w π = Ok (Some node) → (length rest ≤ fuel)%nat →
    ∃ r w',
      insert_loop fuel rest node pre w = Ok (r, w')
      ∧ wf w' ∧ linked w' ∧ trie w' = trie w
      ∧ nodes w `prefix_of` nodes w'
      ∧ adds_walks w w'
      ∧ (r = None ↔ ∀ rs, ¬ decodes rest rs)
      ∧ ∀ node' pre', r = Some (node', pre') →
          ∃ rs, decodes rest rs ∧ walk w' (π ++ rs) = Ok (Some node')
            ∧ ((rs = [] ∧ w' = w ∧ pre' = pre)
               ∨ (rs ≠ [] ∧ w' = w ∧ pre' = Some node')
               ∨ (rs ≠ [] ∧ pre' = None ∧ walk w (π ++ rs) = Ok None
                  ∧ sole_owner w' node' ∧ (length (nodes w) ≤ node')%nat
                  ∧ ∃ nd, nodes w' !! node' = Some nd
                          ∧ term nd = false ∧ value nd = None)).
Proof.
  induction fuel as [| fuel IH]; intros rest node pre w π Hwf Hl Hπ Hfuel.
  all: destruct rest as [| c rest'];
    [ exists (Some (node, pre)), w; cbn;
      split; [done |]; split; [done |]; split; [done |]; split; [done |];
      split; [done |]; split; [apply adds_walks_refl |];
      split; [ split; [done | intros Hno; exfalso; apply (Hno []); constructor] |];
      intros node' pre' [= <- <-]; exists [];
      split; [constructor |]; rewrite app_nil_r; split; [done |]; by left
    | ].
  { cbn in Hfuel. lia. }
  cbn [insert_loop].
  destruct (utf8.DecodeRune (c :: rest')) as [e sz] eqn:Hd.
  destruct (Z.eqb_spec e utf8.RuneError) as [-> | He].
  { exists None, w. split; [done |]. split; [done |]. split; [done |].
    split; [done |]. split; [done |]. split; [apply adds_walks_refl |].
    split; [| done]. split; [| done]. intros _ rs Hrs.
    inversion Hrs as [| ? e' n' rs' _ Hd' He' _]; subst. congruence. }
  destruct (DecodeRune_storable _ _ _ Hd He) as (Hst & _ & _ & Hsz).
  assert (length (drop sz (c :: rest')) ≤ fuel)%nat as Hfuel'
    by (rewrite length_drop; cbn [length] in *; lia).
  pose proof (decodes_step (c :: rest') e sz ltac:(done) Hd He) as Hstep.
  destruct (walk_wf w π Hwf) as (r0 & Hr0 & Hsome0). rewrite Hπ in Hr0.
  injection Hr0 as <-. destruct (Hsome0 node eq_refl) as [nd Hnd].
  destruct (wf_map_of w node nd Hwf Hnd) as (a & m & Ha & Hm & Hof).
  erewrite bind_run by (by apply load_run). cbv beta.
  erewrite bind_run by (by apply map_read_run). cbv beta.
  destruct (m !! e) as [q |] eqn:Hq.
  - assert (walk w (π ++ [e]) = Ok (Some q)) as Hπ'.
    { rewrite walk_snoc, Hπ, (findNode_step w node nd a m e Hnd Ha Hm).
      by rewrite Hq. }
    destruct (IH (drop sz (c :: rest')) q (Some q) w (π ++ [e]) Hwf Hl Hπ' Hfuel')
      as (r & w' & Hrun & Hwf' & Hl' & Htrie & Hpre & Hadd & Hnone & Hsome).
    exists r, w'. split; [done |]. split; [done |]. split; [done |].
    split; [done |]. split; [done |]. split; [done |].
    split; [by rewrite Hnone, Hstep |].
    intros node' pre' Hr.
    destruct (Hsome node' pre' Hr) as (rs & Hrs & Hw & Hcase).
    exists (e :: rs). split; [by apply (decodes_cons _ e sz) |].
    rewrite <- app_assoc in Hw. cbn [app] in Hw. split; [done |].
    destruct Hcase as [(-> & -> & ->) | [(Hne & -> & ->) | (Hne & -> & Hcase)]].
    + right; left. split; [done |]. split; [done |].
      rewrite Hπ' in Hw. by injection Hw as ->.
    + right; left. done.
    + right; right. split; [done |]. split; [done |].
      by rewrite <- app_assoc in Hcase.
  - erewrite bind_run by (by apply (NewChildNode_run w node nd a m)). cbv beta.
    pose proof (wf_new_child w node nd a m e None false Hwf Hnd Ha Hm Hst) as Hwf1.
    pose proof (linked_new_child w node nd a m e None false Hl Hwf Hnd Ha Hm) as Hl1.
    destruct (new_child_walk w π node nd a m e None false Hwf Hl Hπ Hnd Ha Hm Hq)
      as (Hπ1 & Hbelow1 & Hbelow & Hkeep & Hsole).
    match goal with
    | |- ∃ r w', insert_loop _ _ _ _ ?w0 = _ ∧ _ =>
        set (w1 := w0) in *
    end.
    assert (nodes w `prefix_of` nodes w1) as Hpre1 by (by eexists).
    assert (adds_walks w w1) as Hadd1.
    { intros s. destruct (decide ((π ++ [e]) `prefix_of` s)) as [[k ->] | Hn];
        [| left; by apply Hkeep].
      destruct k as [| c0 k].
      - right. split; [apply Hbelow |]. rewrite app_nil_r.
        eexists _, _. split; [exact Hπ1 |].
        split; [apply lookup_snoc_new |]. cbn. done.
      - left. by rewrite Hbelow1, Hbelow. }
    destruct (IH (drop sz (c :: rest')) (length (nodes w)) None w1 (π ++ [e])
                Hwf1 Hl1 Hπ1 Hfuel')
      as (r & w' & Hrun & Hwf' & Hl' & Htrie & Hpre & Hadd & Hnone & Hsome).
    exists r, w'. split; [done |]. split; [done |]. split; [done |].
    split; [done |]. split; [by etrans |].
    split; [by apply (adds_walks_trans w w1 w') |].
    split; [by rewrite Hnone, Hstep |].
    intros node' pre' Hr.
    destruct (Hsome node' pre' Hr) as (rs & Hrs & Hw & Hcase).
    exists (e :: rs). split; [by apply (decodes_cons _ e sz) |].
    split; [by rewrite <- app_assoc in Hw |].
    right; right. split; [done |].
    assert (walk w (π ++ e :: rs) = Ok None) as Hnone0.
    { specialize (Hbelow rs). by rewrite <- app_assoc in Hbelow. }
    destruct Hcase as [(-> & -> & ->) | [(Hne & -> & ->) | (Hne & -> & Hcase)]].
    + split; [done |]. split; [done |].
      rewrite app_nil_r, Hπ1 in Hw. injection Hw as <-.
      split; [done |]. split; [done |].
      eexists. split; [apply lookup_snoc_new |]. done.
    + exfalso. destruct rs as [| c0 rs]; [done |].
      rewrite Hbelow1 in Hw. done.
    + split; [done |]. split; [done |].
      destruct Hcase as (_ & Hsole' & Hge & Hnd').
      split; [done |]. split; [| done].
      apply prefix_length in Hpre1. lia.
Qed.

End Walks_grow.

Section Insert_walks.
Context {V : Type}.
Implicit Types (w : World V).

Lemma decodes_nil_inv key : decodes key [] → key = [].
Proof. by inversion 1. Qed.

Lemma decodes_nonempty key rs : decodes key rs → key ≠ [] → rs ≠ [].
Proof. intros H Hk ->. by apply Hk, decodes_nil_inv. Qed.

Lemma findNode_trie w t p s :
  findNode (mkWorld (nodes w) (maps w) t) p s = findNode w p s.
Proof.
  revert p. induction s as [| c s IH]; intros [p |]; try done.
  cbn [findNode nodes]. destruct (nodes w !! p) as [n |]; [| done].
  unfold map_of. cbn [maps]. destruct (children n) as [a |]; [| done].
  destruct (maps w !! a) as [m |]; [| done].
  destruct (m !! c); [apply IH | done].
Qed.

Lemma walk_trie w t s :
  root t = root (trie w) → walk (mkWorld (nodes w) (maps w) t) s = walk w s.
Proof. intros H. unfold walk. cbn [trie]. by rewrite H, findNode_trie. Qed.

Lemma walk_root w : wf w → walk w [] = Ok (Some 0%nat).
Proof. intros Hwf. rewrite walk_nil. by destruct (wf_root w Hwf) as (-> & _). Qed.

(** A key that does not decode, or the empty key: nothing but nodes that end
    no key is added. *)
Lemma ReplaceOrInsert_nothing w key v :
  wf w → linked w → (∀ rs, decodes key rs → rs = []) →
  ∃ w', ReplaceOrInsert key v w = Ok (None, w')
        ∧ wf w' ∧ linked w' ∧ trie w' = trie w
        ∧ nodes w `prefix_of` nodes w' ∧ adds_walks w w'.
Proof.
  intros Hwf Hl Hno. destruct key as [| c key'].
  { exists w. split; [done |]. split; [done |]. split; [done |].
    split; [done |]. split; [done |]. apply adds_walks_refl. }
  unfold ReplaceOrInsert.
  erewrite bind_run by reflexivity. cbv beta.
  destruct (insert_loop_walk (length (c :: key')) (c :: key') (root (trie w)) None
              w [] Hwf Hl (walk_nil w) ltac:(done))
    as (r0 & w1 & Hrun & Hwf1 & Hl1 & Htrie & Hpre & Hadd & Hnone & Hsome).
  erewrite bind_run by exact Hrun. cbv beta.
  destruct r0 as [[node pre] |].
  - destruct (Hsome node pre eq_refl) as (rs & Hrs & _).
    apply Hno in Hrs as Hnil. subst rs. by apply decodes_nil_inv in Hrs.
  - by exists w1.
Qed.

(** A key whose path is not in the trie. *)
Lemma ReplaceOrInsert_absent w key v rs :
  wf w → linked w → decodes key rs → walk w rs = Ok None →
  ∃ w' node nd,
    ReplaceOrInsert key v w = Ok (None, w')
    ∧ wf w' ∧ linked w'
    ∧ trie w' = mkTrie (root (trie w)) (size (trie w) + 1)
    ∧ walk w' rs = Ok (Some node) ∧ nodes w' !! node = Some nd
    ∧ term nd = true ∧ value nd = v
    ∧ (∀ p n, nodes w !! p = Some n → nodes w' !! p = Some n)
    ∧ ∀ s, s ≠ rs →
        walk w' s = walk w s
        ∨ (walk w s = Ok None
           ∧ ∃ q nq, walk w' s = Ok (Some q) ∧ nodes w' !! q = Some nq
                     ∧ term nq = false).
Proof.
  intros Hwf Hl Hrs Hnone0.
  destruct key as [| c key'].
  { inversion Hrs; subst; [by rewrite walk_nil in Hnone0 | done]. }
  unfold ReplaceOrInsert.
  erewrite bind_run by reflexivity. cbv beta.
  destruct (insert_loop_walk (length (c :: key')) (c :: key') (root (trie w)) None
              w [] Hwf Hl (walk_nil w) ltac:(done))
    as (r0 & w1 & Hrun & Hwf1 & Hl1 & Htrie & Hpre & Hadd & Hnone & Hsome).
  erewrite bind_run by exact Hrun. cbv beta.
  destruct r0 as [[node pre] |]; [| exfalso; by apply (proj1 Hnone eq_refl rs)].
  destruct (Hsome node pre eq_refl) as (rs' & Hrs' & Hw & Hcase).
  rewrite (decodes_inj _ _ _ Hrs' Hrs) in *. clear Hrs' rs'. cbn [app] in *.
  destruct Hcase as [(-> & _) | [(Hne & -> & ->) | (Hne & -> & _ & Hsole & Hge & nd & Hnd & Ht & Hv)]].
  { by apply decodes_nil_inv in Hrs. }
  { congruence. }
  destruct (wf_root w Hwf) as (Hroot & n0 & Hn0 & _).
  pose proof (lookup_lt_Some _ _ _ Hn0) as Hlen.
  pose proof (lookup_lt_Some _ _ _ Hnd) as Hlt.
  erewrite bind_run by (by apply load_run). cbv beta.
  erewrite bind_run by (by apply (store_run w1 node nd)). cbv beta.
  erewrite bind_run
    by (apply load_run; cbn [nodes]; by apply list_lookup_insert_eq).
  cbv beta.
  erewrite bind_run
    by (eapply store_run; cbn [nodes]; by apply list_lookup_insert_eq).
  cbv beta. cbn [nodes maps trie].
  unfold bind, size_incr, ret. cbn [nodes maps trie].
  rewrite list_insert_insert_eq.
  set (nd' := set_term true (set_value v nd)).
  set (w2 := mkWorld (<[node := nd']> (nodes w1)) (maps w1) (trie w1)).
  assert (wf w2) as Hwf2 by (apply (wf_store w1 node nd); try done; lia).
  assert (linked w2) as Hl2 by (by apply (linked_store_fresh w1 node nd)).
  assert (∀ s, walk w2 s = walk w1 s) as Hsame.
  { apply walk_keep_all; try done.
    - intros p n Hp. destruct (decide (p = node)) as [-> | Hneq].
      + exists nd'. cbn [nodes w2]. rewrite list_lookup_insert_eq by done.
        rewrite Hnd in Hp. by injection Hp as <-.
      + exists n. cbn [nodes w2]. by rewrite list_lookup_insert_ne.
    - by intros b mb Hb _. }
  exists (mkWorld (nodes w2) (maps w2) (mkTrie (root (trie w2)) (size (trie w2) + 1))),
    node, nd'.
  split; [reflexivity |].
  split; [by apply (wf_size w2) |].
  split; [by apply (linked_size w2) |].
  split; [cbn [trie w2]; by rewrite Htrie |].
  assert (∀ s, walk (mkWorld (nodes w2) (maps w2)
                       (mkTrie (root (trie w2)) (size (trie w2) + 1))) s
               = walk w1 s) as Hsame'.
  { intros s. by rewrite walk_trie, Hsame. }
  split; [by rewrite Hsame' |].
  cbn [nodes w2].
  split; [by apply list_lookup_insert_eq |]. split; [done |]. split; [done |].
  split.
  - intros p n Hp. rewrite list_lookup_insert_ne.
    + by apply (prefix_lookup_Some _ _ _ _ Hp Hpre).
    + apply lookup_lt_Some in Hp. lia.
  - intros s Hs. rewrite Hsame'.
    destruct (Hadd s) as [E | (N & q & nq & Hq & Hnq & Htq & Hgeq)]; [by left |].
    right. split; [done |]. exists q, nq. split; [done |]. split; [| done].
    rewrite list_lookup_insert_ne; [done |].
    intros <-. apply Hs. by apply (walk_inj_node w1 s rs node).
Qed.

(** A key whose path is in the trie: the node at its end is replaced by a
    copy that holds the new value. *)
Lemma ReplaceOrInsert_present w key v rs q (nq : Node V) :
  wf w → linked w → key ≠ [] → decodes key rs →
  walk w rs = Ok (Some q) → nodes w !! q = Some nq →
  ∃ w',
    ReplaceOrInsert key v w = Ok (Some q, w')
    ∧ wf w' ∧ linked w' ∧ trie w' = trie w
    ∧ nodes w' = nodes w ++ [mkNode (code nq) (term nq) (depth nq) v
                                    (parent nq) (children nq)]
    ∧ walk w' rs = Ok (Some (length (nodes w)))
    ∧ ∀ s, s ≠ rs → walk w' s = walk w s.
Proof.
  intros Hwf Hl Hkey Hrs Hq Hnq.
  destruct key as [| c0 key']; [done |].
  unfold ReplaceOrInsert.
  erewrite bind_run by reflexivity. cbv beta.
  destruct (insert_loop_walk (length (c0 :: key')) (c0 :: key') (root (trie w)) None
              w [] Hwf Hl (walk_nil w) ltac:(done))
    as (r0 & w1 & Hrun & Hwf1 & Hl1 & Htrie & Hpre & Hadd & Hnone & Hsome).
  erewrite bind_run by exact Hrun. cbv beta.
  destruct r0 as [[node pre] |]; [| exfalso; by apply (proj1 Hnone eq_refl rs)].
  destruct (Hsome node pre eq_refl) as (rs' & Hrs' & Hw & Hcase).
  rewrite (decodes_inj _ _ _ Hrs' Hrs) in *. clear Hrs' rs'. cbn [app] in *.
  destruct Hcase as [(-> & _) | [(Hne & -> & ->) | (Hne & -> & ? & _)]];
    [by apply decodes_nil_inv in Hrs | | congruence].
  rewrite Hq in Hw. injection Hw as <-.
  destruct rs as [| c π _] using rev_ind; [done |].
  destruct (walk_snoc_Some w π c q Hwf Hq) as (x & nx & a & m & Hπ & Hx & Ha & Hm & Hc).
  destruct (wf_entry w Hwf a m c q Hm Hc) as (Hst & nq' & a' & Hnq' & Hcode & Ha' & Hlt).
  rewrite Hnq in Hnq'. injection Hnq' as <-.
  destruct (link_parent w Hl a m c q nq Hm Hc Hnq) as (pp & npp & Hpp & Hnpp & Happ & _).
  erewrite bind_run by (by apply load_run). cbv beta.
  erewrite bind_run by reflexivity. cbv beta.
  erewrite bind_run by (apply load_run; apply lookup_snoc_new). cbv beta.
  cbn [parent code]. rewrite Hpp.
  erewrite bind_run
    by (eapply (ReplaceOrInsertChildNode_run _ pp npp a m);
        cbn [nodes maps];
        [by apply lookup_snoc_old | apply lookup_snoc_new | done | done]).
  cbv beta. cbn [nodes maps trie code]. rewrite <- Hpp.
  set (w' := mkWorld _ _ _).
  pose proof (lookup_lt_Some _ _ _ Hm) as Halt.
  assert (keeps_nodes w w') as Hkn.
  { intros p n Hp. exists n. split; [by apply lookup_snoc_old | done]. }
  assert (keeps_maps_but w w' (Some a)) as Hkm.
  { intros b mb Hb Hneq. cbn [maps w']. rewrite list_lookup_insert_ne by congruence.
    done. }
  assert (maps w' !! a = Some (<[code nq := length (nodes w)]> m)) as Ha1.
  { cbn [maps w']. by apply list_lookup_insert_eq. }
  assert (∀ s, ¬ (π ++ [c]) `prefix_of` s → walk w' s = walk w s) as Hkeep.
  { intros s Hs.
    apply (walk_keep w w' a m (<[code nq := length (nodes w)]> m) π x nx); try done.
    intros c' rest ->. apply lookup_insert_ne. rewrite Hcode. intros <-. apply Hs.
    exists rest. by rewrite <- app_assoc. }
  assert (walk w' π = Ok (Some x)) as Hπ1.
  { rewrite Hkeep; [done |]. intros [k Hk]. apply (f_equal length) in Hk.
    rewrite !length_app in Hk. cbn in Hk. lia. }
  assert (walk w' (π ++ [c]) = Ok (Some (length (nodes w)))) as Hstep.
  { rewrite walk_snoc, Hπ1.
    rewrite (findNode_step w' x nx a (<[code nq := length (nodes w)]> m) c);
      [| by apply lookup_snoc_old | done | done].
    by rewrite Hcode, lookup_insert_eq. }
  exists w'. split; [done |].
  split; [apply (wf_replace w q nq v pp npp a m); try done; by rewrite Hcode |].
  split; [apply (linked_replace w q nq v pp npp a m); try done; by rewrite Hcode |].
  split; [done |]. split; [done |]. split; [done |].
  intros s Hs.
  destruct (decide ((π ++ [c]) `prefix_of` s)) as [[k ->] | Hn]; [| by apply Hkeep].
  destruct k as [| c1 k]; [by rewrite app_nil_r in Hs |].
  rewrite (walk_app w' (π ++ [c])), (walk_app w (π ++ [c])), Hstep, Hq.
  eapply (findNode_below w w' a Hwf Hkn Hkm (c1 :: k) q (length (nodes w)) nq _ a');
    [done | cbn [nodes w']; apply lookup_snoc_new | done | done | done | done].
Qed.

End Insert_walks.

Section Delete_walks.
Context {V : Type}.
Implicit Types (w : World V).

Lemma drops_walks_refl w : drops_walks w w.
Proof. intros s. by left. Qed.

Lemma drops_walks_trans w1 w2 w3 :
  nodes w2 = nodes w1 →
  drops_walks w1 w2 → drops_walks w2 w3 → drops_walks w1 w3.
Proof.
  intros Hn D12 D23 s.
  destruct (D23 s) as [E23 | (N3 & q & nq & Hq & Hnq & Ht)];
    destruct (D12 s) as [E12 | (N2 & q' & nq' & Hq' & Hnq' & Ht')].
  - left. congruence.
  - right. split; [congruence |]. by exists q', nq'.
  - right. split; [done |]. exists q, nq. split; [congruence |].
    split; [congruence | done].
  - congruence.
Qed.

(** The walks of the world [RemoveChild] leaves, when the removed node has
    no child. *)
Lemma remove_child_walk w π x (nx : Node V) a m c q (nq : Node V) :
  wf w → linked w → walk w π = Ok (Some x) →
  nodes w !! x = Some nx → children nx = Some a → maps w !! a = Some m →
  m !! c = Some q → nodes w !! q = Some nq → map_of w (children nq) = Ok ∅ →
  let w1 := mkWorld (nodes w) (<[a := delete c m]> (maps w)) (trie w) in
  walk w1 (π ++ [c]) = Ok None
  ∧ ∀ s, s ≠ π ++ [c] → walk w1 s = walk w s.
Proof.
  intros Hwf Hl Hπ Hx Ha Hm Hc Hq Hempty w1.
  pose proof (lookup_lt_Some _ _ _ Hm) as Halt.
  assert (keeps_nodes w w1) as Hkn by (intros p n Hp; by exists n).
  assert (keeps_maps_but w w1 (Some a)) as Hkm.
  { intros b mb Hb Hne. cbn [maps w1]. by rewrite list_lookup_insert_ne by congruence. }
  assert (maps w1 !! a = Some (delete c m)) as Ha1.
  { cbn [maps w1]. by apply list_lookup_insert_eq. }
  assert (∀ s, ¬ (π ++ [c]) `prefix_of` s → walk w1 s = walk w s) as Hkeep.
  { intros s Hs. apply (walk_keep w w1 a m (delete c m) π x nx); try done.
    intros c' rest ->. apply lookup_delete_ne. intros <-. apply Hs.
    exists rest. by rewrite <- app_assoc. }
  assert (walk w1 π = Ok (Some x)) as Hπ1.
  { rewrite Hkeep; [done |]. intros [k Hk]. apply (f_equal length) in Hk.
    rewrite !length_app in Hk. cbn in Hk. lia. }
  assert (walk w1 (π ++ [c]) = Ok None) as Hstep.
  { rewrite walk_snoc, Hπ1.
    rewrite (findNode_step w1 x nx a (delete c m) c); [| done | done | done].
    by rewrite lookup_delete_eq. }
  split; [done |]. intros s Hs.
  destruct (decide ((π ++ [c]) `prefix_of` s)) as [[k ->] | Hn]; [| by apply Hkeep].
  destruct k as [| c1 k]; [by rewrite app_nil_r in Hs |].
  rewrite (walk_app w1 (π ++ [c])), (walk_app w (π ++ [c])), Hstep.
  rewrite walk_snoc, Hπ, (findNode_step w x nx a m c Hx Ha Hm), Hc.
  cbn [findNode]. by rewrite Hq, Hempty.
Qed.

Lemma size_zero_empty (m : gmap Z nat) :
  (0 <? Z.of_nat (base.size m)) = false → m = ∅.
Proof. intros H. apply map_size_empty_iff. apply Z.ltb_ge in H. lia. Qed.

(** The pruning loop, started at a copy [pp] of the node at the end of [π]. *)
Lemma prune_loop_walk fuel :
  ∀ w π x (nx : Node V) pp (npp : Node V),
    wf w → linked w → walk w π = Ok (Some x) → nodes w !! x = Some nx →
    nodes w !! pp = Some npp → children npp = children nx → (pp < fuel)%nat →
    ∃ w', prune_loop fuel (Some pp) w = Ok (tt, w')
          ∧ wf w' ∧ linked w' ∧ trie w' = trie w ∧ nodes w' = nodes w
          ∧ drops_walks w w'.
Proof.
  induction fuel as [| fuel IH]; intros w π x nx pp npp Hwf Hl Hπ Hx Hpp Hch Hlt;
    [lia |].
  cbn [prune_loop].
  erewrite bind_run by (by apply load_run). cbv beta.
  destruct (term npp) eqn:Hterm.
  { exists w. split; [done |]. split; [done |]. split; [done |]. split; [done |].
    split; [done |]. apply drops_walks_refl. }
  destruct (wf_map_of w pp npp Hwf Hpp) as (a & m & Ha & Hm & Hof).
  erewrite bind_run by (by apply map_read_run). cbv beta.
  destruct (0 <? Z.of_nat (base.size m)) eqn:Hsize.
  { exists w. split; [done |]. split; [done |]. split; [done |]. split; [done |].
    split; [done |]. apply drops_walks_refl. }
  apply size_zero_empty in Hsize. subst m.
  destruct (link_version w Hl pp npp x nx Hpp Hx Hch) as (Hcode & Hparent & _).
  destruct (parent npp) as [gp |] eqn:Hgp.
  2:{ erewrite bind_run by reflexivity. cbv beta.
      exists w. split; [by destruct fuel |]. split; [done |]. split; [done |].
      split; [done |]. split; [done |]. apply drops_walks_refl. }
  destruct π as [| c0 π0 _] using rev_ind.
  { exfalso. rewrite (walk_root w Hwf) in Hπ. injection Hπ as <-.
    destruct (link_root w Hl) as (n0 & Hn0 & Hp0 & _).
    rewrite Hx in Hn0. injection Hn0 as <-. congruence. }
  destruct (walk_snoc_Some w π0 c0 x Hwf Hπ)
    as (x0 & nx0 & a0 & m0 & Hπ0 & Hx0 & Ha0 & Hm0 & Hc0).
  destruct (link_parent w Hl a0 m0 c0 x nx Hm0 Hc0 Hx)
    as (gp' & ngp & Hgp' & Hngp & Hagp & _).
  assert (gp' = gp) as -> by congruence.
  destruct (wf_entry w Hwf a0 m0 c0 x Hm0 Hc0) as (_ & nx' & _ & Hnx' & Hcx & _).
  rewrite Hx in Hnx'. injection Hnx' as <-.
  assert (term nx = false) as Htx.
  { destruct (term nx) eqn:E; [| done].
    pose proof (link_term w Hl a0 m0 c0 x nx pp npp Hm0 Hc0 Hx Hpp Hch E). congruence. }
  erewrite bind_run by (by apply (RemoveChild_run w gp ngp a0 m0)). cbv beta.
  rewrite Hcode, Hcx.
  pose proof (wf_delete w a0 m0 c0 Hwf Hm0) as Hwf1.
  pose proof (linked_delete w a0 m0 c0 Hl Hm0) as Hl1.
  destruct (remove_child_walk w π0 x0 nx0 a0 m0 c0 x nx Hwf Hl Hπ0 Hx0 Ha0 Hm0 Hc0 Hx)
    as (Hgone & Hkeep).
  { by rewrite <- Hch. }
  destruct (wf_parent w Hwf pp npp gp Hpp Hgp) as (Hgplt & _).
  match goal with
  | |- ∃ w', prune_loop _ _ ?w0 = _ ∧ _ => set (w1 := w0) in *
  end.
  destruct (IH w1 π0 x0 nx0 gp ngp Hwf1 Hl1) as (w' & Hrun & Hwf' & Hl' & Htrie & Hnodes & Hdrop);
    [ rewrite Hkeep; [done |]; intros Hk; apply (f_equal length) in Hk;
      rewrite length_app in Hk; cbn in Hk; lia
    | done | done | congruence | lia |].
  exists w'. split; [done |]. split; [done |]. split; [done |]. split; [done |].
  split; [done |].
  apply (drops_walks_trans w w1 w'); [done | | done].
  intros s. destruct (decide (s = π0 ++ [c0])) as [-> | Hne]; [| left; by apply Hkeep].
  right. split; [done |]. by exists x, nx.
Qed.

(** [Delete] of a path that ends at a node that ends no key. *)
Lemma Delete_no_key w key q (nq : Node V) :
  walk w (parseTextToRunes key) = Ok (Some q) → nodes w !! q = Some nq →
  term nq = false →
  Delete key w = Ok (None, w).
Proof.
  intros Hq Hnq Ht. unfold Delete. unfold walk in Hq. rewrite Hq.
  erewrite bind_run by (by apply load_run). cbv beta. by rewrite Ht.
Qed.

(** [Delete] of a path that ends at a node that ends a key. *)
Lemma Delete_key w key q (nq : Node V) :
  wf w → linked w →
  walk w (parseTextToRunes key) = Ok (Some q) → nodes w !! q = Some nq →
  term nq = true →
  ∃ w' nq',
    Delete key w = Ok (Some q, w')
    ∧ wf w' ∧ linked w'
    ∧ trie w' = mkTrie (root (trie w)) (size (trie w) + -1)
    ∧ (∀ p, p ≠ q → nodes w' !! p = nodes w !! p)
    ∧ nodes w' !! q = Some nq'
    ∧ (nq' = nq ∨ nq' = set_term false nq)
    ∧ (walk w' (parseTextToRunes key) = Ok None
       ∨ (walk w' (parseTextToRunes key) = Ok (Some q) ∧ term nq' = false))
    ∧ ∀ s, s ≠ parseTextToRunes key →
        walk w' s = walk w s
        ∨ (walk w' s = Ok None
           ∧ ∃ q0 nq0, walk w s = Ok (Some q0) ∧ nodes w !! q0 = Some nq0
                       ∧ term nq0 = false).
Proof.
  intros Hwf Hl Hq Hnq Ht. unfold Delete.
  set (rs := parseTextToRunes key) in *.
  pose proof Hq as Hq'. unfold walk in Hq'. rewrite Hq'.
  erewrite bind_run by (by apply load_run). cbv beta. rewrite Ht.
  erewrite bind_run by reflexivity. cbv beta.
  set (w0 := mkWorld (nodes w) (maps w) (mkTrie (root (trie w)) (size (trie w) + -1))).
  pose proof (wf_size w (-1) Hwf) as Hwf0.
  pose proof (linked_size w (mkTrie (root (trie w)) (size (trie w) + -1)) Hl) as Hl0.
  assert (∀ s, walk w0 s = walk w s) as Hw0 by (intros s; by apply walk_trie).
  fold w0 in Hwf0, Hl0.
  assert (nodes w0 !! q = Some nq) as Hnq0 by done.
  destruct (wf_map_of w0 q nq Hwf0 Hnq0) as (aq & mq & Haq & Hmq & Hof).
  erewrite bind_run by (by apply map_read_run). cbv beta.
  (* the node is not the root *)
  destruct rs as [| c π _] using rev_ind.
  { exfalso. rewrite (walk_root w Hwf) in Hq. injection Hq as <-.
    destruct (wf_root w Hwf) as (_ & n0 & Hn0 & Ht0).
    rewrite Hnq in Hn0. injection Hn0 as <-. congruence. }
  rewrite <- Hw0 in Hq.
  destruct (walk_snoc_Some w0 π c q Hwf0 Hq)
    as (x & nx & a & m & Hπ & Hx & Ha & Hm & Hc).
  destruct (0 <? Z.of_nat (base.size mq)) eqn:Hsize.
  - (* we just flag the term *)
    erewrite bind_run by (by apply (store_run w0 q nq)). cbv beta.
    unfold ret.
    set (w' := mkWorld (<[q := set_term false nq]> (nodes w0)) (maps w0) (trie w0)).
    pose proof (lookup_lt_Some _ _ _ Hnq0) as Hlt.
    assert (∀ s, walk w' s = walk w0 s) as Hsame.
    { apply walk_keep_all; try done.
      - intros p n Hp. destruct (decide (p = q)) as [-> | Hneq].
        + exists (set_term false nq). cbn [nodes w'].
          rewrite list_lookup_insert_eq by done.
          rewrite Hnq0 in Hp. by injection Hp as <-.
        + exists n. cbn [nodes w']. by rewrite list_lookup_insert_ne.
      - by intros b mb Hb _. }
    exists w', (set_term false nq). split; [done |].
    split; [by apply (wf_store w0 q nq) |].
    split; [by apply (linked_store_entry w0 q nq (set_term false nq) a m c) |].
    split; [done |].
    split; [intros p Hp; cbn [nodes w']; by rewrite list_lookup_insert_ne |].
    split; [cbn [nodes w']; by apply list_lookup_insert_eq |].
    split; [by right |].
    split; [right; by rewrite Hsame |].
    intros s _. left. by rewrite Hsame, Hw0.
  - (* no children node, we need delete from parent node *)
    apply size_zero_empty in Hsize. subst mq.
    destruct (link_parent w0 Hl0 a m c q nq Hm Hc Hnq0)
      as (pp & npp & Hpp & Hnpp & Happ & _).
    destruct (wf_entry w0 Hwf0 a m c q Hm Hc) as (_ & nq' & _ & Hnq' & Hcq & _).
    rewrite Hnq0 in Hnq'. injection Hnq' as <-.
    rewrite Hpp.
    pose proof (wf_delete w0 a m c Hwf0 Hm) as Hwf1.
    pose proof (linked_delete w0 a m c Hl0 Hm) as Hl1.
    destruct (remove_child_walk w0 π x nx a m c q nq Hwf0 Hl0 Hπ Hx Ha Hm Hc Hnq0 Hof)
      as (Hgone & Hkeep).
    set (w1 := mkWorld (nodes w0) (<[a := delete c m]> (maps w0)) (trie w0)) in *.
    destruct (prune_loop_walk (length (nodes w1)) w1 π x nx pp npp Hwf1 Hl1)
      as (w' & Hrun & Hwf' & Hl' & Htrie & Hnodes & Hdrop);
      [ rewrite Hkeep; [done |]; intros Hk; apply (f_equal length) in Hk;
        rewrite length_app in Hk; cbn in Hk; lia
      | done | done | congruence | by apply (lookup_lt_Some _ _ _ Hnpp) |].
    erewrite bind_run.
    2:{ erewrite bind_run by (by apply (RemoveChild_run w0 pp npp a m)).
        cbv beta. rewrite Hcq. exact Hrun. }
    cbv beta. unfold ret.
    exists w', nq. split; [done |]. split; [done |]. split; [done |].
    split; [by rewrite Htrie |].
    split; [intros p _; by rewrite Hnodes |].
    split; [by rewrite Hnodes |].
    split; [by left |].
    split.
    + left. destruct (Hdrop (π ++ [c])) as [E | [E _]]; [congruence | done].
    + intros s Hs.
      destruct (Hdrop s) as [E | (E & q0 & nq0 & Hq0 & Hnq0' & Ht0)].
      * left. by rewrite E, Hkeep, Hw0.
      * right. split; [done |]. exists q0, nq0. rewrite Hkeep, Hw0 in Hq0 by done.
        done.
Qed.

End Delete_walks.

Section Reachable_links.
Context {V : Type}.
Implicit Types (w : World V).

Lemma decodes_nil_only rs : decodes [] rs → rs = [].
Proof. by inversion 1. Qed.

Lemma ReplaceOrInsert_linked w key v :
  wf w → linked w →
  ∃ r w', ReplaceOrInsert key v w = Ok (r, w') ∧ wf w' ∧ linked w'.
Proof.
  intros Hwf Hl.
  destruct (decodes_dec key) as [[rs Hrs] | Hno].
  - destruct (decide (key = [])) as [-> | Hkey].
    { destruct (ReplaceOrInsert_nothing w [] v Hwf Hl decodes_nil_only)
        as (w' & Hrun & Hwf' & Hl' & _).
      by exists None, w'. }
    destruct (walk_wf w rs Hwf) as ([q |] & Hq & Hsome).
    + destruct (Hsome q eq_refl) as [nq Hnq].
      destruct (ReplaceOrInsert_present w key v rs q nq Hwf Hl Hkey Hrs Hq Hnq)
        as (w' & Hrun & Hwf' & Hl' & _).
      by exists (Some q), w'.
    + destruct (ReplaceOrInsert_absent w key v rs Hwf Hl Hrs Hq)
        as (w' & node & nd & Hrun & Hwf' & Hl' & _).
      by exists None, w'.
  - destruct (ReplaceOrInsert_nothing w key v Hwf Hl) as (w' & Hrun & Hwf' & Hl' & _).
    { intros rs Hrs. by destruct (Hno rs). }
    by exists None, w'.
Qed.

Lemma Delete_linked w key r w' :
  wf w → linked w → Delete key w = Ok (r, w') → wf w' ∧ linked w'.
Proof.
  intros Hwf Hl Hrun.
  destruct (walk_wf w (parseTextToRunes key) Hwf) as ([q |] & Hq & Hsome).
  - destruct (Hsome q eq_refl) as [nq Hnq].
    destruct (term nq) eqn:Ht.
    + destruct (Delete_key w key q nq Hwf Hl Hq Hnq Ht)
        as (w1 & nq' & Hrun1 & Hwf1 & Hl1 & _).
      rewrite Hrun in Hrun1. by injection Hrun1 as _ ->.
    + rewrite (Delete_no_key w key q nq Hq Hnq Ht) in Hrun.
      by injection Hrun as _ <-.
  - unfold Delete in Hrun. unfold walk in Hq. by rewrite Hq in Hrun.
Qed.

Lemma reachable_linked w : reachable w → wf w ∧ linked w.
Proof.
  induction 1 as [| w w' _ [Hwf Hl] Hstep]; [split; [apply wf_NewTrie | apply linked_NewTrie] |].
  destruct Hstep as [key v w r w' Hrun | key w r w' Hrun].
  - destruct (ReplaceOrInsert_linked w key v Hwf Hl) as (r' & w'' & Hrun' & Hwf' & Hl').
    rewrite Hrun in Hrun'. by injection Hrun' as _ ->.
  - by apply (Delete_linked w key r w').
Qed.

(** *** [Find] and [HasKeysWithPrefix] along the walk *)

Lemma Find_walk w key :
  Find w key
  = match walk w (parseTextToRunes key) with
    | Ok None => Ok (None, false)
    | Ok (Some p) =>
      match nodes w !! p with
      | None => Undef
      | Some node =>
        if negb (term node) then Ok (None, false)
        else Ok (Some (snapshot node), true)
      end
    | Panic => Panic
    | Undef => Undef
    end.
Proof. done. Qed.

Lemma HasKeysWithPrefix_walk w key :
  HasKeysWithPrefix w key
  = match walk w (parseTextToRunes key) with
    | Ok node => Ok (bool_decide (node ≠ None))
    | Panic => Panic
    | Undef => Undef
    end.
Proof. done. Qed.

Lemma Find_found w key (n : Node V) :
  Find w key = Ok (Some n, true) →
  ∃ q nq, walk w (parseTextToRunes key) = Ok (Some q) ∧ nodes w !! q = Some nq
          ∧ term nq = true ∧ n = snapshot nq.
Proof.
  rewrite Find_walk.
  destruct (walk w (parseTextToRunes key)) as [[q |] | |]; try done.
  destruct (nodes w !! q) as [nq |] eqn:Hnq; [| done].
  destruct (term nq) eqn:Ht; cbn [negb]; [| done].
  intros [= <-]. by exists q, nq.
Qed.

Lemma Find_at w key q (nq : Node V) :
  walk w (parseTextToRunes key) = Ok (Some q) → nodes w !! q = Some nq →
  Find w key = if term nq then Ok (Some (snapshot nq), true) else Ok (None, false).
Proof. intros Hq Hnq. rewrite Find_walk, Hq, Hnq. by destruct (term nq). Qed.

Lemma Find_nowhere w key :
  walk w (parseTextToRunes key) = Ok None → Find w key = Ok (None, false).
Proof. intros Hq. by rewrite Find_walk, Hq. Qed.

Lemma HasKeysWithPrefix_true w key :
  wf w → HasKeysWithPrefix w key = Ok true →
  ∃ q nq, walk w (parseTextToRunes key) = Ok (Some q) ∧ nodes w !! q = Some nq.
Proof.
  intros Hwf. rewrite HasKeysWithPrefix_walk.
  destruct (walk_wf w (parseTextToRunes key) Hwf) as ([q |] & -> & Hsome).
  - destruct (Hsome q eq_refl) as [nq Hnq]. by exists q, nq.
  - intros H. by injection H as H.
Qed.

Lemma HasKeysWithPrefix_false w key :
  HasKeysWithPrefix w key = Ok false →
  walk w (parseTextToRunes key) = Ok None.
Proof.
  rewrite HasKeysWithPrefix_walk.
  by destruct (walk w (parseTextToRunes key)) as [[q |] | |].
Qed.

(** A key with a non-empty path decodes to it. *)
Lemma parsed_decodes key :
  parseTextToRunes key ≠ [] → decodes key (parseTextToRunes key) ∧ key ≠ [].
Proof.
  intros Hne. destruct (decodes_dec key) as [[rs Hrs] | Hno].
  - rewrite (parseTextToRunes_decodes key rs Hrs). split; [done |].
    intros ->. apply Hne. by rewrite (parseTextToRunes_decodes [] rs Hrs),
      (decodes_nil_only rs Hrs).
  - by rewrite (parseTextToRunes_reject key Hno) in Hne.
Qed.

(** Different keys have different paths, unless both have the empty path. *)
Lemma parsed_inj key1 key2 :
  parseTextToRunes key1 = parseTextToRunes key2 → parseTextToRunes key1 ≠ [] →
  key1 = key2.
Proof.
  intros Heq Hne.
  destruct (parsed_decodes key1 Hne) as [H1 _].
  destruct (parsed_decodes key2) as [H2 _]; [by rewrite <- Heq |].
  apply decodes_text in H1 as [<- _]. apply decodes_text in H2 as [<- _].
  by rewrite Heq.
Qed.

(** The node at the end of a path: its depth and its code. *)
Lemma walk_depth w :
  wf w → linked w →
  ∀ s q (nq : Node V),
    walk w s = Ok (Some q) → nodes w !! q = Some nq →
    depth nq = Z.of_nat (length s).
Proof.
  intros Hwf Hl. induction s as [| c t IH] using rev_ind; intros q nq Hq Hnq.
  - rewrite (walk_root w Hwf) in Hq. injection Hq as <-.
    destruct (link_root w Hl) as (n0 & Hn0 & _ & _ & Hd).
    rewrite Hnq in Hn0. by injection Hn0 as <-.
  - destruct (walk_snoc_Some w t c q Hwf Hq) as (x & nx & a & m & Ht & Hx & Ha & Hm & Hc).
    destruct (link_parent w Hl a m c q nq Hm Hc Hnq) as (pp & npp & _ & Hnpp & Happ & Hd).
    destruct (link_version w Hl pp npp x nx Hnpp Hx) as (_ & _ & Hdx); [congruence |].
    rewrite Hd, Hdx, (IH x nx Ht Hx), length_app. cbn. lia.
Qed.

Lemma walk_code w s c q (nq : Node V) :
  wf w → walk w (s ++ [c]) = Ok (Some q) → nodes w !! q = Some nq →
  code nq = c.
Proof.
  intros Hwf Hq Hnq.
  destruct (walk_snoc_Some w s c q Hwf Hq) as (x & nx & a & m & _ & _ & _ & Hm & Hc).
  destruct (wf_entry w Hwf a m c q Hm Hc) as (_ & nq' & _ & Hnq' & Hcode & _).
  rewrite Hnq in Hnq'. by injection Hnq' as <-.
Qed.

End Reachable_links.

Section Found.
Context {V : Type}.
Implicit Types (w : World V).

Lemma Find_found_at w key :
  wf w →
  Find w key = match found_at w (parseTextToRunes key) with
               | Some n => Ok (Some n, true)
               | None => Ok (None, false)
               end.
Proof.
  intros Hwf. rewrite Find_walk. unfold found_at.
  destruct (walk_wf w (parseTextToRunes key) Hwf) as ([q |] & -> & Hsome); [| done].
  destruct (Hsome q eq_refl) as [nq ->]. by destruct (term nq).
Qed.

Lemma found_at_nil w : wf w → found_at w [] = None.
Proof.
  intros Hwf. unfold found_at. rewrite (walk_root w Hwf).
  destruct (wf_root w Hwf) as (_ & n0 & -> & ->). done.
Qed.

Lemma found_at_Some w s (n : Node V) :
  found_at w s = Some n ↔
  ∃ q nq, walk w s = Ok (Some q) ∧ nodes w !! q = Some nq ∧ term nq = true
          ∧ n = snapshot nq.
Proof.
  unfold found_at. split.
  - destruct (walk w s) as [[q |] | |]; try done.
    destruct (nodes w !! q) as [nq |] eqn:Hnq; [| done].
    destruct (term nq) eqn:Ht; [| done]. intros [= <-]. by exists q, nq.
  - intros (q & nq & -> & -> & -> & ->). done.
Qed.

Lemma found_at_ends_key w s :
  is_Some (found_at w s) ↔ ends_key w (root (trie w)) s.
Proof.
  split.
  - intros [n (q & nq & Hq & Hnq & Ht & _)%found_at_Some]. by exists q, nq.
  - intros (q & nq & Hq & Hnq & Ht). exists (snapshot nq).
    apply found_at_Some. by exists q, nq.
Qed.

Lemma found_at_agree w w' s :
  walk w' s = walk w s →
  (∀ p, walk w s = Ok (Some p) → nodes w' !! p = nodes w !! p) →
  found_at w' s = found_at w s.
Proof.
  intros Hs Hn. unfold found_at. rewrite Hs.
  destruct (walk w s) as [[q |] | |]; try done. by rewrite (Hn q).
Qed.

Lemma found_at_added w w' s q (nq : Node V) :
  walk w s = Ok None → walk w' s = Ok (Some q) → nodes w' !! q = Some nq →
  term nq = false → found_at w' s = found_at w s.
Proof. intros H1 H2 H3 H4. unfold found_at. by rewrite H1, H2, H3, H4. Qed.

Lemma found_at_dropped w w' s q (nq : Node V) :
  walk w' s = Ok None → walk w s = Ok (Some q) → nodes w !! q = Some nq →
  term nq = false → found_at w' s = found_at w s.
Proof. intros H1 H2 H3 H4. unfold found_at. by rewrite H1, H2, H3, H4. Qed.

Lemma found_at_adds_walks w w' :
  wf w → nodes w `prefix_of` nodes w' → adds_walks w w' →
  ∀ s, found_at w' s = found_at w s.
Proof.
  intros Hwf Hpre Hadd s.
  destruct (Hadd s) as [E | (N & q & nq & Hq & Hnq & Ht & _)].
  - apply found_at_agree; [done |]. intros p Hp.
    destruct (walk_wf w s Hwf) as (r & Hr & Hsome). rewrite Hp in Hr.
    injection Hr as <-. destruct (Hsome p eq_refl) as [n Hn].
    rewrite Hn. by apply (prefix_lookup_Some _ _ _ _ Hn Hpre).
  - by apply (found_at_added w w' s q nq).
Qed.

(** A key with the empty path: the empty key, or one that does not decode. *)
Lemma parsed_nil key :
  parseTextToRunes key = [] → ∀ rs, decodes key rs → rs = [].
Proof. intros Hnil rs Hrs. by rewrite (parseTextToRunes_decodes key rs Hrs) in Hnil. Qed.

(** What [ReplaceOrInsert] does to the keys of the trie. *)
Lemma ReplaceOrInsert_found_at w key v r w' :
  wf w → linked w → ReplaceOrInsert key v w = Ok (r, w') →
  (∀ s, s ≠ parseTextToRunes key → found_at w' s = found_at w s)
  ∧ (∀ s q, walk w s = Ok (Some q) → ∃ q', walk w' s = Ok (Some q'))
  ∧ (parseTextToRunes key = [] →
     r = None ∧ size (trie w') = size (trie w)
     ∧ found_at w' [] = found_at w [])
  ∧ (parseTextToRunes key ≠ [] → walk w (parseTextToRunes key) = Ok None →
     r = None ∧ size (trie w') = size (trie w) + 1
     ∧ ∃ n, found_at w' (parseTextToRunes key) = Some n ∧ value n = v)
  ∧ (parseTextToRunes key ≠ [] →
     ∀ q, walk w (parseTextToRunes key) = Ok (Some q) →
     r = Some q ∧ size (trie w') = size (trie w)
     ∧ nodes w' !! q = nodes w !! q
     ∧ found_at w' (parseTextToRunes key)
       = set_value v <$> found_at w (parseTextToRunes key)).
Proof.
  intros Hwf Hl Hrun.
  destruct (decide (parseTextToRunes key = [])) as [Hnil | Hne].
  - destruct (ReplaceOrInsert_nothing w key v Hwf Hl (parsed_nil key Hnil))
      as (w1 & Hrun1 & Hwf1 & Hl1 & Htrie & Hpre & Hadd).
    rewrite Hrun in Hrun1. injection Hrun1 as -> ->.
    pose proof (found_at_adds_walks w w1 Hwf Hpre Hadd) as Hsame.
    split; [intros s _; apply Hsame |].
    split.
    { intros s q Hq. destruct (Hadd s) as [E | (N & _)]; [| congruence].
      exists q. by rewrite E. }
    split; [intros _; by rewrite Htrie, Hsame |].
    split; [done |]. done.
  - destruct (parsed_decodes key Hne) as [Hrs Hkey].
    set (rs := parseTextToRunes key) in *.
    destruct (walk_wf w rs Hwf) as ([q |] & Hq & Hsome).
    + destruct (Hsome q eq_refl) as [nq Hnq].
      destruct (ReplaceOrInsert_present w key v rs q nq Hwf Hl Hkey Hrs Hq Hnq)
        as (w1 & Hrun1 & Hwf1 & Hl1 & Htrie & Hnodes & Hnew & Hkeep).
      rewrite Hrun in Hrun1. injection Hrun1 as -> ->.
      assert (∀ p n, nodes w !! p = Some n → nodes w1 !! p = Some n) as Hold.
      { intros p n Hp. rewrite Hnodes. by apply lookup_snoc_old. }
      split.
      { intros s Hs. apply found_at_agree; [by apply Hkeep |]. intros p Hp.
        destruct (walk_wf w s Hwf) as (r & Hr & Hsome'). rewrite Hp in Hr.
        injection Hr as <-. destruct (Hsome' p eq_refl) as [n Hn].
        by rewrite Hn, (Hold p n Hn). }
      split.
      { intros s q' Hq'. destruct (decide (s = rs)) as [-> | Hs].
        - by eexists.
        - exists q'. by rewrite Hkeep. }
      split; [done |]. split; [congruence |].
      intros _ q' Hq'. rewrite Hq in Hq'. injection Hq' as <-.
      split; [done |]. split; [by rewrite Htrie |].
      split; [by rewrite Hnq, (Hold q nq Hnq) |].
      unfold found_at. rewrite Hnew, Hq, Hnq, Hnodes, lookup_snoc_new. cbn [term].
      destruct (term nq) eqn:Htq; [| done].
      cbn. unfold snapshot, set_value. cbn. by rewrite Htq.
    + destruct (ReplaceOrInsert_absent w key v rs Hwf Hl Hrs Hq)
        as (w1 & node & nd & Hrun1 & Hwf1 & Hl1 & Htrie & Hnew & Hnd & Ht & Hv
            & Hold & Hframe).
      rewrite Hrun in Hrun1. injection Hrun1 as -> ->.
      split.
      { intros s Hs.
        destruct (Hframe s Hs) as [E | (N & q0 & nq0 & Hq0 & Hnq0 & Ht0)].
        - apply found_at_agree; [done |]. intros p Hp.
          destruct (walk_wf w s Hwf) as (r & Hr & Hsome'). rewrite Hp in Hr.
          injection Hr as <-. destruct (Hsome' p eq_refl) as [n Hn].
          by rewrite Hn, (Hold p n Hn).
        - by apply (found_at_added w w1 s q0 nq0). }
      split.
      { intros s q' Hq'. destruct (decide (s = rs)) as [-> | Hs]; [congruence |].
        destruct (Hframe s Hs) as [E | (N & _)]; [| congruence].
        exists q'. by rewrite E. }
      split; [done |].
      split; [| intros _ q' ?; congruence].
      intros _ _. split; [done |]. split; [by rewrite Htrie |].
      exists (snapshot nd). split; [| done].
      apply found_at_Some. by exists node, nd.
Qed.

(** What [Delete] does to the keys of the trie. *)
Lemma Delete_found_at w key r w' :
  wf w → linked w → Delete key w = Ok (r, w') →
  (∀ s, s ≠ parseTextToRunes key → found_at w' s = found_at w s)
  ∧ found_at w' (parseTextToRunes key) = None
  ∧ (found_at w (parseTextToRunes key) = None → r = None ∧ w' = w)
  ∧ (∀ n, found_at w (parseTextToRunes key) = Some n →
       size (trie w') = size (trie w) - 1
       ∧ ∃ q nq', r = Some q ∧ walk w (parseTextToRunes key) = Ok (Some q)
                  ∧ nodes w' !! q = Some nq'
                  ∧ value nq' = value n ∧ code nq' = code n
                  ∧ depth nq' = depth n ∧ parent nq' = parent n).
Proof.
  intros Hwf Hl Hrun.
  set (rs := parseTextToRunes key) in *.
  destruct (walk_wf w rs Hwf) as ([q |] & Hq & Hsome).
  2:{ unfold Delete in Hrun. fold rs in Hrun. unfold walk in Hq.
      by rewrite Hq in Hrun. }
  destruct (Hsome q eq_refl) as [nq Hnq].
  destruct (term nq) eqn:Ht.
  - destruct (Delete_key w key q nq Hwf Hl Hq Hnq Ht)
      as (w1 & nq' & Hrun1 & Hwf1 & Hl1 & Htrie & Hother & Hnq' & Hcopy & Hgone & Hframe).
    rewrite Hrun in Hrun1. injection Hrun1 as -> ->. fold rs in Hgone, Hframe.
    split.
    { intros s Hs.
      destruct (Hframe s Hs) as [E | (N & q0 & nq0 & Hq0 & Hnq0 & Ht0)].
      - apply found_at_agree; [done |]. intros p Hp. apply Hother.
        intros ->. apply Hs. by apply (walk_inj_node w s rs q).
      - by apply (found_at_dropped w w1 s q0 nq0). }
    split.
    { unfold found_at. destruct Hgone as [-> | [-> Hf]]; [done |].
      by rewrite Hnq', Hf. }
    split.
    { unfold found_at. by rewrite Hq, Hnq, Ht. }
    intros n Hn. apply found_at_Some in Hn as (q0 & nq0 & Hq0 & Hnq0 & _ & ->).
    rewrite Hq in Hq0. injection Hq0 as <-. rewrite Hnq in Hnq0. injection Hnq0 as <-.
    split; [rewrite Htrie; cbn; lia |].
    exists q, nq'. split; [done |]. split; [done |]. split; [done |].
    by destruct Hcopy as [-> | ->].
  - rewrite (Delete_no_key w key q nq Hq Hnq Ht) in Hrun. injection Hrun as <- <-.
    split; [done |].
    assert (found_at w rs = None) as Hnone by (unfold found_at; by rewrite Hq, Hnq, Ht).
    split; [done |]. split; [done |]. intros n Hn. congruence.
Qed.

End Found.

Section Counting.
Context {V : Type}.
Implicit Types (w : World V).

Lemma keys_paths w :
  wf w →
  ∃ paths, Keys w = Ok (utf8_text <$> paths) ∧ NoDup paths
           ∧ ∀ s, s ∈ paths ↔ is_Some (found_at w s).
Proof.
  intros Hwf.
  destruct (PrefixSearch_Keys_iter w [] Hwf) as (paths & Hrun & Hs & _ & Hin).
  exists paths. split; [done |]. split; [by apply rune_lt_sorted_NoDup |].
  intros s. rewrite Hin, found_at_ends_key. split; [by intros [_ ?] |].
  intros ?. split; [apply prefix_nil | done].
Qed.

Lemma found_at_NewTrie s : found_at (V:=V) NewTrie s = None.
Proof. by destruct s. Qed.

Lemma counted_NewTrie : counted (V:=V) NewTrie.
Proof.
  intros paths _ Hin. destruct paths as [| s paths]; [done |].
  destruct (proj1 (Hin s)) as [n Hn]; [left |]. by rewrite found_at_NewTrie in Hn.
Qed.

Lemma counted_same w w' :
  (∀ s, is_Some (found_at w' s) ↔ is_Some (found_at w s)) →
  size (trie w') = size (trie w) → counted w → counted w'.
Proof.
  intros Hsame Hsize Hc paths Hnd Hin. rewrite Hsize. apply Hc; [done |].
  intros s. by rewrite Hin, Hsame.
Qed.

Lemma counted_add w w' rs :
  (∀ s, s ≠ rs → is_Some (found_at w' s) ↔ is_Some (found_at w s)) →
  found_at w rs = None → is_Some (found_at w' rs) →
  size (trie w') = size (trie w) + 1 → counted w → counted w'.
Proof.
  intros Hsame Hnone Hsome Hsize Hc paths Hnd Hin.
  assert (rs ∈ paths) as Hrs by (by apply Hin).
  apply list_elem_of_split in Hrs as (l1 & l2 & ->).
  apply NoDup_app in Hnd as (Hnd1 & Hdisj & Hnd2).
  apply NoDup_cons in Hnd2 as (Hnot2 & Hnd2).
  assert (rs ∉ l1) as Hnot1 by (intros ?; apply (Hdisj rs); [done | left]).
  rewrite Hsize, (Hc (l1 ++ l2)).
  - rewrite !length_app. cbn. lia.
  - apply NoDup_app. split; [done |]. split; [| done].
    intros x Hx1 Hx2. apply (Hdisj x Hx1). by right.
  - intros s. destruct (decide (s = rs)) as [-> | Hne].
    + rewrite Hnone. split; [| by intros [? ?]].
      intros [? | ?]%elem_of_app; done.
    + rewrite <- Hsame, <- Hin by done. rewrite !elem_of_app, elem_of_cons. tauto.
Qed.

Lemma counted_remove w w' rs :
  (∀ s, s ≠ rs → is_Some (found_at w' s) ↔ is_Some (found_at w s)) →
  is_Some (found_at w rs) → found_at w' rs = None →
  size (trie w') = size (trie w) - 1 → counted w → counted w'.
Proof.
  intros Hsame Hsome Hnone Hsize Hc paths Hnd Hin.
  assert (rs ∉ paths) as Hnot.
  { intros [n Hn]%Hin. congruence. }
  rewrite Hsize, (Hc (rs :: paths)).
  - cbn [length]. lia.
  - by apply NoDup_cons.
  - intros s. rewrite elem_of_cons. destruct (decide (s = rs)) as [-> | Hne].
    + tauto.
    + rewrite <- Hsame, <- Hin by done. tauto.
Qed.

Lemma reachable_counted w : reachable w → counted w.
Proof.
  induction 1 as [| w w' Hw IH Hstep]; [apply counted_NewTrie |].
  destruct (reachable_linked w Hw) as [Hwf Hl].
  destruct Hstep as [key v w r w' Hrun | key w r w' Hrun].
  - destruct (ReplaceOrInsert_found_at w key v r w' Hwf Hl Hrun)
      as (Hother & _ & Hnil & Habsent & Hpresent).
    destruct (decide (parseTextToRunes key = [])) as [E | Hne].
    + destruct (Hnil E) as (_ & Hsize & Hroot).
      apply (counted_same w w'); [| done | done].
      intros s. destruct (decide (s = [])) as [-> | Hs]; [by rewrite Hroot |].
      rewrite Hother; [done | congruence].
    + destruct (walk_wf w (parseTextToRunes key) Hwf) as ([q |] & Hq & _).
      * destruct (Hpresent Hne q Hq) as (_ & Hsize & _ & Hnew).
        apply (counted_same w w'); [| done | done].
        intros s. destruct (decide (s = parseTextToRunes key)) as [-> | Hs].
        -- rewrite Hnew. apply fmap_is_Some.
        -- by rewrite Hother.
      * destruct (Habsent Hne Hq) as (_ & Hsize & n & Hn & _).
        apply (counted_add w w' (parseTextToRunes key));
          [ intros s Hs; by rewrite Hother
          | unfold found_at; by rewrite Hq
          | by exists n
          | done
          | done ].
  - destruct (Delete_found_at w key r w' Hwf Hl Hrun)
      as (Hother & Hgone & Hnokey & Hkey).
    destruct (found_at w (parseTextToRunes key)) as [n |] eqn:Hn.
    + destruct (Hkey n eq_refl) as (Hsize & _).
      apply (counted_remove w w' (parseTextToRunes key));
        [ intros s Hs; by rewrite Hother
        | by rewrite Hn
        | done
        | done
        | done ].
    + destruct (Hnokey eq_refl) as [_ ->]. done.
Qed.

(** A key that extends a decodable key has a path that extends its path. *)
Lemma decodes_prefix rs :
  Forall storable rs →
  ∀ k rs2, decodes (utf8_text rs ++ k) rs2 → rs `prefix_of` rs2.
Proof.
  induction 1 as [| r rs [Hsc _] _ IH]; intros k rs2 Hd; [apply prefix_nil |].
  destruct (DecodeRune_encoding r (utf8_text rs ++ k) Hsc) as (Hdec & Hlen & _).
  change (utf8_text (r :: rs)) with (utf8.encoding r ++ utf8_text rs) in Hd.
  rewrite <- app_assoc in Hd.
  inversion Hd as [Hnil | p e n rs' _ Hd' He Hrest]; subst.
  { destruct (utf8.encoding r); [cbn in Hlen; lia | done]. }
  rewrite Hdec in Hd'. injection Hd' as <- <-.
  rewrite drop_app_length in Hrest.
  apply prefix_cons. by apply (IH k).
Qed.

End Counting.

Section Found_by_Find.
Context {V : Type}.
Implicit Types (w : World V).

Lemma Find_Some_iff w key (n : Node V) :
  wf w → Find w key = Ok (Some n, true) ↔ found_at w (parseTextToRunes key) = Some n.
Proof.
  intros Hwf. rewrite (Find_found_at w key Hwf).
  destruct (found_at w (parseTextToRunes key)); split; congruence.
Qed.

Lemma Find_None_iff w key :
  wf w → Find w key = Ok (None, false) ↔ found_at w (parseTextToRunes key) = None.
Proof.
  intros Hwf. rewrite (Find_found_at w key Hwf).
  destruct (found_at w (parseTextToRunes key)); split; congruence.
Qed.

Lemma Find_same w w' key :
  wf w → wf w' →
  found_at w' (parseTextToRunes key) = found_at w (parseTextToRunes key) →
  Find w' key = Find w key.
Proof.
  intros Hwf Hwf' Hsame.
  by rewrite (Find_found_at w key Hwf), (Find_found_at w' key Hwf'), Hsame.
Qed.

Lemma Keys_same w w' :
  wf w → wf w' →
  (∀ s, is_Some (found_at w' s) ↔ is_Some (found_at w s)) →
  Keys w' = Keys w.
Proof.
  intros Hwf Hwf' Hsame. unfold Keys.
  destruct (PrefixSearch_Keys_iter w [] Hwf) as (paths & -> & Hs & _ & Hin).
  destruct (PrefixSearch_Keys_iter w' [] Hwf') as (paths' & -> & Hs' & _ & Hin').
  f_equal. f_equal. apply rune_lt_sorted_unique; [done | done |].
  intros s. rewrite Hin, Hin', <- !found_at_ends_key, Hsame. done.
Qed.

Lemma decodes_length key rs : decodes key rs → (length rs ≤ length key)%nat.
Proof.
  induction 1 as [| p e n rs Hp Hd He _ IH]; [done |].
  destruct (DecodeRune_width p e n Hp Hd) as [H1 H2].
  rewrite length_drop in IH. cbn [length]. lia.
Qed.

Lemma Delete_runs w key q :
  wf w → linked w → walk w (parseTextToRunes key) = Ok (Some q) →
  ∃ r w', Delete key w = Ok (r, w').
Proof.
  intros Hwf Hl Hq.
  destruct (walk_wf w (parseTextToRunes key) Hwf) as (r & Hr & Hsome).
  rewrite Hq in Hr. injection Hr as <-. destruct (Hsome q eq_refl) as [nq Hnq].
  destruct (term nq) eqn:Ht.
  - destruct (Delete_key w key q nq Hwf Hl Hq Hnq Ht) as (w' & _ & Hrun & _).
    by eexists _, _.
  - rewrite (Delete_no_key w key q nq Hq Hnq Ht). by eexists _, _.
Qed.

End Found_by_Find.

Ltac reached ms :=
  apply (run_all_reachable ms) with (w := NewTrie);
  [ repeat match goal with |- Forall _ _ => constructor end;
    first [apply ins_is_call | apply del_is_call]
  | apply reachable_NewTrie
  | by_running ].

(** ** The key codec *)

(** X1.  [parseTextToRunes] returns Unicode scalar values other than
    U+FFFD only, and no more of them than the key has bytes. *)
Theorem parseTextToRunes_yields_scalar_values (key : list byte) :
  Forall storable (parseTextToRunes key)
  ∧ (length (parseTextToRunes key) ≤ length key)%nat.
Proof.
  split; [apply parseTextToRunes_storable |].
  destruct (decodes_dec key) as [[rs Hrs] | Hno].
  - rewrite (parseTextToRunes_decodes key rs Hrs). by apply decodes_length.
  - rewrite (parseTextToRunes_reject key Hno). cbn. lia.
Qed.

(** X2.  Round trip from bytes: when [parseTextToRunes] returns code points
    for a key, [parseRunesToText] returns the key for them, without a
    panic. *)
Theorem parseRunesToText_inverts_parseTextToRunes (key : list byte) :
  parseTextToRunes key ≠ [] →
  parseRunesToText (parseTextToRunes key) = Ok key.
Proof.
  intros Hne. destruct (parsed_decodes key Hne) as [Hrs _].
  apply decodes_text in Hrs as [Htext Hst].
  rewrite parseRunesToText_scalar; [by rewrite Htext |].
  eapply Forall_impl; [exact Hst |]. by intros r [? _].
Qed.

Lemma parseRunesToText_inverts_parseTextToRunes_witness :
  parseTextToRunes [x68; xc3; xa9; xe4; xb8; x96] ≠ []
  ∧ parseRunesToText (parseTextToRunes [x68; xc3; xa9; xe4; xb8; x96])
    = Ok [x68; xc3; xa9; xe4; xb8; x96].
Proof.
  assert (parseTextToRunes [x68; xc3; xa9; xe4; xb8; x96] ≠ []) as Hne
    by (vm_compute; discriminate).
  split; [exact Hne |].
  exact (parseRunesToText_inverts_parseTextToRunes _ Hne).
Defined.

(** X3.  Round trip from code points: for Unicode scalar values other than
    U+FFFD, [parseRunesToText] returns a key, without a panic, and
    [parseTextToRunes] returns the code points for that key. *)
Theorem parseTextToRunes_inverts_parseRunesToText (runes : list Z) :
  Forall storable runes →
  ∃ key, parseRunesToText runes = Ok key ∧ parseTextToRunes key = runes.
Proof.
  intros Hst. exists (utf8_text runes). split; [| by apply parse_utf8_text].
  apply parseRunesToText_scalar.
  eapply Forall_impl; [exact Hst |]. by intros r [? _].
Qed.

Lemma parseTextToRunes_inverts_parseRunesToText_witness :
  Forall storable [104; 233; 19990; 128512]
  ∧ ∃ key, parseRunesToText [104; 233; 19990; 128512] = Ok key
           ∧ parseTextToRunes key = [104; 233; 19990; 128512].
Proof.
  assert (Forall storable [104; 233; 19990; 128512]) as Hst.
  { repeat (apply Forall_cons_2;
            [ cbv [storable scalar utf8.MaxRune utf8.surrogateMin
                     utf8.surrogateMax utf8.RuneError]; lia |]).
    apply Forall_nil_2. }
  split; [exact Hst |].
  exact (parseTextToRunes_inverts_parseRunesToText _ Hst).
Defined.

(** ** The new trie *)

(** X4.  [NewTrie] holds no key: its size is 0, [Keys] is empty, [Find]
    finds nothing, and [HasKeysWithPrefix] is true only for the keys with the
    empty path (the empty key and the keys that do not decode). *)
Theorem NewTrie_holds_no_key {V} (key : list byte) :
  Size (V:=V) NewTrie = 0
  ∧ Keys (V:=V) NewTrie = Ok []
  ∧ Find (V:=V) NewTrie key = Ok (None, false)
  ∧ HasKeysWithPrefix (V:=V) NewTrie key
    = Ok (bool_decide (parseTextToRunes key = [])).
Proof.
  split; [done |]. split; [done |].
  unfold Find, HasKeysWithPrefix.
  by destruct (parseTextToRunes key) as [| c s].
Qed.

(** ** Calls on reachable tries return *)

(** X5.  On a trie built by [NewTrie], [ReplaceOrInsert] and [Delete], the
    reads return: [Find], [HasKeysWithPrefix], [PrefixSearch] with any
    iterator and [Keys] do not panic. *)
Theorem reads_return_on_reachable {V} (w : World V) :
  reachable w →
  (∀ key, ∃ r, Find w key = Ok r)
  ∧ (∀ key, ∃ b, HasKeysWithPrefix w key = Ok b)
  ∧ (∀ pre S (iter : NodeIterator V S) s, ∃ s', PrefixSearch w pre iter s = Ok s')
  ∧ ∃ keys, Keys w = Ok keys.
Proof.
  intros Hwf%reachable_wf.
  split; [intros key; by apply Find_returns |].
  split; [intros key; by apply HasKeysWithPrefix_returns |].
  split; [intros pre S iter s; by apply PrefixSearch_returns |].
  by apply PrefixSearch_returns.
Qed.

Lemma reads_return_on_reachable_witness :
  ∃ w,
    run_all [ins "a"; ins "ab"; del "a"; ins "b"] NewTrie = Ok w
    ∧ (∀ key, ∃ r, Find w key = Ok r)
    ∧ (∀ key, ∃ b, HasKeysWithPrefix w key = Ok b)
    ∧ (∀ pre S (iter : NodeIterator string S) s,
         ∃ s', PrefixSearch w pre iter s = Ok s')
    ∧ ∃ keys, Keys w = Ok keys.
Proof.
  eexists. split; [by_running |].
  apply reads_return_on_reachable.
  reached [ins "a"; ins "ab"; del "a"; ins "b"].
Defined.

(** X6.  On a reachable trie [ReplaceOrInsert] returns for every key and
    value: it does not panic, in particular [node.parent] is not nil where
    the replaced node is linked in. *)
Theorem ReplaceOrInsert_returns {V} (w : World V) (key : list byte) (v : option V) :
  reachable w → ∃ r w', ReplaceOrInsert key v w = Ok (r, w').
Proof.
  intros [Hwf Hl]%reachable_linked.
  destruct (ReplaceOrInsert_linked w key v Hwf Hl) as (r & w' & Hrun & _).
  by exists r, w'.
Qed.

Lemma ReplaceOrInsert_returns_witness :
  ∃ w,
    run_all [ins "a"; ins "ab"; ins "a"; del "ab"] NewTrie = Ok w
    ∧ ∃ r w', ReplaceOrInsert (bytes_of "a") (Some "x"%string) w = Ok (r, w').
Proof.
  eexists. split; [by_running |].
  apply ReplaceOrInsert_returns.
  reached [ins "a"; ins "ab"; ins "a"; del "ab"].
Defined.

(** X7.  On a reachable trie [Delete] panics exactly when the path of the
    key is absent, that is when [HasKeysWithPrefix] is false for it;
    otherwise it returns. *)
Theorem Delete_panics_iff_path_absent {V} (w : World V) (key : list byte) :
  reachable w →
  (HasKeysWithPrefix w key = Ok true ∧ ∃ r w', Delete key w = Ok (r, w'))
  ∨ (HasKeysWithPrefix w key = Ok false ∧ Delete key w = Panic).
Proof.
  intros [Hwf Hl]%reachable_linked.
  destruct (walk_wf w (parseTextToRunes key) Hwf) as ([q |] & Hq & _).
  - left. split; [by rewrite HasKeysWithPrefix_walk, Hq |].
    by apply (Delete_runs w key q).
  - right. split; [by rewrite HasKeysWithPrefix_walk, Hq |].
    unfold Delete. unfold walk in Hq. by rewrite Hq.
Qed.

Lemma Delete_panics_iff_path_absent_witness :
  ∃ w,
    run_all [ins "a"; ins "ab"] NewTrie = Ok w
    ∧ ((HasKeysWithPrefix w (bytes_of "b") = Ok true
        ∧ ∃ r w', Delete (bytes_of "b") w = Ok (r, w'))
       ∨ (HasKeysWithPrefix w (bytes_of "b") = Ok false
          ∧ Delete (bytes_of "b") w = Panic)).
Proof.
  eexists. split; [by_running |].
  apply Delete_panics_iff_path_absent.
  reached [ins "a"; ins "ab"].
Defined.

(** X8.  [Delete] of a key whose path is in the trie but ends no key (the
    empty key, a key that does not decode, a bare prefix of stored keys)
    returns nil and changes nothing. *)
Theorem Delete_of_path_without_key {V} (w : World V) (key : list byte) :
  HasKeysWithPrefix w key = Ok true → Find w key = Ok (None, false) →
  Delete key w = Ok (None, w).
Proof.
  rewrite HasKeysWithPrefix_walk, Find_walk.
  destruct (walk w (parseTextToRunes key)) as [[q |] | |] eqn:Hq; try done.
  intros _. destruct (nodes w !! q) as [nq |] eqn:Hnq; [| done].
  destruct (term nq) eqn:Ht; [done |]. intros _.
  by apply (Delete_no_key w key q nq).
Qed.

Lemma Delete_of_path_without_key_witness :
  ∃ w,
    run_all [ins "ab"] NewTrie = Ok w
    ∧ HasKeysWithPrefix w (bytes_of "a") = Ok true
    ∧ Find w (bytes_of "a") = Ok (None, false)
    ∧ Delete (bytes_of "a") w = Ok (None, w).
Proof.
  eexists. split; [by_running |].
  split; [by_running |]. split; [by_running |].
  apply Delete_of_path_without_key; by_running.
Defined.

(** ** [ReplaceOrInsert] *)

(** X9.  A key whose path is not in a reachable trie is inserted:
    [ReplaceOrInsert] returns nil, the size grows by one, and [Find] then
    finds the key with the value. *)
Theorem ReplaceOrInsert_new_key {V} (w : World V) (key : list byte) (v : option V) :
  reachable w → HasKeysWithPrefix w key = Ok false →
  ∃ w' n,
    ReplaceOrInsert key v w = Ok (None, w')
    ∧ Size w' = Size w + 1
    ∧ Find w' key = Ok (Some n, true) ∧ Value n = v.
Proof.
  intros [Hwf Hl]%reachable_linked Hno%HasKeysWithPrefix_false.
  destruct (ReplaceOrInsert_linked w key v Hwf Hl) as (r & w' & Hrun & Hwf' & _).
  destruct (ReplaceOrInsert_found_at w key v r w' Hwf Hl Hrun)
    as (_ & _ & _ & Habsent & _).
  destruct Habsent as (-> & Hsize & n & Hn & Hv); [| done |].
  { intros E. rewrite E, (walk_root w Hwf) in Hno. done. }
  exists w', n. split; [done |]. split; [done |].
  split; [by apply Find_Some_iff | done].
Qed.

Lemma ReplaceOrInsert_new_key_witness :
  ∃ w,
    run_all [ins "a"; ins "ab"] NewTrie = Ok w
    ∧ HasKeysWithPrefix w (bytes_of "b") = Ok false
    ∧ ∃ w' n,
        ReplaceOrInsert (bytes_of "b") (Some "x"%string) w = Ok (None, w')
        ∧ Size w' = Size w + 1
        ∧ Find w' (bytes_of "b") = Ok (Some n, true)
        ∧ Value n = Some "x"%string.
Proof.
  eexists. split; [by_running |]. split; [by_running |].
  apply ReplaceOrInsert_new_key; [| by_running].
  reached [ins "a"; ins "ab"].
Defined.

(** X10.  A key stored in a reachable trie is replaced: [ReplaceOrInsert]
    returns the node that held the key, which keeps the previous value; the
    size does not change; [Find] then finds the key with the new value and
    otherwise the same fields. *)
Theorem ReplaceOrInsert_stored_key {V} (w : World V) (key : list byte)
    (v : option V) (n : Node V) :
  reachable w → Find w key = Ok (Some n, true) →
  ∃ p np w',
    ReplaceOrInsert key v w = Ok (Some p, w')
    ∧ nodes w' !! p = Some np ∧ snapshot np = n
    ∧ Size w' = Size w
    ∧ Find w' key = Ok (Some (set_value v n), true).
Proof.
  intros [Hwf Hl]%reachable_linked Hn.
  apply (Find_Some_iff w key n Hwf) in Hn.
  pose proof Hn as (q & nq & Hq & Hnq & Ht & ->)%found_at_Some.
  destruct (ReplaceOrInsert_linked w key v Hwf Hl) as (r & w' & Hrun & Hwf' & _).
  destruct (ReplaceOrInsert_found_at w key v r w' Hwf Hl Hrun)
    as (_ & _ & _ & _ & Hpresent).
  destruct (Hpresent) with (q := q) as (-> & Hsize & Hsame & Hnew); [| done |].
  { intros E. rewrite E, (found_at_nil w Hwf) in Hn. done. }
  exists q, nq, w'. split; [done |]. split; [by rewrite Hsame |].
  split; [done |]. split; [done |].
  apply Find_Some_iff; [done |]. by rewrite Hnew, Hn.
Qed.

Lemma ReplaceOrInsert_stored_key_witness :
  ∃ w n,
    run_all [ins "a"; ins "ab"] NewTrie = Ok w
    ∧ Find w (bytes_of "a") = Ok (Some n, true)
    ∧ ∃ p np w',
        ReplaceOrInsert (bytes_of "a") (Some "x"%string) w = Ok (Some p, w')
        ∧ nodes w' !! p = Some np ∧ snapshot np = n
        ∧ Size w' = Size w
        ∧ Find w' (bytes_of "a") = Ok (Some (set_value (Some "x"%string) n), true).
Proof.
  eexists _, _. split; [by_running |]. split; [by_running |].
  apply ReplaceOrInsert_stored_key; [| by_running].
  reached [ins "a"; ins "ab"].
Defined.

(** X11.  A key whose path is in a reachable trie but ends no key is not
    inserted: [ReplaceOrInsert] returns a node, not nil, the size does not
    change, and [Find] still does not find the key. *)
Theorem ReplaceOrInsert_bare_path {V} (w : World V) (key : list byte) (v : option V) :
  reachable w → parseTextToRunes key ≠ [] →
  HasKeysWithPrefix w key = Ok true → Find w key = Ok (None, false) →
  ∃ p w',
    ReplaceOrInsert key v w = Ok (Some p, w')
    ∧ Size w' = Size w
    ∧ Find w' key = Ok (None, false).
Proof.
  intros [Hwf Hl]%reachable_linked Hne Hhas Hfind.
  apply (Find_None_iff w key Hwf) in Hfind.
  destruct (HasKeysWithPrefix_true w key Hwf Hhas) as (q & nq & Hq & Hnq).
  destruct (ReplaceOrInsert_linked w key v Hwf Hl) as (r & w' & Hrun & Hwf' & _).
  destruct (ReplaceOrInsert_found_at w key v r w' Hwf Hl Hrun)
    as (_ & _ & _ & _ & Hpresent).
  destruct (Hpresent Hne q Hq) as (-> & Hsize & _ & Hnew).
  exists q, w'. split; [done |]. split; [done |].
  apply Find_None_iff; [done |]. by rewrite Hnew, Hfind.
Qed.

Lemma ReplaceOrInsert_bare_path_witness :
  ∃ w,
    run_all [ins "ab"] NewTrie = Ok w
    ∧ parseTextToRunes (bytes_of "a") ≠ []
    ∧ HasKeysWithPrefix w (bytes_of "a") = Ok true
    ∧ Find w (bytes_of "a") = Ok (None, false)
    ∧ ∃ p w',
        ReplaceOrInsert (bytes_of "a") (Some "a"%string) w = Ok (Some p, w')
        ∧ Size w' = Size w
        ∧ Find w' (bytes_of "a") = Ok (None, false).
Proof.
  eexists. split; [by_running |].
  assert (parseTextToRunes (bytes_of "a") ≠ []) as Hne by (vm_compute; discriminate).
  split; [exact Hne |]. split; [by_running |]. split; [by_running |].
  apply ReplaceOrInsert_bare_path; [| exact Hne | by_running | by_running].
  reached [ins "ab"].
Defined.

(** X12.  [ReplaceOrInsert] of a key with the empty path (the empty key, a
    key that does not decode) stores nothing: it returns nil, the size does
    not change, and [Find] and [Keys] answer as before. *)
Theorem ReplaceOrInsert_empty_path {V} (w : World V) (key : list byte) (v : option V) :
  reachable w → parseTextToRunes key = [] →
  ∃ w',
    ReplaceOrInsert key v w = Ok (None, w')
    ∧ Size w' = Size w
    ∧ (∀ key2, Find w' key2 = Find w key2)
    ∧ Keys w' = Keys w.
Proof.
  intros [Hwf Hl]%reachable_linked Hnil.
  destruct (ReplaceOrInsert_linked w key v Hwf Hl) as (r & w' & Hrun & Hwf' & _).
  destruct (ReplaceOrInsert_found_at w key v r w' Hwf Hl Hrun)
    as (Hother & _ & Hempty & _).
  destruct (Hempty Hnil) as (-> & Hsize & Hroot).
  assert (∀ s, found_at w' s = found_at w s) as Hsame.
  { intros s. destruct (decide (s = [])) as [-> | Hs]; [done |].
    apply Hother. congruence. }
  exists w'. split; [done |]. split; [done |].
  split; [intros key2; by apply Find_same |].
  apply Keys_same; [done | done |]. intros s. by rewrite Hsame.
Qed.

Lemma ReplaceOrInsert_empty_path_witness :
  ∃ w,
    run_all [ins "a"] NewTrie = Ok w
    ∧ parseTextToRunes [x62; xff] = []
    ∧ ∃ w',
        ReplaceOrInsert [x62; xff] (Some "x"%string) w = Ok (None, w')
        ∧ Size w' = Size w
        ∧ (∀ key2, Find w' key2 = Find w key2)
        ∧ Keys w' = Keys w.
Proof.
  eexists. split; [by_running |]. split; [by_running |].
  apply ReplaceOrInsert_empty_path; [| by_running].
  reached [ins "a"].
Defined.

(** X13.  [ReplaceOrInsert] of a key leaves every other key as it was:
    [Find] answers for it as before the call. *)
Theorem ReplaceOrInsert_other_keys {V} (w w' : World V) (key key2 : list byte)
    (v : option V) (r : option ptr) :
  reachable w → ReplaceOrInsert key v w = Ok (r, w') → key2 ≠ key →
  Find w' key2 = Find w key2.
Proof.
  intros Hw Hrun Hne.
  destruct (reachable_linked w Hw) as [Hwf Hl].
  destruct (reachable_linked w') as [Hwf' _].
  { apply (reachable_step w); [done |]. by apply (step_ReplaceOrInsert key v w r). }
  destruct (ReplaceOrInsert_found_at w key v r w' Hwf Hl Hrun)
    as (Hother & _ & Hempty & _).
  apply Find_same; [done | done |].
  destruct (decide (parseTextToRunes key2 = parseTextToRunes key)) as [E | Hs];
    [| by apply Hother].
  destruct (decide (parseTextToRunes key = [])) as [Hnil | Hnn].
  - rewrite E, Hnil. by destruct (Hempty Hnil) as (_ & _ & ->).
  - destruct Hne. apply parsed_inj; [done | congruence].
Qed.

Lemma ReplaceOrInsert_other_keys_witness :
  ∃ w r w',
    run_all [ins "a"; ins "ab"; ins "b"] NewTrie = Ok w
    ∧ ReplaceOrInsert (bytes_of "a") (Some "x"%string) w = Ok (r, w')
    ∧ bytes_of "ab" ≠ bytes_of "a"
    ∧ Find w' (bytes_of "ab") = Find w (bytes_of "ab").
Proof.
  eexists _, _, _. split; [by_running |].
  match goal with
  | |- ?R ∧ _ => assert R as Hrun by by_running
  end.
  split; [exact Hrun |].
  assert (bytes_of "ab" ≠ bytes_of "a") as Hne by (vm_compute; discriminate).
  split; [exact Hne |].
  apply (ReplaceOrInsert_other_keys _ _ _ _ _ _
           ltac:(reached [ins "a"; ins "ab"; ins "b"]) Hrun Hne).
Defined.

(** X14.  [ReplaceOrInsert] removes no path: a key for which
    [HasKeysWithPrefix] was true keeps it true. *)
Theorem ReplaceOrInsert_keeps_paths {V} (w w' : World V) (key key2 : list byte)
    (v : option V) (r : option ptr) :
  reachable w → ReplaceOrInsert key v w = Ok (r, w') →
  HasKeysWithPrefix w key2 = Ok true → HasKeysWithPrefix w' key2 = Ok true.
Proof.
  intros [Hwf Hl]%reachable_linked Hrun Hhas.
  destruct (HasKeysWithPrefix_true w key2 Hwf Hhas) as (q & nq & Hq & _).
  destruct (ReplaceOrInsert_found_at w key v r w' Hwf Hl Hrun) as (_ & Hkeep & _).
  destruct (Hkeep _ q Hq) as [q' Hq'].
  by rewrite HasKeysWithPrefix_walk, Hq'.
Qed.

Lemma ReplaceOrInsert_keeps_paths_witness :
  ∃ w r w',
    run_all [ins "abc"] NewTrie = Ok w
    ∧ ReplaceOrInsert (bytes_of "ab") (Some "x"%string) w = Ok (r, w')
    ∧ HasKeysWithPrefix w (bytes_of "ab") = Ok true
    ∧ HasKeysWithPrefix w' (bytes_of "ab") = Ok true.
Proof.
  eexists _, _, _. split; [by_running |].
  match goal with
  | |- ?R ∧ _ => assert R as Hrun by by_running
  end.
  split; [exact Hrun |].
  match goal with
  | |- ?R ∧ _ => assert R as Hhas by by_running
  end.
  split; [exact Hhas |].
  apply (ReplaceOrInsert_keeps_paths _ _ _ _ _ _
           ltac:(reached [ins "abc"]) Hrun Hhas).
Defined.

(** ** [Delete] *)

(** X15.  A key stored in a reachable trie is deleted: [Delete] returns the
    node that held the key, with the key's value, code and depth; the size
    shrinks by one; [Find] then does not find the key. *)
Theorem Delete_stored_key {V} (w : World V) (key : list byte) (n : Node V) :
  reachable w → Find w key = Ok (Some n, true) →
  ∃ p np w',
    Delete key w = Ok (Some p, w')
    ∧ nodes w' !! p = Some np
    ∧ Value np = Value n ∧ Code np = Code n ∧ Depth np = Depth n
    ∧ Size w' = Size w - 1
    ∧ Find w' key = Ok (None, false).
Proof.
  intros [Hwf Hl]%reachable_linked Hn.
  apply (Find_Some_iff w key n Hwf) in Hn.
  pose proof Hn as (q & nq & Hq & _)%found_at_Some.
  destruct (Delete_runs w key q Hwf Hl Hq) as (r & w' & Hrun).
  destruct (Delete_linked w key r w' Hwf Hl Hrun) as [Hwf' _].
  destruct (Delete_found_at w key r w' Hwf Hl Hrun) as (_ & Hgone & _ & Hkey).
  destruct (Hkey n Hn) as (Hsize & p & np & -> & _ & Hnp & Hv & Hc & Hd & _).
  exists p, np, w'. split; [done |]. split; [done |]. split; [done |].
  split; [done |]. split; [done |]. split; [done |].
  by apply Find_None_iff.
Qed.

Lemma Delete_stored_key_witness :
  ∃ w n,
    run_all [ins "a"; ins "ab"; ins "b"] NewTrie = Ok w
    ∧ Find w (bytes_of "ab") = Ok (Some n, true)
    ∧ ∃ p np w',
        Delete (bytes_of "ab") w = Ok (Some p, w')
        ∧ nodes w' !! p = Some np
        ∧ Value np = Value n ∧ Code np = Code n ∧ Depth np = Depth n
        ∧ Size w' = Size w - 1
        ∧ Find w' (bytes_of "ab") = Ok (None, false).
Proof.
  eexists _, _. split; [by_running |]. split; [by_running |].
  apply Delete_stored_key; [| by_running].
  reached [ins "a"; ins "ab"; ins "b"].
Defined.

(** X16.  [Delete] of a key leaves every other key as it was: [Find]
    answers for it as before the call, also when [Delete] prunes the nodes
    above the deleted one. *)
Theorem Delete_other_keys {V} (w w' : World V) (key key2 : list byte)
    (r : option ptr) :
  reachable w → Delete key w = Ok (r, w') → key2 ≠ key →
  Find w' key2 = Find w key2.
Proof.
  intros [Hwf Hl]%reachable_linked Hrun Hne.
  destruct (Delete_linked w key r w' Hwf Hl Hrun) as [Hwf' _].
  destruct (Delete_found_at w key r w' Hwf Hl Hrun) as (Hother & Hgone & Hnokey & _).
  apply Find_same; [done | done |].
  destruct (decide (parseTextToRunes key2 = parseTextToRunes key)) as [E | Hs];
    [| by apply Hother].
  destruct (decide (parseTextToRunes key = [])) as [Hnil | Hnn].
  - rewrite E, Hnil. by rewrite !found_at_nil.
  - destruct Hne. apply parsed_inj; [done | congruence].
Qed.

Lemma Delete_other_keys_witness :
  ∃ w r w',
    run_all [ins "a"; ins "abc"; ins "abd"; ins "a"] NewTrie = Ok w
    ∧ Delete (bytes_of "abc") w = Ok (r, w')
    ∧ bytes_of "abd" ≠ bytes_of "abc"
    ∧ Find w' (bytes_of "abd") = Find w (bytes_of "abd").
Proof.
  eexists _, _, _. split; [by_running |].
  match goal with
  | |- ?R ∧ _ => assert R as Hrun by by_running
  end.
  split; [exact Hrun |].
  assert (bytes_of "abd" ≠ bytes_of "abc") as Hne by (vm_compute; discriminate).
  split; [exact Hne |].
  apply (Delete_other_keys _ _ _ _ _
           ltac:(reached [ins "a"; ins "abc"; ins "abd"; ins "a"]) Hrun Hne).
Defined.

(** X17.  After a [Delete] that returned, a second [Delete] of the key
    returns nil and changes nothing, or panics because the first one removed
    the path: it never returns a node. *)
Theorem Delete_twice {V} (w w' : World V) (key : list byte) (r : option ptr) :
  reachable w → Delete key w = Ok (r, w') →
  Delete key w' = Ok (None, w') ∨ Delete key w' = Panic.
Proof.
  intros [Hwf Hl]%reachable_linked Hrun.
  destruct (Delete_linked w key r w' Hwf Hl Hrun) as [Hwf' Hl'].
  destruct (Delete_found_at w key r w' Hwf Hl Hrun) as (_ & Hgone & _).
  destruct (walk_wf w' (parseTextToRunes key) Hwf') as ([q |] & Hq & _).
  - left. destruct (Delete_runs w' key q Hwf' Hl' Hq) as (r2 & w2 & Hrun2).
    destruct (Delete_found_at w' key r2 w2 Hwf' Hl' Hrun2) as (_ & _ & Hnokey & _).
    destruct (Hnokey Hgone) as [-> ->]. done.
  - right. unfold Delete. unfold walk in Hq. by rewrite Hq.
Qed.

Lemma Delete_twice_witness :
  ∃ w r w',
    run_all [ins "a"; ins "ab"] NewTrie = Ok w
    ∧ Delete (bytes_of "a") w = Ok (r, w')
    ∧ (Delete (bytes_of "a") w' = Ok (None, w') ∨ Delete (bytes_of "a") w' = Panic).
Proof.
  eexists _, _, _. split; [by_running |].
  match goal with
  | |- ?R ∧ _ => assert R as Hrun by by_running
  end.
  split; [exact Hrun |].
  apply (Delete_twice _ _ _ _ ltac:(reached [ins "a"; ins "ab"]) Hrun).
Defined.

(** X18.  Inserting a key whose path is not in a reachable trie and deleting
    it again gives back the keys: both calls return, the size is as before,
    and [Find] and [Keys] answer as before. *)
Theorem insert_then_Delete_restores {V} (w : World V) (key : list byte) (v : option V) :
  reachable w → HasKeysWithPrefix w key = Ok false →
  ∃ w1 p w2,
    ReplaceOrInsert key v w = Ok (None, w1)
    ∧ Delete key w1 = Ok (Some p, w2)
    ∧ Size w2 = Size w
    ∧ (∀ key2, Find w2 key2 = Find w key2)
    ∧ Keys w2 = Keys w.
Proof.
  intros [Hwf Hl]%reachable_linked Hno%HasKeysWithPrefix_false.
  assert (parseTextToRunes key ≠ []) as Hne.
  { intros E. rewrite E, (walk_root w Hwf) in Hno. done. }
  destruct (ReplaceOrInsert_linked w key v Hwf Hl) as (r & w1 & Hrun & Hwf1 & Hl1).
  destruct (ReplaceOrInsert_found_at w key v r w1 Hwf Hl Hrun)
    as (Hother & _ & _ & Habsent & _).
  destruct (Habsent Hne Hno) as (-> & Hsize & n & Hn & _).
  pose proof Hn as (q & nq & Hq & _)%found_at_Some.
  destruct (Delete_runs w1 key q Hwf1 Hl1 Hq) as (r2 & w2 & Hrun2).
  destruct (Delete_linked w1 key r2 w2 Hwf1 Hl1 Hrun2) as [Hwf2 _].
  destruct (Delete_found_at w1 key r2 w2 Hwf1 Hl1 Hrun2) as (Hother2 & Hgone & _ & Hkey).
  destruct (Hkey n Hn) as (Hsize2 & p & np & -> & _).
  assert (∀ s, found_at w2 s = found_at w s) as Hsame.
  { intros s. destruct (decide (s = parseTextToRunes key)) as [-> | Hs].
    - rewrite Hgone. unfold found_at. by rewrite Hno.
    - by rewrite Hother2, Hother. }
  exists w1, p, w2. split; [done |]. split; [done |].
  split; [unfold Size; lia |].
  split; [intros key2; by apply Find_same |].
  apply Keys_same; [done | done |]. intros s. by rewrite Hsame.
Qed.

Lemma insert_then_Delete_restores_witness :
  ∃ w,
    run_all [ins "a"; ins "b"] NewTrie = Ok w
    ∧ HasKeysWithPrefix w (bytes_of "cd") = Ok false
    ∧ ∃ w1 p w2,
        ReplaceOrInsert (bytes_of "cd") (Some "x"%string) w = Ok (None, w1)
        ∧ Delete (bytes_of "cd") w1 = Ok (Some p, w2)
        ∧ Size w2 = Size w
        ∧ (∀ key2, Find w2 key2 = Find w key2)
        ∧ Keys w2 = Keys w.
Proof.
  eexists. split; [by_running |]. split; [by_running |].
  apply insert_then_Delete_restores; [| by_running].
  reached [ins "a"; ins "b"].
Defined.

(** ** Nodes, sizes and prefixes of reachable tries *)

(** X19.  The node [Find] returns for a key of a reachable trie: its depth
    is the number of code points of the key, its code is the last of them,
    it is terminating, it has a parent, and its children are left nil. *)
Theorem Find_node_fields {V} (w : World V) (key : list byte) (n : Node V) :
  reachable w → Find w key = Ok (Some n, true) →
  Depth n = Z.of_nat (length (parseTextToRunes key))
  ∧ last (parseTextToRunes key) = Some (Code n)
  ∧ Terminating n = true
  ∧ Parent n ≠ None
  ∧ Children n = None.
Proof.
  intros [Hwf Hl]%reachable_linked Hn.
  apply (Find_Some_iff w key n Hwf) in Hn.
  pose proof Hn as (q & nq & Hq & Hnq & Ht & ->)%found_at_Some.
  split; [by apply (walk_depth w Hwf Hl _ q nq) |].
  destruct (parseTextToRunes key) as [| c s _] using rev_ind.
  { by rewrite (found_at_nil w Hwf) in Hn. }
  split; [rewrite last_snoc; f_equal; symmetry;
          exact (walk_code w s c q nq Hwf Hq Hnq) |].
  split; [done |]. split; [| done].
  destruct (walk_snoc_Some w s c q Hwf Hq) as (x & nx & a & m & _ & _ & _ & Hm & Hc).
  destruct (link_parent w Hl a m c q nq Hm Hc Hnq) as (pp & npp & Hpp & _).
  cbn. by rewrite Hpp.
Qed.

Lemma Find_node_fields_witness :
  ∃ w n,
    run_all [ins "a"; ins "abc"; ins "a"] NewTrie = Ok w
    ∧ Find w (bytes_of "abc") = Ok (Some n, true)
    ∧ Depth n = Z.of_nat (length (parseTextToRunes (bytes_of "abc")))
    ∧ last (parseTextToRunes (bytes_of "abc")) = Some (Code n)
    ∧ Terminating n = true
    ∧ Parent n ≠ None
    ∧ Children n = None.
Proof.
  eexists _, _. split; [by_running |].
  match goal with
  | |- ?R ∧ _ => assert R as Hfind by by_running
  end.
  split; [exact Hfind |].
  refine (Find_node_fields _ _ _ _ Hfind).
  reached [ins "a"; ins "abc"; ins "a"].
Defined.

(** X20.  The size of a reachable trie is the number of its keys: [Size]
    equals the length of the slice [Keys] returns. *)
Theorem Size_counts_Keys {V} (w : World V) :
  reachable w →
  ∃ keys, Keys w = Ok keys ∧ Size w = Z.of_nat (length keys).
Proof.
  intros Hw. destruct (reachable_linked w Hw) as [Hwf _].
  destruct (keys_paths w Hwf) as (paths & Hkeys & Hnd & Hin).
  exists (utf8_text <$> paths). split; [done |].
  rewrite length_fmap. by apply (reachable_counted w Hw).
Qed.

Lemma Size_counts_Keys_witness :
  ∃ w,
    run_all [ins "a"; ins "ab"; ins "a"; ins "b"; del "ab"; ins "ab"; del "a"]
      NewTrie = Ok w
    ∧ ∃ keys, Keys w = Ok keys ∧ Size w = Z.of_nat (length keys).
Proof.
  eexists. split; [by_running |].
  apply Size_counts_Keys.
  reached [ins "a"; ins "ab"; ins "a"; ins "b"; del "ab"; ins "ab"; del "a"].
Defined.

(** X21.  In a reachable trie [HasKeysWithPrefix] is true for every prefix
    of a stored key. *)
Theorem HasKeysWithPrefix_of_stored_key {V} (w : World V) (pre key : list byte) :
  reachable w → stored w key → pre `prefix_of` key →
  HasKeysWithPrefix w pre = Ok true.
Proof.
  intros Hwf%reachable_wf [n Hn] [k ->].
  apply Find_found in Hn as (q & nq & Hq & Hnq & Ht & _).
  rewrite HasKeysWithPrefix_walk.
  destruct (decide (parseTextToRunes pre = [])) as [E | Hne].
  { by rewrite E, (walk_root w Hwf). }
  destruct (parsed_decodes pre Hne) as [Hpre _].
  apply decodes_text in Hpre as [Htext Hst].
  destruct (decide (parseTextToRunes (pre ++ k) = [])) as [E | Hne2].
  { rewrite E, (walk_root w Hwf) in Hq. injection Hq as <-.
    destruct (wf_root w Hwf) as (_ & n0 & Hn0 & Ht0). congruence. }
  destruct (parsed_decodes (pre ++ k) Hne2) as [Hkey _].
  rewrite <- Htext in Hkey at 1.
  destruct (decodes_prefix _ Hst k _ Hkey) as [rest Hrest].
  rewrite Hrest, walk_app in Hq.
  by destruct (walk w (parseTextToRunes pre)) as [[x |] | |].
Qed.

Lemma HasKeysWithPrefix_of_stored_key_witness :
  ∃ w,
    run_all [ins "abc"; ins "b"] NewTrie = Ok w
    ∧ stored w (bytes_of "abc")
    ∧ bytes_of "ab" `prefix_of` bytes_of "abc"
    ∧ HasKeysWithPrefix w (bytes_of "ab") = Ok true.
Proof.
  eexists. split; [by_running |].
  match goal with
  | |- stored ?w ?k ∧ _ => assert (stored w k) as Hst by (eexists; by_running)
  end.
  assert (bytes_of "ab" `prefix_of` bytes_of "abc") as Hpre
    by (exists (bytes_of "c"); by_running).
  split; [exact Hst |]. split; [exact Hpre |].
  apply (HasKeysWithPrefix_of_stored_key _ _ _ ltac:(reached [ins "abc"; ins "b"]) Hst Hpre).
Defined.

Section Traversal_calls.
Context {V : Type}.
Implicit Types (w : World V).

Lemma found_value_at w prefix p (nd : Node V) :
  wf w → walk w prefix = Ok (Some p) → nodes w !! p = Some nd →
  term nd = true →
  found_value w (utf8_text prefix) = value nd.
Proof.
  intros Hwf Hp Hnd Ht. unfold found_value.
  assert (Forall storable prefix) as Hst.
  { destruct (wf_root w Hwf) as (Hroot & n0 & Hn0 & _).
    apply (findNode_storable w prefix Hwf (root (trie w)) p); [| done].
    rewrite Hroot. by exists n0. }
  rewrite (Find_at w (utf8_text prefix) p nd), Ht; [done | | done].
  by rewrite parse_utf8_text.
Qed.

(** With an iterator that always asks to go on, [preTraverse] makes the
    calls that the iterator of [Keys] records, in the same order, each with
    the value of its key. *)
Lemma preTraverse_calls fuel :
  ∀ w p prefix S (iter : NodeIterator V S),
    wf w → (∀ k v s, (iter k v s).1 = true) →
    walk w prefix = Ok (Some p) →
    ∀ s keys keys',
      preTraverse fuel w (Some p) prefix Keys_iter keys = Ok keys' →
      ∃ new, keys' = keys ++ new
             ∧ preTraverse fuel w (Some p) prefix iter s
               = Ok (fold_left (call_on iter w) new s).
Proof.
  induction fuel as [| fuel IH]; intros w p prefix S iter Hwf Htrue Hp s keys keys' Hrun;
    [done |].
  cbn [preTraverse] in Hrun |- *.
  destruct (nodes w !! p) as [nd |] eqn:Hnd; [| done].
  destruct (wf_map_of w p nd Hwf Hnd) as (a & m & Ha & Hm & Hof).
  rewrite Hof in Hrun |- *. cbv zeta in Hrun |- *.
  assert (Forall storable prefix) as Hst.
  { destruct (wf_root w Hwf) as (Hroot & n0 & Hn0 & _).
    apply (findNode_storable w prefix Hwf (root (trie w)) p); [| done].
    rewrite Hroot. by exists n0. }
  assert (∀ s0 keys0 keys1,
            (if Z.of_nat (base.size m) =? 0 then Ok keys0
             else
               for_each (merge_sort Z.le (map_to_list m).*1)
                 (λ c s1,
                    match m !! c with
                    | Some q =>
                      match nodes w !! q with
                      | Some nn =>
                        preTraverse fuel w (Some q) (prefix ++ [code nn]) Keys_iter s1
                      | None => Undef
                      end
                    | None => Ok s1
                    end) keys0) = Ok keys1 →
            ∃ new, keys1 = keys0 ++ new
              ∧ (if Z.of_nat (base.size m) =? 0 then Ok s0
                 else
                   for_each (merge_sort Z.le (map_to_list m).*1)
                     (λ c s1,
                        match m !! c with
                        | Some q =>
                          match nodes w !! q with
                          | Some nn =>
                            preTraverse fuel w (Some q) (prefix ++ [code nn]) iter s1
                          | None => Undef
                          end
                        | None => Ok s1
                        end) s0)
                = Ok (fold_left (call_on iter w) new s0)) as Hbelow.
  { intros s0 keys0 keys1.
    destruct (Z.of_nat (base.size m) =? 0).
    { intros [= <-]. exists []. by rewrite app_nil_r. }
    generalize (merge_sort Z.le (map_to_list m).*1). intros bs.
    revert s0 keys0 keys1.
    induction bs as [| c bs IHbs]; intros s0 keys0 keys1 Hrun0; cbn [for_each] in *.
    { injection Hrun0 as <-. exists []. by rewrite app_nil_r. }
    destruct (m !! c) as [q |] eqn:Hq; [| by apply IHbs].
    destruct (wf_entry w Hwf a m c q Hm Hq) as (_ & nq & _ & Hnq & Hcode & _).
    rewrite Hnq in Hrun0 |- *.
    destruct (preTraverse fuel w (Some q) (prefix ++ [code nq]) Keys_iter keys0)
      as [keys2 | |] eqn:Hrun1; try done.
    destruct (IH w q (prefix ++ [code nq]) S iter Hwf Htrue) with (s := s0)
      (keys := keys0) (keys' := keys2) as (new1 & -> & Hrun1'); [| done |].
    { rewrite walk_snoc, Hp, (findNode_step w p nd a m (code nq) Hnd Ha Hm).
      by rewrite Hcode, Hq. }
    rewrite Hrun1'.
    destruct (IHbs (fold_left (call_on iter w) new1 s0) _ _ Hrun0)
      as (new2 & -> & Hrun2).
    exists (new1 ++ new2). split; [by rewrite app_assoc |].
    by rewrite fold_left_app. }
  destruct (term nd) eqn:Ht; [| by apply Hbelow].
  rewrite parseRunesToText_scalar in Hrun |- *
    by (eapply Forall_impl; [exact Hst | by intros ? [? _]]).
  cbn [Keys_iter negb] in Hrun.
  pose proof (Htrue (utf8_text prefix) (value nd) s) as Hgo.
  destruct (iter (utf8_text prefix) (value nd) s) as [go s1] eqn:E.
  cbn in Hgo. subst go. cbn [negb].
  destruct (Hbelow s1 _ _ Hrun) as (new & -> & HrunI).
  exists (utf8_text prefix :: new). split; [by rewrite <- app_assoc |].
  cbn [fold_left]. unfold call_on at 2.
  by rewrite (found_value_at w prefix p nd Hwf Hp Hnd Ht), E.
Qed.

End Traversal_calls.

(** ** [PrefixSearch] with any iterator *)

(** X22.  With an iterator that always returns true, [PrefixSearch] on a
    reachable trie calls it once on each key that [PrefixSearch] with the
    iterator of [Keys] collects for the prefix, in that order, each time with
    the value [Find] reports for the key. *)
Theorem PrefixSearch_calls_iterator_on_keys {V S} (w : World V) (pre : list byte)
    (iter : NodeIterator V S) (s : S) :
  reachable w → (∀ k v s0, (iter k v s0).1 = true) →
  ∃ keys,
    PrefixSearch w pre Keys_iter [] = Ok keys
    ∧ PrefixSearch w pre iter s = Ok (fold_left (call_on iter w) keys s).
Proof.
  intros Hwf%reachable_wf Htrue.
  destruct (PrefixSearch_returns w pre _ Keys_iter [] Hwf) as [keys Hkeys].
  exists keys. split; [done |].
  unfold PrefixSearch in Hkeys |- *.
  destruct (walk_wf w (parseTextToRunes pre) Hwf) as ([p |] & Hp & _);
    unfold walk in Hp; rewrite Hp in Hkeys |- *.
  - destruct (preTraverse_calls _ w p (parseTextToRunes pre) S iter Hwf Htrue Hp
                s [] keys Hkeys) as (new & -> & Hrun).
    done.
  - by injection Hkeys as <-.
Qed.

Lemma PrefixSearch_calls_iterator_on_keys_witness :
  ∃ w,
    run_all [ins "b"; ins "ab"; ins "a"; ins "abc"; del "ab"] NewTrie = Ok w
    ∧ (∀ (k : list byte) (v : option string) (s0 : list (option string)),
         (true, s0 ++ [v]).1 = true)
    ∧ ∃ keys,
        PrefixSearch w (bytes_of "a") Keys_iter [] = Ok keys
        ∧ PrefixSearch w (bytes_of "a") (λ _ v s0, (true, s0 ++ [v])) []
          = Ok (fold_left (call_on (λ _ v s0, (true, s0 ++ [v])) w) keys []).
Proof.
  eexists. split; [by_running |].
  split; [done |].
  apply (PrefixSearch_calls_iterator_on_keys _ (bytes_of "a")
           (λ _ v s0, (true, s0 ++ [v])) []);
    [| done].
  reached [ins "b"; ins "ab"; ins "a"; ins "abc"; del "ab"].
Defined.

(** ** ByRune *)

Lemma index_in_range (a : list Z) (i : Z) :
  0 ≤ i < ByRune.Len a → ∃ x, ByRune.index a i = Ok x ∧ a !! Z.to_nat i = Some x.
Proof.
  intros [H0 H1]. unfold ByRune.index, ByRune.Len in *.
  destruct (Z.ltb_spec i 0) as [? | _]; [lia |].
  destruct (lookup_lt_is_Some_2 a (Z.to_nat i)) as [x Hx]; [lia |].
  exists x. by rewrite Hx.
Qed.

Lemma index_out_of_range (a : list Z) (i : Z) :
  ¬ (0 ≤ i < ByRune.Len a) → ByRune.index a i = Panic.
Proof.
  intros Hout. unfold ByRune.index, ByRune.Len in *.
  destruct (Z.ltb_spec i 0) as [? | Hi]; [done |].
  rewrite lookup_ge_None_2; [done | lia].
Qed.

Lemma insert_head_permutation (t : list Z) (j : nat) (h y : Z) :
  t !! j = Some y → y :: <[j := h]> t ≡ₚ h :: t.
Proof.
  revert j. induction t as [| z t IH]; intros [| j] Hj; try done.
  - injection Hj as ->. apply perm_swap.
  - cbn in Hj |- *. rewrite perm_swap, (IH j Hj). apply perm_swap.
Qed.

Lemma swap_permutation (l : list Z) (i j : nat) (x y : Z) :
  l !! i = Some x → l !! j = Some y → <[j := x]> (<[i := y]> l) ≡ₚ l.
Proof.
  revert i j. induction l as [| h t IH]; intros [| i] [| j] Hi Hj; try done.
  - injection Hi as ->. by injection Hj as ->.
  - injection Hi as ->. cbn in Hj |- *. by apply insert_head_permutation.
  - injection Hj as ->. cbn in Hi |- *. by apply insert_head_permutation.
  - cbn in Hi, Hj |- *. by rewrite (IH i j Hi Hj).
Qed.

(** X23.  [ByRune.Swap] with both indices in range exchanges the two
    elements and nothing else: the slice keeps its length and its elements,
    and a second [Swap] restores it; with an index out of range it panics.
    [ByRune.Less] compares the elements: it is irreflexive and transitive,
    and two elements neither of which is less than the other are equal. *)
Theorem ByRune_is_a_sort_Interface (a : list Z) (i j k : Z) :
  0 ≤ i < ByRune.Len a → 0 ≤ j < ByRune.Len a → 0 ≤ k < ByRune.Len a →
  (∃ a', ByRune.Swap a i j = Ok a'
         ∧ ByRune.Len a' = ByRune.Len a ∧ a' ≡ₚ a
         ∧ ByRune.index a' i = ByRune.index a j
         ∧ ByRune.index a' j = ByRune.index a i
         ∧ (k ≠ i → k ≠ j → ByRune.index a' k = ByRune.index a k)
         ∧ ByRune.Swap a' i j = Ok a)
  ∧ (∀ o, ¬ (0 ≤ o < ByRune.Len a) →
          ByRune.Swap a i o = Panic ∧ ByRune.Swap a o j = Panic
          ∧ ByRune.Less a i o = Panic ∧ ByRune.Less a o j = Panic)
  ∧ ByRune.Less a i i = Ok false
  ∧ (ByRune.Less a i j = Ok true → ByRune.Less a j k = Ok true →
     ByRune.Less a i k = Ok true)
  ∧ (ByRune.Less a i j = Ok false → ByRune.Less a j i = Ok false →
     ByRune.index a i = ByRune.index a j).
Proof.
  intros Hi Hj Hk.
  destruct (index_in_range a i Hi) as (x & Hxi & Hx).
  destruct (index_in_range a j Hj) as (y & Hyi & Hy).
  destruct (index_in_range a k Hk) as (z & Hzi & Hz).
  pose proof (lookup_lt_Some _ _ _ Hx) as Hxlt.
  pose proof (lookup_lt_Some _ _ _ Hy) as Hylt.
  split; [| split; [| split; [| split]]].
  - unfold ByRune.Swap. rewrite Hxi, Hyi.
    set (a' := <[Z.to_nat j := x]> (<[Z.to_nat i := y]> a)).
    assert (ByRune.Len a' = ByRune.Len a) as Hlen
      by (unfold ByRune.Len, a'; by rewrite !length_insert).
    assert (a' !! Z.to_nat j = Some x) as Hj'
      by (apply list_lookup_insert_eq; by rewrite length_insert).
    assert (a' !! Z.to_nat i = Some y) as Hi'.
    { unfold a'. destruct (decide (Z.to_nat j = Z.to_nat i)) as [E | Hne].
      - rewrite E, list_lookup_insert_eq by (by rewrite length_insert).
        rewrite E in Hy. congruence.
      - rewrite list_lookup_insert_ne by done. by apply list_lookup_insert_eq. }
    assert (∀ o v, 0 ≤ o → a' !! Z.to_nat o = Some v → ByRune.index a' o = Ok v)
      as Hidx.
    { intros o v Ho Hv. unfold ByRune.index.
      destruct (Z.ltb_spec o 0) as [? | _]; [lia |]. by rewrite Hv. }
    exists a'. split; [done |]. split; [done |].
    split; [by apply (swap_permutation a _ _ x y) |].
    split; [apply Hidx; [lia | done] |].
    split; [apply Hidx; [lia | done] |].
    split.
    + intros Hki Hkj. rewrite Hzi. apply Hidx; [lia |].
      unfold a'. rewrite !list_lookup_insert_ne by lia. done.
    + rewrite (Hidx i y (proj1 Hi) Hi'), (Hidx j x (proj1 Hj) Hj'). f_equal.
      assert (length a' = length a) as Hlen'
        by (unfold a'; by rewrite !length_insert).
      apply list_eq. intros n.
      destruct (decide (n = Z.to_nat j)) as [-> | Hnj].
      * rewrite list_lookup_insert_eq by (by rewrite !length_insert, Hlen'). done.
      * rewrite list_lookup_insert_ne by done.
        destruct (decide (n = Z.to_nat i)) as [-> | Hni].
        -- rewrite list_lookup_insert_eq by (by rewrite Hlen'). done.
        -- rewrite list_lookup_insert_ne by done. unfold a'.
           by rewrite !list_lookup_insert_ne by done.
  - intros o Ho. unfold ByRune.Swap, ByRune.Less.
    rewrite (index_out_of_range a o Ho), Hxi. done.
  - unfold ByRune.Less. rewrite Hxi. by rewrite Z.ltb_irrefl.
  - unfold ByRune.Less. rewrite Hxi, Hyi, Hzi.
    intros [= H1%Z.ltb_lt] [= H2%Z.ltb_lt]. f_equal. apply Z.ltb_lt. lia.
  - unfold ByRune.Less. rewrite Hxi, Hyi.
    intros [= H1%Z.ltb_ge] [= H2%Z.ltb_ge]. f_equal. lia.
Qed.

Lemma ByRune_is_a_sort_Interface_witness :
  0 ≤ 0 < ByRune.Len [99; 97; 98] ∧ 0 ≤ 2 < ByRune.Len [99; 97; 98]
  ∧ 0 ≤ 1 < ByRune.Len [99; 97; 98]
  ∧ ByRune.Swap [99; 97; 98] 0 2 = Ok [98; 97; 99]
  ∧ ∃ a', ByRune.Swap [99; 97; 98] 0 2 = Ok a'
          ∧ ByRune.Len a' = ByRune.Len [99; 97; 98] ∧ a' ≡ₚ [99; 97; 98].
Proof.
  assert (0 ≤ 0 < ByRune.Len [99; 97; 98]) as H0
    by (unfold ByRune.Len; cbn; lia).
  assert (0 ≤ 2 < ByRune.Len [99; 97; 98]) as H2
    by (unfold ByRune.Len; cbn; lia).
  assert (0 ≤ 1 < ByRune.Len [99; 97; 98]) as H1
    by (unfold ByRune.Len; cbn; lia).
  split; [exact H0 |]. split; [exact H2 |]. split; [exact H1 |].
  split; [by_running |].
  destruct (ByRune_is_a_sort_Interface [99; 97; 98] 0 2 1 H0 H2 H1)
    as ((a' & Hswap & Hlen & Hperm & _) & _).
  exists a'. split; [exact Hswap |]. split; [exact Hlen | exact Hperm].
Defined.



